(** * ex-libris: ingestion pipeline, taxonomy index and filter engine

    A shallow embedding of the logic of the ex-libris bookshelf
    (services/geminiService.ts, App.tsx, components/AddPaperModal.tsx,
    components/CitationModal.tsx, components/PaperCard.tsx,
    components/Sidebar.tsx, types.ts) together with the properties its
    design document states about it.

    Conventions of the embedding
    - A JavaScript string is the list of its UTF-16 code units ([list N]).
      [str] turns an ASCII literal into such a list.
    - A JavaScript number that the code only adds, subtracts and compares
      (counts, timestamps) is a [Z].
    - A thrown [Error] is the value [Throw msg]; [console] output is an
      explicit list of diagnostics returned next to the result.
    - An object used as a dictionary is the list of its own properties in
      creation order; behind it stands [Object.prototype], whose members
      a read finds when the object has no property of its own.
    - [String.prototype.toLowerCase] is a parameter of the development:
      the case conversion of the Unicode standard comes with the engine,
      and what is proved holds whatever function it is. *)

From Stdlib Require Import ZArith Lia.
From Stdlib Require String Ascii.
From stdpp Require Import base numbers option list sorting.

Import String.StringSyntax.
Delimit Scope string_scope with string.

Set Warnings "-register-all".
Local Open Scope N_scope.

(** ** JavaScript strings *)

Abbreviation jsstring := (list N) (only parsing).

Definition str (s : String.string) : jsstring :=
  Ascii.N_of_ascii <$> String.list_ascii_of_string s.
Arguments str s%_string.

(** WhiteSpace and LineTerminator code units: what [String.prototype.trim]
    strips and what the regular expression class [\s] matches. *)
Definition isWhiteSpace (c : N) : bool :=
  existsb (N.eqb c)
    [9; 10; 11; 12; 13; 32; 160; 5760; 8232; 8233; 8239; 8287; 12288; 65279]
  || ((8192 <=? c) && (c <=? 8202)).

Fixpoint trimStart (s : jsstring) : jsstring :=
  match s with
  | c :: s' => if isWhiteSpace c then trimStart s' else s
  | [] => []
  end.

Definition trimEnd (s : jsstring) : jsstring :=
  reverse (trimStart (reverse s)).

Definition trim (s : jsstring) : jsstring := trimEnd (trimStart s).

Fixpoint startsWith (p s : jsstring) : bool :=
  match p, s with
  | [], _ => true
  | a :: p', b :: s' => (a =? b) && startsWith p' s'
  | _ :: _, [] => false
  end.

(** [s.includes(t)] *)
Fixpoint includes (s t : jsstring) : bool :=
  startsWith t s ||
  match s with
  | [] => false
  | _ :: s' => includes s' t
  end.

(** [s.indexOf(c)] for a one-unit needle, counted from position [i];
    -1 when absent. *)
Fixpoint indexOf_from (c : N) (s : jsstring) (i : Z) : Z :=
  match s with
  | [] => (-1)%Z
  | x :: s' => if x =? c then i else indexOf_from c s' (i + 1)%Z
  end.

Definition indexOf (c : N) (s : jsstring) : Z := indexOf_from c s 0.

Fixpoint lastIndexOf_from (c : N) (s : jsstring) (i : Z) : Z :=
  match s with
  | [] => (-1)%Z
  | x :: s' =>
      let r := lastIndexOf_from c s' (i + 1)%Z in
      if (r =? -1)%Z then (if x =? c then i else (-1)%Z) else r
  end.

Definition lastIndexOf (c : N) (s : jsstring) : Z := lastIndexOf_from c s 0.

(** [s.substring(a, b)]: both ends are clamped to [0, length] and swapped
    when out of order. *)
Definition substring (s : jsstring) (a b : Z) : jsstring :=
  let len := Z.of_nat (length s) in
  let a' := Z.max 0 (Z.min a len) in
  let b' := Z.max 0 (Z.min b len) in
  let lo := Z.min a' b' in
  let hi := Z.max a' b' in
  take (Z.to_nat (hi - lo)) (drop (Z.to_nat lo) s).

(** ** Thrown errors *)

Inductive result (A : Type) : Type :=
  | Return (a : A)
  | Throw (message : jsstring).
Arguments Return {A} a.
Arguments Throw {A} message.

(** ** JSON values and [JSON.parse] *)

(** A number literal denotes [(-1)^neg * mant * 10^exp10]. *)
Record jsnumber : Type := mkNumber {
  num_neg : bool;
  num_mant : N;
  num_exp10 : Z
}.

Inductive json : Type :=
  | JNull
  | JBool (b : bool)
  | JNumber (n : jsnumber)
  | JString (s : jsstring)
  | JArray (items : list json)
  | JObject (members : list (jsstring * json)).

(** A literal converts to the double 0 when its mantissa is 0 or when its
    magnitude is at most 2^-1075, half the least subnormal. *)
Definition number_is_zero (n : jsnumber) : bool :=
  (num_mant n =? 0) ||
  ((num_exp10 n <? 0)%Z &&
   (Z.of_N (num_mant n) * 2 ^ 1075 <=? 10 ^ (- num_exp10 n))%Z).

Definition is_json_ws (c : N) : bool :=
  (c =? 32) || (c =? 9) || (c =? 10) || (c =? 13).

Fixpoint skip_ws (s : jsstring) : jsstring :=
  match s with
  | c :: s' => if is_json_ws c then skip_ws s' else s
  | [] => []
  end.

Definition is_digit (c : N) : bool := (48 <=? c) && (c <=? 57).

Definition hex_value (c : N) : option N :=
  if is_digit c then Some (c - 48)
  else if (65 <=? c) && (c <=? 70) then Some (c - 55)
  else if (97 <=? c) && (c <=? 102) then Some (c - 87)
  else None.

Definition hex4 (a b c d : N) : option N :=
  match hex_value a, hex_value b, hex_value c, hex_value d with
  | Some x, Some y, Some z, Some w => Some (((x * 16 + y) * 16 + z) * 16 + w)
  | _, _, _, _ => None
  end.

(** The one-letter escapes: quote, backslash, slash, b, f, n, r, t. *)
Definition simple_escape (e : N) : option N :=
  if e =? 34 then Some 34
  else if e =? 92 then Some 92
  else if e =? 47 then Some 47
  else if e =? 98 then Some 8
  else if e =? 102 then Some 12
  else if e =? 110 then Some 10
  else if e =? 114 then Some 13
  else if e =? 116 then Some 9
  else None.

Definition cons_fst {A B : Type} (a : A) (p : list A * B) : list A * B :=
  (a :: p.1, p.2).

(** The characters of a string literal after its opening quote, up to and
    including the closing quote. *)
Fixpoint lex_chars (s : jsstring) : option (jsstring * jsstring) :=
  match s with
  | [] => None
  | c :: r =>
      if c =? 34 then Some ([], r)
      else if c =? 92 then
        match r with
        | [] => None
        | e :: r1 =>
            if e =? 117 then
              match r1 with
              | a :: b :: c' :: d :: r2 =>
                  match hex4 a b c' d with
                  | Some u => cons_fst u <$> lex_chars r2
                  | None => None
                  end
              | _ => None
              end
            else
              match simple_escape e with
              | Some x => cons_fst x <$> lex_chars r1
              | None => None
              end
        end
      else if c <? 32 then None
      else cons_fst c <$> lex_chars r
  end.

Fixpoint lex_digits (s : jsstring) : list N * jsstring :=
  match s with
  | c :: r => if is_digit c then cons_fst (c - 48) (lex_digits r) else ([], s)
  | [] => ([], [])
  end.

Definition digits_value (ds : list N) : N :=
  foldl (fun acc d => acc * 10 + d) 0 ds.

(** int: a single 0, or a non-zero digit followed by digits. *)
Definition lex_int (s : jsstring) : option (list N * jsstring) :=
  match s with
  | c :: r =>
      if c =? 48 then Some ([0], r)
      else if is_digit c then Some (lex_digits s)
      else None
  | [] => None
  end.

Definition lex_frac (s : jsstring) : option (list N * jsstring) :=
  match s with
  | c :: r =>
      if c =? 46 then
        match lex_digits r with
        | ([], _) => None
        | (ds, r') => Some (ds, r')
        end
      else Some ([], s)
  | [] => Some ([], [])
  end.

Definition lex_exp (s : jsstring) : option (Z * jsstring) :=
  match s with
  | c :: r =>
      if (c =? 101) || (c =? 69) then
        let '(sign, r1) :=
          match r with
          | x :: r' =>
              if x =? 45 then ((-1)%Z, r')
              else if x =? 43 then (1%Z, r')
              else (1%Z, r)
          | [] => (1%Z, r)
          end in
        match lex_digits r1 with
        | ([], _) => None
        | (ds, r2) => Some ((sign * Z.of_N (digits_value ds))%Z, r2)
        end
      else Some (0%Z, s)
  | [] => Some (0%Z, [])
  end.

Definition lex_number (s : jsstring) : option (jsnumber * jsstring) :=
  let '(neg, s1) :=
    match s with
    | c :: r => if c =? 45 then (true, r) else (false, s)
    | [] => (false, s)
    end in
  match lex_int s1 with
  | None => None
  | Some (ip, s2) =>
      match lex_frac s2 with
      | None => None
      | Some (fp, s3) =>
          match lex_exp s3 with
          | None => None
          | Some (e, s4) =>
              Some (mkNumber neg (digits_value (ip ++ fp))
                      (e - Z.of_nat (length fp))%Z, s4)
          end
      end
  end.

Definition lex_keyword (kw : jsstring) (v : json) (s : jsstring)
  : option (json * jsstring) :=
  if startsWith kw s then Some (v, drop (length kw) s) else None.

(** Recursive descent over value, elements and members.  Every call spends
    one unit of fuel; [JSON_parse] supplies more than any input can use. *)
Fixpoint parse_value (fuel : nat) (s : jsstring) {struct fuel}
  : option (json * jsstring) :=
  match fuel with
  | O => None
  | S f =>
      match skip_ws s with
      | [] => None
      | c :: r =>
          if c =? 123 then
            match skip_ws r with
            | c1 :: r1 =>
                if c1 =? 125 then Some (JObject [], r1)
                else
                  match parse_members f r with
                  | Some (ms, r2) => Some (JObject ms, r2)
                  | None => None
                  end
            | [] => None
            end
          else if c =? 91 then
            match skip_ws r with
            | c1 :: r1 =>
                if c1 =? 93 then Some (JArray [], r1)
                else
                  match parse_elements f r with
                  | Some (vs, r2) => Some (JArray vs, r2)
                  | None => None
                  end
            | [] => None
            end
          else if c =? 34 then
            match lex_chars r with
            | Some (x, r1) => Some (JString x, r1)
            | None => None
            end
          else if (c =? 45) || is_digit c then
            match lex_number (c :: r) with
            | Some (n, r1) => Some (JNumber n, r1)
            | None => None
            end
          else if c =? 116 then lex_keyword (str "true") (JBool true) (c :: r)
          else if c =? 102 then lex_keyword (str "false") (JBool false) (c :: r)
          else if c =? 110 then lex_keyword (str "null") JNull (c :: r)
          else None
      end
  end
with parse_elements (fuel : nat) (s : jsstring) {struct fuel}
  : option (list json * jsstring) :=
  match fuel with
  | O => None
  | S f =>
      match parse_value f s with
      | None => None
      | Some (v, r) =>
          match skip_ws r with
          | c :: r1 =>
              if c =? 44 then cons_fst v <$> parse_elements f r1
              else if c =? 93 then Some ([v], r1)
              else None
          | [] => None
          end
      end
  end
with parse_members (fuel : nat) (s : jsstring) {struct fuel}
  : option (list (jsstring * json) * jsstring) :=
  match fuel with
  | O => None
  | S f =>
      match skip_ws s with
      | c :: r =>
          if c =? 34 then
            match lex_chars r with
            | None => None
            | Some (k, r1) =>
                match skip_ws r1 with
                | c1 :: r2 =>
                    if c1 =? 58 then
                      match parse_value f r2 with
                      | None => None
                      | Some (v, r3) =>
                          match skip_ws r3 with
                          | c2 :: r4 =>
                              if c2 =? 44 then
                                cons_fst (k, v) <$> parse_members f r4
                              else if c2 =? 125 then Some ([(k, v)], r4)
                              else None
                          | [] => None
                          end
                      end
                    else None
                | [] => None
                end
            end
          else None
      | [] => None
      end
  end.

(** [JSON.parse]: [None] stands for the thrown SyntaxError. *)
Definition JSON_parse (s : jsstring) : option json :=
  match parse_value (2 * length s + 2) s with
  | Some (v, r) => match skip_ws r with [] => Some v | _ :: _ => None end
  | None => None
  end.

(** Property read [d.k] on a parsed value other than null.  An object
    yields its member, the last one when a key is repeated; the keys the
    validator reads are no properties of arrays, strings, numbers or
    booleans, so these yield undefined ([None]). *)
Fixpoint member (k : jsstring) (ms : list (jsstring * json)) : option json :=
  match ms with
  | [] => None
  | (k', v) :: r =>
      match member k r with
      | Some x => Some x
      | None => if decide (k = k') then Some v else None
      end
  end.

Definition prop (d : json) (k : jsstring) : option json :=
  match d with
  | JObject ms => member k ms
  | _ => None
  end.

(** ToBoolean of a property read. *)
Definition truthy (v : option json) : bool :=
  match v with
  | None => false
  | Some JNull => false
  | Some (JBool b) => b
  | Some (JNumber n) => negb (number_is_zero n)
  | Some (JString s) => negb (bool_decide (s = []))
  | Some (JArray _) => true
  | Some (JObject _) => true
  end.

Definition Array_isArray (v : option json) : bool :=
  match v with
  | Some (JArray _) => true
  | _ => false
  end.

(** ** geminiService.ts: parseResponse *)

(** The pattern [```json\s*([\s\S]*?)\s*```], as a backtracking matcher.
    [ws_then k] is a greedy [\s*] followed by [k]: it first lets the star
    take one more unit and falls back to [k] on the spot. *)
Definition fence : jsstring := str "```".
Definition fence_json : jsstring := str "```json".

Fixpoint ws_then {A : Type} (k : jsstring -> option A) (s : jsstring)
  : option A :=
  match s with
  | c :: s' =>
      if isWhiteSpace c then
        match ws_then k s' with
        | Some r => Some r
        | None => k s
        end
      else k s
  | [] => k []
  end.

(** [\s*```] *)
Definition match_close (s : jsstring) : option unit :=
  ws_then (fun r => if startsWith fence r then Some () else None) s.

(** [([\s\S]*?)\s*```]: the lazy group grows one unit at a time until the
    rest of the pattern matches; the result is the captured group. *)
Fixpoint match_group (s : jsstring) : option jsstring :=
  match match_close s with
  | Some _ => Some []
  | None =>
      match s with
      | c :: s' => cons c <$> match_group s'
      | [] => None
      end
  end.

Definition match_at (s : jsstring) : option jsstring :=
  if startsWith fence_json s
  then ws_then match_group (drop (length fence_json) s)
  else None.

(** [text.match(...)]: the leftmost position where the pattern matches;
    the result is capture group 1. *)
Fixpoint match_json_block (text : jsstring) : option jsstring :=
  match match_at text with
  | Some g => Some g
  | None =>
      match text with
      | _ :: text' => match_json_block text'
      | [] => None
      end
  end.

(** ResponseExtractor: the cleanup that precedes [JSON.parse]. *)
Definition extract (text : jsstring) : jsstring :=
  let jsonString := trim text in
  match match_json_block text with
  | Some g => g
  | None =>
      let firstBrace := indexOf 123 text in
      let lastBrace := lastIndexOf 125 text in
      if negb (firstBrace =? -1)%Z && negb (lastBrace =? -1)%Z
         && (firstBrace <? lastBrace)%Z
      then substring text firstBrace (lastBrace + 1)%Z
      else jsonString
  end.

(** What the [try] block can throw. *)
Inductive exn : Type :=
  | SyntaxError
  | TypeError
  | Error (message : jsstring).

Inductive diagnostic : Type :=
  | console_warn (message : jsstring) (data : json)
  | console_error (label : jsstring) (e : exn)
  | console_error_text (label : jsstring) (s : jsstring).

Definition msg_no_response : jsstring :=
  str "No response received from AI service.".
Definition msg_incomplete : jsstring :=
  str "Incomplete data structure received".
Definition msg_no_title : jsstring :=
  str "Could not extract paper title from AI response.".
Definition msg_parse_failed : jsstring :=
  str "Failed to parse AI response. The model did not return valid JSON.".

(** The body of the [try] block: the value returned or the exception
    raised, with what was written to the console on the way. *)
Definition validate_body (jsonString : jsstring)
  : (exn + json) * list diagnostic :=
  match JSON_parse jsonString with
  | None => (inl SyntaxError, [])
  | Some JNull => (inl TypeError, [])
  | Some data =>
      if negb (truthy (prop data (str "title")))
         || negb (truthy (prop data (str "summary")))
         || negb (Array_isArray (prop data (str "authors")))
         || negb (Array_isArray (prop data (str "tags")))
         || negb (truthy (prop data (str "topic")))
      then
        if negb (truthy (prop data (str "title")))
        then (inl (Error msg_no_title), [console_warn msg_incomplete data])
        else (inr data, [console_warn msg_incomplete data])
      else (inr data, [])
  end.

(** MetadataValidator: the [try]/[catch] around the body.  Whatever the
    body throws is logged and replaced by one fixed error. *)
Definition validate (text jsonString : jsstring)
  : result json * list diagnostic :=
  match validate_body jsonString with
  | (inr data, log) => (Return data, log)
  | (inl e, log) =>
      (Throw msg_parse_failed,
       log ++ [console_error (str "JSON Parse Error:") e;
               console_error_text (str "Raw Text Received:") text;
               console_error_text (str "Attempted JSON String:") jsonString])
  end.

Definition parseResponse (text : option jsstring)
  : result json * list diagnostic :=
  match text with
  | None => (Throw msg_no_response, [])
  | Some [] => (Throw msg_no_response, [])
  | Some text => validate text (extract text)
  end.

(** ** types.ts *)

Record Paper : Type := mkPaper {
  id : jsstring;
  url : jsstring;
  title : jsstring;
  summary : jsstring;
  authors : list jsstring;
  topic : jsstring;
  subTopic : option jsstring;
  tags : list jsstring;
  journal : option jsstring;
  publishDate : option jsstring;
  addedAt : Z
}.

Record PaperMetadata : Type := mkPaperMetadata {
  m_title : jsstring;
  m_summary : jsstring;
  m_authors : list jsstring;
  m_topic : jsstring;
  m_subTopic : option jsstring;
  m_tags : list jsstring;
  m_journal : option jsstring;
  m_publishDate : option jsstring
}.

(** A record as it comes back from storage: [topic] and [tags] may be
    missing ([None] also stands for null). *)
Record StoredPaper : Type := mkStoredPaper {
  stored_id : jsstring;
  stored_url : jsstring;
  stored_title : jsstring;
  stored_summary : jsstring;
  stored_authors : list jsstring;
  stored_topic : option jsstring;
  stored_subTopic : option jsstring;
  stored_tags : option (list jsstring);
  stored_journal : option jsstring;
  stored_publishDate : option jsstring;
  stored_addedAt : Z
}.

(** ** JavaScript idioms used by App.tsx *)

(** ToBoolean of a string, and of a string that may be null or undefined. *)
Definition nonempty (s : jsstring) : bool :=
  match s with [] => false | _ :: _ => true end.

Definition is_set (o : option jsstring) : bool :=
  match o with Some s => nonempty s | None => false end.

(** *** Objects used as dictionaries *)

(** The members of [Object.prototype]: its methods and the accessor
    [__proto__]. *)
Definition Object_prototype_methods : list jsstring :=
  [ str "constructor"; str "__defineGetter__"; str "__defineSetter__";
    str "hasOwnProperty"; str "__lookupGetter__"; str "__lookupSetter__";
    str "isPrototypeOf"; str "propertyIsEnumerable"; str "toString";
    str "valueOf"; str "toLocaleString" ].

Definition proto : jsstring := str "__proto__".

Definition Object_prototype_keys : list jsstring :=
  proto :: Object_prototype_methods.

(** What a counting loop stores under a key.  It is a number, unless the
    count started from a member of [Object.prototype]: [Text k n] is the
    string made of the text of [Object.prototype[k]] followed by [n]
    digits 1.  That text is the source text of a built-in function, which
    the engine words, or [[object Object]] for [__proto__]. *)
Inductive count : Type :=
  | Num (n : Z)
  | Text (k : jsstring) (ones : nat).

(** A [Record<string, number>] made by [{}]: its own properties in
    creation order. *)
Abbreviation dict := (list (jsstring * count)) (only parsing).

(** What a property read yields: nothing, a stored count, or the member
    of [Object.prototype] of that name. *)
Inductive value : Type :=
  | undefined
  | stored (c : count)
  | inherited (k : jsstring).

Fixpoint own_property (k : jsstring) (d : dict) : option count :=
  match d with
  | [] => None
  | (k', v) :: d' => if decide (k = k') then Some v else own_property k d'
  end.

(** [d[k]]: the own property, or else what the prototype has. *)
Definition dict_get (k : jsstring) (d : dict) : value :=
  match own_property k d with
  | Some c => stored c
  | None =>
      if decide (k ∈ Object_prototype_keys) then inherited k else undefined
  end.

(** [(v || 0) + 1].  A missing value counts as 0.  A function or an
    object is truthy and [+] turns it into its text, a string is not
    empty here; to each the digit 1 is appended. *)
Definition increment (v : value) : count :=
  match v with
  | undefined => Num 1
  | stored (Num n) => Num (n + 1)
  | stored (Text k ones) => Text k (S ones)
  | inherited k => Text k 1
  end.

(** An own property is created or overwritten: an existing property keeps
    its place, a new one goes last. *)
Fixpoint define_property (k : jsstring) (v : count) (d : dict) : dict :=
  match d with
  | [] => [(k, v)]
  | (k', v') :: d' =>
      if decide (k = k') then (k', v) :: d'
      else (k', v') :: define_property k v d'
  end.

(** [d[k] = v] for a count [v].  Under [__proto__] the assignment runs
    the setter of [Object.prototype], which ignores a value that is
    neither an object nor null, unless the object has a property of that
    name of its own. *)
Definition dict_set (k : jsstring) (v : count) (d : dict) : dict :=
  if decide (k = proto) then
    match own_property k d with
    | Some _ => define_property k v d
    | None => d
    end
  else define_property k v d.

(** [Array.prototype.sort(cmp)]: the stable sort, by insertion from the
    right.  An element goes in front of the first element it does not
    compare greater than.  This is the order every engine gives when the
    comparator is consistent.  When it is not, the standard leaves the
    order to the engine, and nothing below is stated about the order
    then. *)
Fixpoint sort_insert {A : Type} (cmp : A -> A -> Z) (x : A) (l : list A)
  : list A :=
  match l with
  | [] => [x]
  | y :: l' =>
      if (cmp x y <=? 0)%Z then x :: l else y :: sort_insert cmp x l'
  end.

Definition Array_sort {A : Type} (cmp : A -> A -> Z) (l : list A) : list A :=
  foldr (sort_insert cmp) [] l.

(** A property key is an array index when it is the decimal numeral of an
    integer below 2^32 - 1. *)
Definition array_index (k : jsstring) : option N :=
  match k with
  | [] => None
  | c :: r =>
      if forallb is_digit k && ((negb (c =? 48)) || bool_decide (r = []))
      then
        let v := digits_value ((fun d => d - 48) <$> k) in
        if v <? 4294967295 then Some v else None
      else None
  end.

(** [Object.entries]: array-index keys in ascending order, then the other
    keys in creation order. *)
Definition Object_entries (d : dict) : list (jsstring * count) :=
  Array_sort
    (fun a b => (Z.of_N (default 0%N (array_index a.1))
                 - Z.of_N (default 0%N (array_index b.1)))%Z)
    (filter (fun e => is_Some (array_index e.1)) d)
  ++ filter (fun e => array_index e.1 = None) d.

(** [x - y] as the comparator of the side bar computes it; [None] is NaN.
    A count that is a string begins with the text of a function or with
    [[object Object]], so it is no numeral and ToNumber makes it NaN. *)
Definition subtract (x y : count) : option Z :=
  match x, y with
  | Num a, Num b => Some (a - b)%Z
  | _, _ => None
  end.

(** What [Array.prototype.sort] makes of the result of a comparator: NaN
    counts as +0. *)
Definition SortCompare (v : option Z) : Z := default 0%Z v.

(** ** The built-in that comes with the engine *)

Section builtins.

(** [String.prototype.toLowerCase].  Nothing is assumed about it. *)
Variable toLowerCase : jsstring -> jsstring.

(** A statement depends on the built-in only where it speaks of it. *)
#[local] Set Default Proof Using "Type".

(** ** App.tsx *)

Definition fallback_topic : jsstring := str "Biology".

(** The migration applied to each stored record when the collection is
    loaded. *)
Definition migrate (p : StoredPaper) : Paper :=
  {| id := stored_id p;
     url := stored_url p;
     title := stored_title p;
     summary := stored_summary p;
     authors := stored_authors p;
     topic :=
       if is_set (stored_topic p) then default [] (stored_topic p)
       else
         match stored_tags p with
         | Some (t :: _) => t
         | _ => fallback_topic
         end;
     subTopic := stored_subTopic p;
     tags := default [] (stored_tags p);
     journal := stored_journal p;
     publishDate := stored_publishDate p;
     addedAt := stored_addedAt p |}.

(** What storage holds for a paper of the running collection. *)
Definition store (p : Paper) : StoredPaper :=
  {| stored_id := id p;
     stored_url := url p;
     stored_title := title p;
     stored_summary := summary p;
     stored_authors := authors p;
     stored_topic := Some (topic p);
     stored_subTopic := subTopic p;
     stored_tags := Some (tags p);
     stored_journal := journal p;
     stored_publishDate := publishDate p;
     stored_addedAt := addedAt p |}.

Definition load (saved : list StoredPaper) : list Paper := migrate <$> saved.

Record Selection : Type := mkSelection {
  selectedTopic : option jsstring;
  selectedSubTopic : option jsstring;
  selectedTag : option jsstring;
  searchQuery : jsstring
}.

Definition initial_selection : Selection :=
  {| selectedTopic := None; selectedSubTopic := None;
     selectedTag := None; searchQuery := [] |}.

(** [topics] *)
Definition topics (papers : list Paper) : dict :=
  foldl
    (fun topicCounts p =>
       let t := topic p in
       if nonempty t
       then dict_set t (increment (dict_get t topicCounts)) topicCounts
       else topicCounts)
    [] papers.

(** [subTopics] *)
Definition subTopics (papers : list Paper) (selectedTopic : option jsstring)
  : dict :=
  if negb (is_set selectedTopic) then []
  else
    foldl
      (fun counts p =>
         if bool_decide (Some (topic p) = selectedTopic) && is_set (subTopic p)
         then
           let s := default [] (subTopic p) in
           dict_set s (increment (dict_get s counts)) counts
         else counts)
      [] papers.

(** Sidebar.tsx: [sortedTopics] and [sortedSubTopics] *)
Definition sorted_entries (counts : dict) : list (jsstring * count) :=
  Array_sort (fun a b => SortCompare (subtract b.2 a.2))
    (Object_entries counts).

Definition sortedTopics (papers : list Paper) : list (jsstring * count) :=
  sorted_entries (topics papers).

Definition sortedSubTopics (papers : list Paper)
    (selectedTopic : option jsstring) : list (jsstring * count) :=
  sorted_entries (subTopics papers selectedTopic).

(** The predicate passed to [papers.filter] in [filteredPapers]. *)
Definition matchesTopic (sel : Selection) (p : Paper) : bool :=
  if is_set (selectedTopic sel)
  then bool_decide (Some (topic p) = selectedTopic sel) else true.

Definition matchesSubTopic (sel : Selection) (p : Paper) : bool :=
  if is_set (selectedSubTopic sel)
  then bool_decide (subTopic p = selectedSubTopic sel) else true.

Definition matchesTag (sel : Selection) (p : Paper) : bool :=
  if is_set (selectedTag sel)
  then bool_decide (default [] (selectedTag sel) ∈ tags p) else true.

Definition matchesSearch (sel : Selection) (p : Paper) : bool :=
  let q := toLowerCase (searchQuery sel) in
  if nonempty (searchQuery sel)
  then includes (toLowerCase (title p)) q
       || existsb (fun a => includes (toLowerCase a) q) (authors p)
       || existsb (fun t => includes (toLowerCase t) q) (tags p)
       || includes (toLowerCase (topic p)) q
       || match subTopic p with
          | Some s => nonempty s && includes (toLowerCase s) q
          | None => false
          end
  else true.

Definition matches (sel : Selection) (p : Paper) : bool :=
  matchesTopic sel p && matchesSubTopic sel p
  && matchesTag sel p && matchesSearch sel p.

Definition filteredPapers (papers : list Paper) (sel : Selection)
  : list Paper :=
  Array_sort (fun a b => (addedAt b - addedAt a)%Z)
    (filter (fun p => matches sel p) papers).

(** Handlers on the collection. *)
Definition handleAddPaper (newPaper : Paper) (prev : list Paper)
  : list Paper := newPaper :: prev.

Definition handleDeletePaper (i : jsstring) (prev : list Paper)
  : list Paper := filter (fun p => id p ≠ i) prev.

Definition handleUpdateMetadata (i : jsstring) (newTopic : jsstring)
    (newSubTopic : option jsstring) (newTags : list jsstring)
    (prev : list Paper) : list Paper :=
  (fun p =>
     if decide (id p = i)
     then {| id := id p; url := url p; title := title p;
             summary := summary p; authors := authors p;
             topic := newTopic; subTopic := newSubTopic; tags := newTags;
             journal := journal p; publishDate := publishDate p;
             addedAt := addedAt p |}
     else p) <$> prev.

(** Handlers on the selection. *)
Definition handleTopicSelection (t : option jsstring) (s : Selection)
  : Selection :=
  {| selectedTopic := t; selectedSubTopic := None; selectedTag := None;
     searchQuery := searchQuery s |}.

Definition handleTagClick (tag : jsstring) (s : Selection) : Selection :=
  {| selectedTag := Some tag; selectedTopic := None;
     selectedSubTopic := None; searchQuery := searchQuery s |}.

Definition setSelectedSubTopic (sub : option jsstring) (s : Selection)
  : Selection :=
  {| selectedTopic := selectedTopic s; selectedSubTopic := sub;
     selectedTag := selectedTag s; searchQuery := searchQuery s |}.

Definition setSelectedTag (tag : option jsstring) (s : Selection)
  : Selection :=
  {| selectedTopic := selectedTopic s;
     selectedSubTopic := selectedSubTopic s;
     selectedTag := tag; searchQuery := searchQuery s |}.

Definition setSearchQuery (q : jsstring) (s : Selection) : Selection :=
  {| selectedTopic := selectedTopic s;
     selectedSubTopic := selectedSubTopic s;
     selectedTag := selectedTag s; searchQuery := q |}.

(** ** Sidebar.tsx, PaperCard.tsx and the top bar: what the user can do *)

(** One constructor per control that changes the selection; [ui_step]
    holds when the control is on screen for the given collection and
    selection and leads to the next selection. *)
Inductive ui_step (papers : list Paper) (s : Selection)
  : Selection -> Prop :=
  | click_all_papers :
      ui_step papers s (handleTopicSelection None s)
  | click_topic (t : jsstring) (n : count) :
      (t, n) ∈ sortedTopics papers ->
      ui_step papers s
        (handleTopicSelection
           (if decide (Some t = selectedTopic s) then None else Some t) s)
  | click_subTopic (t : jsstring) (n : count) (sub : jsstring) (k : count) :
      (t, n) ∈ sortedTopics papers ->
      selectedTopic s = Some t ->
      (sub, k) ∈ sortedSubTopics papers (selectedTopic s) ->
      ui_step papers s
        (setSelectedSubTopic
           (if decide (Some sub = selectedSubTopic s) then None else Some sub)
           s)
  | click_tag (p : Paper) (tag : jsstring) :
      p ∈ filteredPapers papers s ->
      tag ∈ tags p ->
      ui_step papers s (handleTagClick tag s)
  | click_clear_tag :
      is_set (selectedTag s) = true ->
      ui_step papers s (setSelectedTag None s)
  | type_search (q : jsstring) :
      ui_step papers s (setSearchQuery q s).

(** The selections a session can be in: from the initial one, any number
    of steps, the collection being whatever it is at each step. *)
Inductive reachable : Selection -> Prop :=
  | reachable_initial : reachable initial_selection
  | reachable_step (papers : list Paper) (s s' : Selection) :
      reachable s -> ui_step papers s s' -> reachable s'.

(** The same with the collection held fixed. *)
Inductive reachable_in (papers : list Paper) : Selection -> Prop :=
  | reachable_in_initial : reachable_in papers initial_selection
  | reachable_in_step (s s' : Selection) :
      reachable_in papers s -> ui_step papers s s' -> reachable_in papers s'.

(** ** AddPaperModal.tsx: handleSubmit *)

Definition msg_no_metadata : jsstring := str "Failed to retrieve metadata".
Definition msg_duplicate : jsstring :=
  str "This paper already exists in your bookshelf".
Definition msg_default : jsstring := str "Failed to analyze paper".

(** [existingPapers.some(p => p.title.toLowerCase().trim() ===
    paperMetadata.title.toLowerCase().trim())] *)
Definition isDuplicate (existingPapers : list Paper) (m : PaperMetadata)
  : bool :=
  existsb
    (fun p =>
       bool_decide (trim (toLowerCase (title p))
                    = trim (toLowerCase (m_title m))))
    existingPapers.

(** What [handleSubmit] leaves behind: the paper handed to [onAdd], if
    any, and the error shown in the dialog, if any. *)
Record submitted : Type := mkSubmitted {
  added : option Paper;
  error : option jsstring
}.

(** [acquired] is the outcome of the first part of the [try] block, which
    checks the input and awaits the analysis service: the locator and the
    metadata, or the message of what was thrown there.  [uuid] and [now]
    are the values [crypto.randomUUID()] and [Date.now()] return. *)
Definition handleSubmit
    (acquired : result (jsstring * option PaperMetadata))
    (existingPapers : list Paper) (uuid : jsstring) (now : Z) : submitted :=
  let attempt : result Paper :=
    match acquired with
    | Throw message => Throw message
    | Return (_, None) => Throw msg_no_metadata
    | Return (paperUrl, Some paperMetadata) =>
        if isDuplicate existingPapers paperMetadata
        then Throw msg_duplicate
        else
          Return
            {| id := uuid;
               url := paperUrl;
               title := m_title paperMetadata;
               summary := m_summary paperMetadata;
               authors := m_authors paperMetadata;
               topic := m_topic paperMetadata;
               subTopic := m_subTopic paperMetadata;
               tags := m_tags paperMetadata;
               journal := m_journal paperMetadata;
               publishDate := m_publishDate paperMetadata;
               addedAt := now |}
    end in
  match attempt with
  | Return newPaper => {| added := Some newPaper; error := None |}
  | Throw message =>
      {| added := None;
         error := Some (if nonempty message then message else msg_default) |}
  end.

(** The collection after the submission: [onAdd] is [handleAddPaper]. *)
Definition collection_after (papers : list Paper) (r : submitted)
  : list Paper :=
  match added r with
  | Some newPaper => handleAddPaper newPaper papers
  | None => papers
  end.

(** The error box: amber for a message that contains "already exists",
    red for any other. *)
Inductive error_style : Type := amber | red.

Definition style_of (error : jsstring) : error_style :=
  if includes error (str "already exists") then amber else red.

(** * Vocabulary of the properties *)

(** A run of white space. *)
Definition blank (w : jsstring) : Prop :=
  Forall (fun c => isWhiteSpace c = true) w.

(** The text holds a block opened by the JSON-tagged fence and closed by a
    fence. *)
Definition has_json_block (text : jsstring) : Prop :=
  exists pre body post, text = pre ++ fence_json ++ body ++ fence ++ post.

(** [pre] is what stands before the first occurrence of [s] in [text]. *)
Definition first_occurrence (s pre text : jsstring) : Prop :=
  (exists post, text = pre ++ s ++ post)
  /\ forall pre' post',
       text = pre' ++ s ++ post' -> (length pre <= length pre')%nat.

(** [body] is the inner content of the first JSON-tagged block of [text]:
    what stands between the first JSON-tagged fence and the first fence
    after it. *)
Definition json_block (text body : jsstring) : Prop :=
  exists pre rest,
    first_occurrence fence_json pre text
    /\ text = pre ++ fence_json ++ rest
    /\ first_occurrence fence body rest.

(** A first opening brace and a last closing brace exist, in this order;
    [inner] is the inclusive substring between them. *)
Definition brace_span (text inner : jsstring) : Prop :=
  exists pre mid post,
    text = pre ++ 123 :: mid ++ 125 :: post /\
    inner = 123 :: mid ++ [125] /\
    (123 ∉ pre) /\ (125 ∉ post).

Definition has_brace_pair (text : jsstring) : Prop :=
  exists pre mid post, text = pre ++ 123 :: mid ++ 125 :: post.

(** The required fields other than the title. *)
Definition other_fields_ok (d : json) : bool :=
  truthy (prop d (str "summary"))
  && Array_isArray (prop d (str "authors"))
  && Array_isArray (prop d (str "tags"))
  && truthy (prop d (str "topic")).

Definition parse_failure_log (e : exn) (text jsonString : jsstring)
  : list diagnostic :=
  [console_error (str "JSON Parse Error:") e;
   console_error_text (str "Raw Text Received:") text;
   console_error_text (str "Attempted JSON String:") jsonString].

(** ** Sample inputs *)

Definition quoted (s : jsstring) : jsstring := [34] ++ s ++ [34].

(** The text of an object with string members, without white space. *)
Fixpoint members_text (ms : list (String.string * String.string))
  : jsstring :=
  match ms with
  | [] => []
  | [(k, v)] => quoted (str k) ++ str ":" ++ quoted (str v)
  | (k, v) :: ms' =>
      quoted (str k) ++ str ":" ++ quoted (str v) ++ str "," ++ members_text ms'
  end.

Definition object_text (ms : list (String.string * String.string))
  : jsstring := str "{" ++ members_text ms ++ str "}".

Definition sample_without_title : jsstring :=
  object_text [("summary", "A summary"); ("topic", "Biology")]%string.

Definition sample_title_only : jsstring :=
  object_text [("title", "Attention Is All You Need");
               ("journal", "NeurIPS"); ("publishDate", "2017")]%string.

Definition sample_fenced : jsstring := str "```json x ```".

(** A comparator that orders by a key, greatest first: the shape of the
    three comparators [(a, b) => b.key - a.key] in the sources. *)
Definition by_key_desc {A : Type} (key : A -> Z) (a b : A) : Z :=
  (key b - key a)%Z.

(** ** FilterEngine, in the words of the design *)

(** Case-insensitive substring match of the query [q] against [s]: the
    lower-cased query occurs in the lower-cased string. *)
Definition ci_contains (s q : jsstring) : Prop :=
  exists pre post, toLowerCase s = pre ++ toLowerCase q ++ post.

(** An axis is active when its selection is set, that is neither null nor
    the empty string; an inactive axis holds of every paper.  A sub-topic
    is present when it is neither missing nor the empty string. *)
Definition topic_predicate (sel : Selection) (p : Paper) : Prop :=
  forall t, selectedTopic sel = Some t -> t <> [] -> topic p = t.

Definition subTopic_predicate (sel : Selection) (p : Paper) : Prop :=
  forall s, selectedSubTopic sel = Some s -> s <> [] -> subTopic p = Some s.

Definition tag_predicate (sel : Selection) (p : Paper) : Prop :=
  forall g, selectedTag sel = Some g -> g <> [] -> g ∈ tags p.

Definition search_predicate (sel : Selection) (p : Paper) : Prop :=
  searchQuery sel <> [] ->
  ci_contains (title p) (searchQuery sel)
  \/ (exists a, a ∈ authors p /\ ci_contains a (searchQuery sel))
  \/ (exists g, g ∈ tags p /\ ci_contains g (searchQuery sel))
  \/ ci_contains (topic p) (searchQuery sel)
  \/ (exists s, subTopic p = Some s /\ s <> []
                 /\ ci_contains s (searchQuery sel)).

Definition satisfies (sel : Selection) (p : Paper) : Prop :=
  topic_predicate sel p /\ subTopic_predicate sel p
  /\ tag_predicate sel p /\ search_predicate sel p.

(** Newest first. *)
Definition newest_first (ps : list Paper) : Prop :=
  StronglySorted (fun a b => (addedAt b <= addedAt a)%Z) ps.


(** ** TaxonomyIndex, in the words of the design *)

(** Both counting loops have one shape: a paper either contributes one
    occurrence to one key or is passed over. *)
Definition tally (key : Paper -> option jsstring) (d : dict)
    (papers : list Paper) : dict :=
  foldl
    (fun counts p =>
       match key p with
       | Some k => dict_set k (increment (dict_get k counts)) counts
       | None => counts
       end)
    d papers.

Definition topic_key (p : Paper) : option jsstring :=
  if nonempty (topic p) then Some (topic p) else None.

Definition subTopic_key (selectedTopic : option jsstring) (p : Paper)
  : option jsstring :=
  if bool_decide (Some (topic p) = selectedTopic) && is_set (subTopic p)
  then subTopic p else None.

(** The number of papers whose topic is [t], and the number of papers whose
    topic is [t] and whose sub-topic is [s]. *)
Definition topic_occurrences (t : jsstring) (papers : list Paper) : Z :=
  Z.of_nat (length (filter (fun p => topic p = t) papers)).

Definition subTopic_occurrences (t s : jsstring) (papers : list Paper) : Z :=
  Z.of_nat
    (length (filter (fun p => topic p = t /\ subTopic p = Some s) papers)).


(** A label that no member of [Object.prototype] has as its name. *)
Definition plain_label (k : jsstring) : Prop := k ∉ Object_prototype_keys.

(** What the mapping holds for a label that met [n] papers: for a plain
    label the number, for the name of a method of [Object.prototype] the
    text of the method followed by [n] digits 1, and under [__proto__]
    nothing. *)
Definition entry_for (k : jsstring) (n : Z) : option count :=
  if (n =? 0)%Z then None
  else if decide (k = proto) then None
  else if decide (k ∈ Object_prototype_methods)
       then Some (Text k (Z.to_nat n))
       else Some (Num n).



(** A paper whose topic names a method of [Object.prototype]. *)
Definition sample_constructor_topic : Paper :=
  {| id := str "p1"; url := str "https://example.org/1";
     title := str "A paper"; summary := str "S"; authors := [];
     topic := str "constructor"; subTopic := None; tags := [];
     journal := None; publishDate := None; addedAt := 1%Z |}.


(** ** DeduplicationGuard, in the words of the design *)

(** Two titles collide when they are equal after lower-casing and trimming
    surrounding white space. *)
Definition titles_collide (a b : jsstring) : Prop :=
  trim (toLowerCase a) = trim (toLowerCase b).

Definition collides_with (existingPapers : list Paper) (m : PaperMetadata)
  : Prop :=
  exists p, p ∈ existingPapers /\ titles_collide (title p) (m_title m).

Definition marker_already_exists : jsstring := str "already exists".

(** The failure messages written out in geminiService.ts and
    AddPaperModal.tsx, the duplicate rejection apart.  The two messages
    built around the finish reason reported by the service, and messages
    of errors raised by the service client, are forwarded as they come and
    are not in this list. *)
Definition own_failure_messages : list jsstring :=
  [ str "Please enter a URL";
    str "Please enter a DOI";
    str "Please select a PDF file";
    msg_no_metadata;
    msg_default;
    str "API Key not found in environment variables";
    str "The AI service blocked the response due to copyright (RECITATION). The paper's text might be protected. Please try adding the paper via PDF upload instead.";
    str "The AI service returned an empty response. Please check if the URL is accessible and points to a valid paper.";
    str "Failed to analyze paper. Please check the URL or try again.";
    str "The AI service returned an empty response for the PDF.";
    str "Failed to analyze PDF.";
    str "PDF file is too large. Please try a smaller file (under 10MB).";
    str "AI response parsing failed. Please try again.";
    msg_no_response;
    msg_no_title;
    msg_parse_failed ].

(** The submission was turned down as a duplicate. *)
Definition rejected_as_duplicate
    (acquired : result (jsstring * option PaperMetadata))
    (existingPapers : list Paper) : Prop :=
  exists paperUrl m,
    acquired = Return (paperUrl, Some m) /\ collides_with existingPapers m.

Definition sample_attention : PaperMetadata :=
  {| m_title := str "Attention Is All You Need"; m_summary := str "S";
     m_authors := [str "A. Vaswani"]; m_topic := str "Machine Learning";
     m_subTopic := None; m_tags := []; m_journal := None;
     m_publishDate := None |}.

Definition sample_stored_attention : Paper :=
  {| id := str "p0"; url := str "https://example.org/0";
     title := str "  attention is all you need "; summary := str "S";
     authors := []; topic := str "Machine Learning"; subTopic := None;
     tags := []; journal := None; publishDate := None; addedAt := 0%Z |}.

(** ** Selection state, in the words of the design *)

(** A sub-topic is only ever selected under a selected topic, both being
    labels that are not empty, and a tag only ever without topic and
    sub-topic. *)
Definition consistent (s : Selection) : Prop :=
  (forall sub, selectedSubTopic s = Some sub ->
     sub <> [] /\ exists t, selectedTopic s = Some t /\ t <> [])
  /\ (forall tag, selectedTag s = Some tag ->
        selectedTopic s = None /\ selectedSubTopic s = None).

(** The selected sub-topic is one that the collection has under the
    selected topic. *)
Definition offered_under (papers : list Paper) (s : Selection) : Prop :=
  forall sub, selectedSubTopic s = Some sub ->
    exists t n, selectedTopic s = Some t
                /\ own_property sub (subTopics papers (Some t)) = Some n.

(** ** Stored records *)

(** A stored record conforms when it has a non-empty topic and a list of
    tags. *)
Definition conforms (p : StoredPaper) : Prop :=
  (exists t, stored_topic p = Some t /\ t <> [])
  /\ (exists g, stored_tags p = Some g).

Definition sample_legacy_tagged : StoredPaper :=
  {| stored_id := str "p7"; stored_url := str "https://example.org/7";
     stored_title := str "T"; stored_summary := str "S";
     stored_authors := []; stored_topic := None; stored_subTopic := None;
     stored_tags := Some [str "fMRI"; str "memory"];
     stored_journal := None; stored_publishDate := None;
     stored_addedAt := 7%Z |}.

Definition sample_legacy_bare : StoredPaper :=
  {| stored_id := str "p8"; stored_url := str "https://example.org/8";
     stored_title := str "T"; stored_summary := str "S";
     stored_authors := []; stored_topic := None; stored_subTopic := None;
     stored_tags := None;
     stored_journal := None; stored_publishDate := None;
     stored_addedAt := 8%Z |}.

(** ** Operations on the collection *)

Inductive collection_op : Type :=
  | op_add (newPaper : Paper)
  | op_delete (i : jsstring)
  | op_update (i : jsstring) (newTopic : jsstring)
      (newSubTopic : option jsstring) (newTags : list jsstring).

Definition apply_op (op : collection_op) (prev : list Paper) : list Paper :=
  match op with
  | op_add newPaper => handleAddPaper newPaper prev
  | op_delete i => handleDeletePaper i prev
  | op_update i newTopic newSubTopic newTags =>
      handleUpdateMetadata i newTopic newSubTopic newTags prev
  end.

(** Identity and creation time of a paper. *)
Definition identity (p : Paper) : jsstring * Z := (id p, addedAt p).

(** ** A small collection for the examples of the design *)

Definition sample_paper (i t : String.string) (sub : option jsstring)
    (g : list jsstring) (a : Z) : Paper :=
  {| id := str i; url := str "https://example.org"; title := str i;
     summary := str "S"; authors := [str "An Author"]; topic := str t;
     subTopic := sub; tags := g; journal := None; publishDate := None;
     addedAt := a |}.
Arguments sample_paper (i t)%_string sub g a.

Definition sample_collection : list Paper :=
  [ sample_paper "p1" "A" (Some (str "X")) [str "neuroscience"] 1;
    sample_paper "p2" "A" None [] 2;
    sample_paper "p3" "B" None [str "neuroscience"; str "fMRI"] 3 ]%Z.

Definition sample_selection_sub : Selection :=
  {| selectedTopic := Some (str "A"); selectedSubTopic := Some (str "X");
     selectedTag := None; searchQuery := [] |}.

(** On ASCII text the built-in lower-casing turns the letters A to Z into
    a to z and leaves every other code unit as it is.  [lower_ascii] does
    this to every string; it stands in for the built-in where an example
    is evaluated, the strings of the examples being ASCII. *)
Definition lower_ascii (s : jsstring) : jsstring :=
  (fun c => if (65 <=? c) && (c <=? 90) then c + 32 else c) <$> s.

(** * Further vocabulary *)

(** The sum of the counts of a list of entries, as far as they are
    numbers. *)
Definition total_count (es : list (jsstring * count)) : Z :=
  foldr (fun e acc =>
           match e.2 with
           | Num n => (n + acc)%Z
           | Text _ _ => acc
           end) 0%Z es.

(** No paper of the collection is newer than [p]. *)
Definition newest (p : Paper) (papers : list Paper) : Prop :=
  Forall (fun q => (addedAt q <= addedAt p)%Z) papers.

(** ** Invariants of the collection *)



(** No two papers of the collection have the same id. *)
Definition unique_ids (papers : list Paper) : Prop :=
  NoDup (id <$> papers).

(** The paper as [handleUpdateMetadata] rewrites it. *)
Definition with_metadata (p : Paper) (newTopic : jsstring)
    (newSubTopic : option jsstring) (newTags : list jsstring) : Paper :=
  {| id := id p; url := url p; title := title p; summary := summary p;
     authors := authors p; topic := newTopic; subTopic := newSubTopic;
     tags := newTags; journal := journal p; publishDate := publishDate p;
     addedAt := addedAt p |}.

(** 1 when the two labels are equal, 0 otherwise. *)
Definition indicator (a b : jsstring) : Z :=
  if decide (a = b) then 1%Z else 0%Z.

(** ** geminiService.ts: analyzePaperUrl and analyzePaperPdf *)

(** What the functions read of the answer of [generateContent]: its text
    and the finish reason of its candidates.  A reason that is missing
    prints as "undefined" in a template string. *)
Record Candidate : Type := mkCandidate {
  finishReason : option jsstring
}.

Record GenerateContentResponse : Type := mkResponse {
  response_text : option jsstring;
  candidates : option (list Candidate)
}.

Definition reason_text (c : Candidate) : jsstring :=
  default (str "undefined") (finishReason c).

Definition msg_no_api_key : jsstring :=
  str "API Key not found in environment variables".
Definition msg_recitation : jsstring :=
  str "The AI service blocked the response due to copyright (RECITATION). The paper's text might be protected. Please try adding the paper via PDF upload instead.".
Definition msg_blocked_url (reason : jsstring) : jsstring :=
  str "The AI service blocked the response (Reason: " ++ reason
  ++ str "). The paper might be behind a strict paywall or triggered sensitive content filters.".
Definition msg_empty_url : jsstring :=
  str "The AI service returned an empty response. Please check if the URL is accessible and points to a valid paper.".
Definition msg_url_default : jsstring :=
  str "Failed to analyze paper. Please check the URL or try again.".
Definition msg_blocked_pdf (reason : jsstring) : jsstring :=
  str "The AI service blocked the response (Reason: " ++ reason ++ str ").".
Definition msg_empty_pdf : jsstring :=
  str "The AI service returned an empty response for the PDF.".
Definition msg_pdf_default : jsstring := str "Failed to analyze PDF.".
Definition msg_pdf_too_large : jsstring :=
  str "PDF file is too large. Please try a smaller file (under 10MB).".
Definition msg_pdf_parsing : jsstring :=
  str "AI response parsing failed. Please try again.".

(** The [try] block of [analyzePaperUrl] once [generateContent] has
    answered.  Console output of the two functions is left out. *)
Definition analyzePaperUrl_try (response : GenerateContentResponse)
  : result json :=
  if negb (is_set (response_text response)) then
    match candidates response with
    | Some (c :: _) =>
        if negb (bool_decide (finishReason c = Some (str "STOP"))) then
          if bool_decide (finishReason c = Some (str "RECITATION"))
          then Throw msg_recitation
          else Throw (msg_blocked_url (reason_text c))
        else Throw msg_empty_url
    | _ => Throw msg_empty_url
    end
  else (parseResponse (response_text response)).1.

(** [call] is how the awaited [generateContent] ended: with a response or
    with a thrown error, whose message may be missing ([[]]). *)
Definition analyzePaperUrl (apiKey : option jsstring)
    (call : result GenerateContentResponse) : result json :=
  if negb (is_set apiKey) then Throw msg_no_api_key
  else
    match
      match call with
      | Throw message => Throw message
      | Return response => analyzePaperUrl_try response
      end
    with
    | Return metadata => Return metadata
    | Throw message =>
        Throw (if nonempty message then message else msg_url_default)
    end.

(** The record [analyzePaperPdf] returns: the parsed metadata, and under
    [url] what the metadata has as [foundUrl]. *)
Record PdfAnalysis : Type := mkPdfAnalysis {
  pdf_metadata : json;
  pdf_url : option json
}.

Definition analyzePaperPdf_try (response : GenerateContentResponse)
  : result PdfAnalysis :=
  if negb (is_set (response_text response)) then
    match candidates response with
    | Some (c :: _) =>
        if negb (bool_decide (finishReason c = Some (str "STOP")))
        then Throw (msg_blocked_pdf (reason_text c))
        else Throw msg_empty_pdf
    | _ => Throw msg_empty_pdf
    end
  else
    match (parseResponse (response_text response)).1 with
    | Return data =>
        Return {| pdf_metadata := data;
                  pdf_url := prop data (str "foundUrl") |}
    | Throw message => Throw message
    end.

(** The message the [catch] of [analyzePaperPdf] throws for a caught
    message. *)
Definition pdf_error_message (message : jsstring) : jsstring :=
  if includes message (str "413") || includes message (str "too large")
  then msg_pdf_too_large
  else if includes message (str "JSON") then msg_pdf_parsing
  else if nonempty message then message
  else msg_pdf_default.

Definition analyzePaperPdf (apiKey : option jsstring)
    (call : result GenerateContentResponse) : result PdfAnalysis :=
  if negb (is_set apiKey) then Throw msg_no_api_key
  else
    match
      match call with
      | Throw message => Throw message
      | Return response => analyzePaperPdf_try response
      end
    with
    | Return analysis => Return analysis
    | Throw message => Throw (pdf_error_message message)
    end.

Definition sample_response_titled : GenerateContentResponse :=
  {| response_text := Some sample_title_only; candidates := None |}.

Definition sample_response_untitled : GenerateContentResponse :=
  {| response_text := Some sample_without_title; candidates := None |}.

(** ** AddPaperModal.tsx: what [handleSubmit] asks the service *)

(** What is left of [s] after the literal [p] at its start. *)
Fixpoint strip_prefix (p s : jsstring) : option jsstring :=
  match p, s with
  | [], _ => Some s
  | a :: p', b :: s' => if a =? b then strip_prefix p' s' else None
  | _ :: _, [] => None
  end.

(** The second attempt is made when the first one fails, as the
    backtracking matcher does. *)
Definition or_else {A : Type} (first second : option A) : option A :=
  match first with
  | Some x => Some x
  | None => second
  end.

(** [(dx\.)?doi\.org\/] at the start of [s]: what follows the match. *)
Definition after_doi_host (s : jsstring) : option jsstring :=
  or_else (strip_prefix (str "dx.") s ≫= strip_prefix (str "doi.org/"))
          (strip_prefix (str "doi.org/") s).

(** [/^(https?:\/\/)?(dx\.)?doi\.org\//] on [s]: what follows the match. *)
Definition match_doi_locator (s : jsstring) : option jsstring :=
  or_else (strip_prefix (str "https://") s ≫= after_doi_host)
    (or_else (strip_prefix (str "http://") s ≫= after_doi_host)
       (after_doi_host s)).

(** [inputValue.trim().replace(/^(https?:\/\/)?(dx\.)?doi\.org\//, '')
    .replace(/^doi:/, '')] *)
Definition cleanDoi (inputValue : jsstring) : jsstring :=
  let trimmed := trim inputValue in
  let bare := default trimmed (match_doi_locator trimmed) in
  default bare (strip_prefix (str "doi:") bare).

Definition msg_enter_url : jsstring := str "Please enter a URL".
Definition msg_enter_doi : jsstring := str "Please enter a DOI".

(** The two modes that read the text field.  The pdf mode reads a file
    and is left out. *)
Inductive AddMode : Type := mode_url | mode_doi.

Definition msg_enter (mode : AddMode) : jsstring :=
  match mode with
  | mode_url => msg_enter_url
  | mode_doi => msg_enter_doi
  end.

(** [paperUrl], or the error thrown before the service is asked. *)
Definition locator (mode : AddMode) (inputValue : jsstring)
  : result jsstring :=
  match mode with
  | mode_url =>
      if negb (nonempty (trim inputValue)) then Throw msg_enter_url
      else Return (trim inputValue)
  | mode_doi =>
      if negb (nonempty (trim inputValue)) then Throw msg_enter_doi
      else Return (str "https://doi.org/" ++ cleanDoi inputValue)
  end.

(** The first part of the [try] block of [handleSubmit] in these modes;
    [analyze] is the awaited [analyzePaperUrl]. *)
Definition acquire (mode : AddMode) (inputValue : jsstring)
    (analyze : jsstring -> result PaperMetadata)
  : result (jsstring * option PaperMetadata) :=
  match locator mode inputValue with
  | Throw message => Throw message
  | Return paperUrl =>
      match analyze paperUrl with
      | Return paperMetadata => Return (paperUrl, Some paperMetadata)
      | Throw message => Throw message
      end
  end.

(** The forms in which a DOI is commonly pasted. *)
Definition doi_forms : list jsstring :=
  [ []; str "doi:"; str "doi.org/"; str "dx.doi.org/";
    str "http://doi.org/"; str "https://doi.org/";
    str "http://dx.doi.org/"; str "https://dx.doi.org/" ].

(** Only white space. *)
Definition blank_input (s : jsstring) : Prop :=
  Forall (fun c => isWhiteSpace c = true) s.

(** No white space at either end. *)
Definition tight (s : jsstring) : Prop :=
  trimStart s = s /\ trimEnd s = s.

(** ** PaperCard.tsx: the metadata editor *)

Record Editor : Type := mkEditor {
  isEditing : bool;
  editedTopic : jsstring;
  editedSubTopic : jsstring;
  editedTags : list jsstring;
  newTagInput : jsstring
}.

(** [paper.subTopic || ''] and [editedSubTopic || undefined] *)
Definition or_empty (o : option jsstring) : jsstring := default [] o.

Definition or_undefined (s : jsstring) : option jsstring :=
  if nonempty s then Some s else None.

(** The state a card is mounted with. *)
Definition initial_editor (paper : Paper) : Editor :=
  {| isEditing := false;
     editedTopic := topic paper;
     editedSubTopic := or_empty (subTopic paper);
     editedTags := tags paper;
     newTagInput := [] |}.

Definition startEditing (paper : Paper) (st : Editor) : Editor :=
  {| editedTopic := topic paper;
     editedSubTopic := or_empty (subTopic paper);
     editedTags := tags paper;
     isEditing := true;
     newTagInput := newTagInput st |}.

(** [saveChanges]: [onUpdateMetadata] is [handleUpdateMetadata]. *)
Definition saveChanges (paper : Paper) (st : Editor) (papers : list Paper)
  : Editor * list Paper :=
  ({| isEditing := false;
      editedTopic := editedTopic st;
      editedSubTopic := editedSubTopic st;
      editedTags := editedTags st;
      newTagInput := newTagInput st |},
   handleUpdateMetadata (id paper) (editedTopic st)
     (or_undefined (editedSubTopic st)) (editedTags st) papers).

Definition cancelEditing (st : Editor) : Editor :=
  {| isEditing := false;
     newTagInput := [];
     editedTopic := editedTopic st;
     editedSubTopic := editedSubTopic st;
     editedTags := editedTags st |}.

Definition addTag (st : Editor) : Editor :=
  let trimmed := trim (newTagInput st) in
  if nonempty trimmed && negb (bool_decide (trimmed ∈ editedTags st))
  then {| editedTags := editedTags st ++ [trimmed];
          newTagInput := [];
          isEditing := isEditing st;
          editedTopic := editedTopic st;
          editedSubTopic := editedSubTopic st |}
  else st.

Definition removeTag (tagToRemove : jsstring) (st : Editor) : Editor :=
  {| editedTags := filter (fun t => t <> tagToRemove) (editedTags st);
     isEditing := isEditing st;
     editedTopic := editedTopic st;
     editedSubTopic := editedSubTopic st;
     newTagInput := newTagInput st |}.

Definition promoteTagToSubTopic (tag : jsstring) (st : Editor) : Editor :=
  {| editedSubTopic := tag;
     isEditing := isEditing st;
     editedTopic := editedTopic st;
     editedTags := editedTags st;
     newTagInput := newTagInput st |}.

Definition setEditedTopic (v : jsstring) (st : Editor) : Editor :=
  {| editedTopic := v;
     isEditing := isEditing st;
     editedSubTopic := editedSubTopic st;
     editedTags := editedTags st;
     newTagInput := newTagInput st |}.

Definition setEditedSubTopic (v : jsstring) (st : Editor) : Editor :=
  {| editedSubTopic := v;
     isEditing := isEditing st;
     editedTopic := editedTopic st;
     editedTags := editedTags st;
     newTagInput := newTagInput st |}.

Definition setNewTagInput (v : jsstring) (st : Editor) : Editor :=
  {| newTagInput := v;
     isEditing := isEditing st;
     editedTopic := editedTopic st;
     editedSubTopic := editedSubTopic st;
     editedTags := editedTags st |}.

(** The controls of the edit form. *)
Inductive edit_action : Type :=
  | type_topic (v : jsstring)
  | type_subTopic (v : jsstring)
  | type_new_tag (v : jsstring)
  | submit_new_tag
  | click_remove_tag (tag : jsstring)
  | click_promote_tag (tag : jsstring).

Definition edit (st : Editor) (a : edit_action) : Editor :=
  match a with
  | type_topic v => setEditedTopic v st
  | type_subTopic v => setEditedSubTopic v st
  | type_new_tag v => setNewTagInput v st
  | submit_new_tag => addTag st
  | click_remove_tag tag => removeTag tag st
  | click_promote_tag tag => promoteTagToSubTopic tag st
  end.

Definition edits (st : Editor) (actions : list edit_action) : Editor :=
  foldl edit st actions.

(** Tags as [addTag] makes them: no tag twice, none empty, none with white
    space around it. *)
Definition clean_tags (ts : list jsstring) : Prop :=
  NoDup ts /\ Forall (fun t => t <> [] /\ trim t = t) ts.

(** ** PaperCard.tsx: getCardDesign *)

(** ToInt32 of a number that is an integer. *)
Definition ToInt32 (x : Z) : Z := ((x + 2 ^ 31) mod 2 ^ 32 - 2 ^ 31)%Z.

(** [x << n] for [0 <= n < 32] *)
Definition shift_left (x : Z) (n : Z) : Z :=
  ToInt32 (Z.shiftl (ToInt32 x) n).

(** The loop of [getCardDesign].  The sums are taken in [Z]; they are the
    numbers the code computes as long as these stay below [2 ^ 53]. *)
Definition card_hash (i : jsstring) : Z :=
  foldl (fun hash c => (Z.of_N c + (shift_left hash 5 - hash))%Z) 0%Z i.

Record Design : Type := mkDesign {
  container : jsstring;
  backgroundImage : jsstring;
  backgroundSize : option jsstring;
  bar : jsstring
}.

Definition designs : list Design :=
  [ {| container := str "bg-white border-blue-100 hover:border-blue-300";
       backgroundImage :=
         str "radial-gradient(circle at top right, #f0f9ff 0%, transparent 45%)";
       backgroundSize := None;
       bar := str "bg-blue-500" |};
    {| container := str "bg-white border-emerald-100 hover:border-emerald-300";
       backgroundImage := str "linear-gradient(135deg, #ecfdf5 0%, #ffffff 60%)";
       backgroundSize := None;
       bar := str "bg-emerald-500" |};
    {| container := str "bg-white border-amber-100 hover:border-amber-300";
       backgroundImage :=
         str "radial-gradient(circle at top left, #fffbeb 0%, transparent 50%)";
       backgroundSize := None;
       bar := str "bg-amber-500" |};
    {| container := str "bg-white border-violet-100 hover:border-violet-300";
       backgroundImage :=
         str "linear-gradient(to bottom right, #f5f3ff 0%, #ffffff 50%, #f5f3ff 100%)";
       backgroundSize := None;
       bar := str "bg-violet-500" |};
    {| container := str "bg-white border-rose-100 hover:border-rose-300";
       backgroundImage := str "linear-gradient(to right, #fff1f2 0%, #ffffff 100%)";
       backgroundSize := None;
       bar := str "bg-rose-500" |};
    {| container := str "bg-white border-slate-200 hover:border-slate-400";
       backgroundImage :=
         str "radial-gradient(#e2e8f0 1.5px, transparent 1.5px)";
       backgroundSize := Some (str "24px 24px");
       bar := str "bg-slate-500" |};
    {| container := str "bg-white border-cyan-100 hover:border-cyan-300";
       backgroundImage := str "linear-gradient(to bottom, #ecfeff 0%, #ffffff 150px)";
       backgroundSize := None;
       bar := str "bg-cyan-500" |};
    {| container := str "bg-white border-fuchsia-100 hover:border-fuchsia-300";
       backgroundImage := str "linear-gradient(225deg, #fdf4ff 0%, #ffffff 50%)";
       backgroundSize := None;
       bar := str "bg-fuchsia-500" |};
    {| container := str "bg-white border-slate-200 hover:border-indigo-200";
       backgroundImage :=
         str "linear-gradient(0deg, transparent 23px, #f1f5f9 24px), linear-gradient(90deg, transparent 23px, #f1f5f9 24px)";
       backgroundSize := Some (str "24px 24px");
       bar := str "bg-indigo-500" |} ].

(** [designs[Math.abs(hash) % designs.length]]; [None] is undefined. *)
Definition getCardDesign (i : jsstring) : option Design :=
  designs !! Z.to_nat (Z.abs (card_hash i) mod Z.of_nat (length designs)).

(** Code units as [charCodeAt] returns them. *)
Definition code_units (s : jsstring) : Prop :=
  Forall (fun c => c < 65536) s.

(** ** CitationModal.tsx: generateCitation *)

(** [s.split(sep)] for a separator of one code unit. *)
Fixpoint split (sep : N) (s : jsstring) : list jsstring :=
  match s with
  | [] => [[]]
  | c :: r =>
      if c =? sep then [] :: split sep r
      else
        match split sep r with
        | piece :: pieces => (c :: piece) :: pieces
        | [] => [[c]]
        end
  end.

(** [a.join(sep)] *)
Fixpoint join (sep : jsstring) (a : list jsstring) : jsstring :=
  match a with
  | [] => []
  | [x] => x
  | x :: r => x ++ sep ++ join sep r
  end.

(** [[a-z0-9]] *)
Definition is_slug_unit (c : N) : bool :=
  ((97 <=? c) && (c <=? 122)) || is_digit c.

(** [paper.authors[0]?.split(' ').pop()?.toLowerCase() || 'unknown'] *)
Definition firstAuthorLast (paper : Paper) : jsstring :=
  match authors paper with
  | [] => str "unknown"
  | first :: _ =>
      match last (split 32 first) with
      | Some piece =>
          if nonempty (toLowerCase piece) then toLowerCase piece
          else str "unknown"
      | None => str "unknown"
      end
  end.

(** [paper.title.split(' ')[0].toLowerCase().replace(/[^a-z0-9]/g, '')] *)
Definition titleSlug (paper : Paper) : jsstring :=
  filter (fun c => is_slug_unit c = true)
    (toLowerCase (default [] (head (split 32 (title paper))))).

Inductive CitationFormat : Type := APA | MLA | BibTeX.

(** The key of the BibTeX entry; [year] is the text of
    [new Date().getFullYear()]. *)
Definition citation_key (paper : Paper) (year : jsstring) : jsstring :=
  firstAuthorLast paper ++ year ++ titleSlug paper.

(** [today] is the text of the formatted date. *)
Definition generateCitation (paper : Paper) (today year : jsstring)
    (format : CitationFormat) : jsstring :=
  let authorText :=
    if (0 <? length (authors paper))%nat then join (str ", ") (authors paper)
    else str "Unknown Author" in
  match format with
  | APA =>
      authorText ++ str ". (n.d.). " ++ title paper
      ++ str ". Retrieved from " ++ url paper
  | MLA =>
      authorText ++ str ". " ++ [34] ++ title paper ++ str "." ++ [34]
      ++ str " Web. Accessed " ++ today ++ str ". <" ++ url paper ++ str ">."
  | BibTeX =>
      str "@misc{" ++ citation_key paper year ++ str "," ++ [10]
      ++ str "  title = {" ++ title paper ++ str "}," ++ [10]
      ++ str "  author = {" ++ join (str " and ") (authors paper)
      ++ str "}," ++ [10]
      ++ str "  howpublished = {\url{" ++ url paper ++ str "}}," ++ [10]
      ++ str "  note = {Accessed: " ++ today ++ str "}" ++ [10]
      ++ str "}"
  end.

Definition sample_editor : Editor :=
  {| isEditing := true; editedTopic := str "Biology";
     editedSubTopic := []; editedTags := [str "yeast"];
     newTagInput := str "  CRISPR " |}.

(** * Properties *)

(** ** Strings *)

Lemma startsWith_spec (p s : jsstring) :
  startsWith p s = true <-> exists r, s = p ++ r.
Proof.
  revert s. induction p as [|a p IH]; intros s; simpl.
  - split; [eauto | done].
  - destruct s as [|b s].
    + split; [done | intros [r Hr]; discriminate].
    + rewrite andb_true_iff, N.eqb_eq, IH. split.
      * intros [-> [r ->]]. eauto.
      * intros [r Hr]. injection Hr as -> ->. eauto.
Qed.

Lemma includes_spec (s t : jsstring) :
  includes s t = true <-> exists pre post, s = pre ++ t ++ post.
Proof.
  induction s as [|c s IH]; simpl.
  - rewrite orb_false_r, startsWith_spec. split.
    + intros [r Hr]. exists [], r. done.
    + intros (pre & post & H). symmetry in H.
      apply app_eq_nil in H as [-> H]. exists post. done.
  - rewrite orb_true_iff, startsWith_spec, IH. split.
    + intros [[r Hr] | (pre & post & ->)].
      * exists [], r. done.
      * exists (c :: pre), post. done.
    + intros (pre & post & H). destruct pre as [|c' pre]; simpl in H.
      * left. eauto.
      * right. injection H as <- ->. eauto.
Qed.

Lemma nonempty_true (s : jsstring) : nonempty s = true <-> s <> [].
Proof. destruct s; simpl; split; congruence. Qed.

Lemma nonempty_false (s : jsstring) : nonempty s = false <-> s = [].
Proof. destruct s; simpl; split; congruence. Qed.

Lemma is_set_true (o : option jsstring) :
  is_set o = true <-> exists s, o = Some s /\ s <> [].
Proof.
  destruct o as [s|]; simpl.
  - rewrite nonempty_true. split; [eauto | intros (? & [= <-] & ?); done].
  - split; [done | intros (? & ? & ?); done].
Qed.

Ltac elem_tac :=
  repeat match goal with
    | H : _ ∉ _ ++ _ |- _ => apply not_elem_of_app in H as [? ?]
    | H : _ ∉ _ :: _ |- _ => apply not_elem_of_cons in H as [? ?]
    end;
  repeat (rewrite elem_of_app || rewrite elem_of_cons);
  intuition congruence.

(** Positions found by [indexOf] and [lastIndexOf]. *)
Lemma indexOf_from_absent (c : N) (s : jsstring) (i : Z) :
  c ∉ s -> indexOf_from c s i = (-1)%Z.
Proof.
  revert i. induction s as [|x s IH]; intros i Hc; simpl; [done|].
  apply not_elem_of_cons in Hc as [Hx Hs].
  destruct (N.eqb_spec x c); [congruence | auto].
Qed.

Lemma indexOf_from_first (c : N) (pre post : jsstring) (i : Z) :
  c ∉ pre ->
  indexOf_from c (pre ++ c :: post) i = (i + Z.of_nat (length pre))%Z.
Proof.
  revert i. induction pre as [|x pre IH]; intros i Hc; simpl.
  - rewrite N.eqb_refl. lia.
  - apply not_elem_of_cons in Hc as [Hx Hs].
    destruct (N.eqb_spec x c); [congruence|]. rewrite IH by done. lia.
Qed.

Lemma indexOf_from_cases (c : N) (s : jsstring) (i : Z) :
  ((c ∉ s) /\ indexOf_from c s i = (-1)%Z) \/
  (exists pre post, s = pre ++ c :: post /\ (c ∉ pre) /\
     indexOf_from c s i = (i + Z.of_nat (length pre))%Z).
Proof.
  destruct (decide (c ∈ s)) as [Hin | Hnot].
  - right. apply list_elem_of_split_l in Hin as (pre & post & -> & Hpre).
    exists pre, post. split_and!; [done | done |].
    by apply indexOf_from_first.
  - left. split; [done | by apply indexOf_from_absent].
Qed.

Lemma lastIndexOf_from_absent (c : N) (s : jsstring) (i : Z) :
  c ∉ s -> lastIndexOf_from c s i = (-1)%Z.
Proof.
  revert i. induction s as [|x s IH]; intros i Hc; simpl; [done|].
  apply not_elem_of_cons in Hc as [Hx Hs]. rewrite IH by done. simpl.
  destruct (N.eqb_spec x c); congruence.
Qed.

Lemma lastIndexOf_from_last (c : N) (pre post : jsstring) (i : Z) :
  (0 <= i)%Z -> c ∉ post ->
  lastIndexOf_from c (pre ++ c :: post) i = (i + Z.of_nat (length pre))%Z.
Proof.
  revert i. induction pre as [|x pre IH]; intros i Hi Hc; simpl.
  - rewrite lastIndexOf_from_absent by done. simpl.
    rewrite N.eqb_refl. lia.
  - rewrite IH by (done || lia).
    destruct (Z.eqb_spec (i + 1 + Z.of_nat (length pre)) (-1)); lia.
Qed.

Lemma lastIndexOf_from_cases (c : N) (s : jsstring) (i : Z) :
  (0 <= i)%Z ->
  ((c ∉ s) /\ lastIndexOf_from c s i = (-1)%Z) \/
  (exists pre post, s = pre ++ c :: post /\ (c ∉ post) /\
     lastIndexOf_from c s i = (i + Z.of_nat (length pre))%Z).
Proof.
  intros Hi. destruct (decide (c ∈ s)) as [Hin | Hnot].
  - right. apply list_elem_of_split_r in Hin as (pre & post & -> & Hpost).
    exists pre, post. split_and!; [done | done |].
    by apply lastIndexOf_from_last.
  - left. split; [done | by apply lastIndexOf_from_absent].
Qed.

Lemma substring_inner (pre mid post : jsstring) :
  substring (pre ++ mid ++ post) (Z.of_nat (length pre))
    (Z.of_nat (length pre + length mid)) = mid.
Proof.
  unfold substring. rewrite !length_app.
  replace (Z.max 0 (Z.min (Z.of_nat (length pre))
             (Z.of_nat (length pre + (length mid + length post)))))
    with (Z.of_nat (length pre)) by lia.
  replace (Z.max 0 (Z.min (Z.of_nat (length pre + length mid))
             (Z.of_nat (length pre + (length mid + length post)))))
    with (Z.of_nat (length pre + length mid)) by lia.
  replace (Z.min (Z.of_nat (length pre)) (Z.of_nat (length pre + length mid)))
    with (Z.of_nat (length pre)) by lia.
  replace (Z.max (Z.of_nat (length pre)) (Z.of_nat (length pre + length mid)))
    with (Z.of_nat (length pre + length mid)) by lia.
  replace (Z.to_nat (Z.of_nat (length pre + length mid)
                     - Z.of_nat (length pre))) with (length mid) by lia.
  rewrite Nat2Z.id, drop_app_length, take_app_length. done.
Qed.

(** ** Fuel of the JSON parser *)

Lemma skip_ws_length (s : jsstring) :
  (length (skip_ws s) <= length s)%nat.
Proof.
  induction s as [|c s IH]; simpl; [done|].
  destruct (is_json_ws c); simpl; lia.
Qed.

Lemma skip_ws_cons_length (s r : jsstring) (c : N) :
  skip_ws s = c :: r -> (length r < length s)%nat.
Proof.
  intros H. pose proof (skip_ws_length s) as Hl. rewrite H in Hl.
  simpl in Hl. lia.
Qed.

Lemma lex_chars_length (s x r : jsstring) :
  lex_chars s = Some (x, r) -> (length r <= length s)%nat.
Proof.
  remember (length s) as n eqn:Hn. revert s x r Hn.
  induction n as [n IH] using lt_wf_ind. intros s x r Hn.
  destruct s as [|c s]; simpl; [done|].
  destruct (c =? 34).
  { intros [= <- <-]. simpl in Hn. lia. }
  destruct (c =? 92).
  - destruct s as [|e s]; [done|].
    destruct (e =? 117).
    + destruct s as [|a [|b [|c' [|d s]]]]; try done.
      destruct (hex4 a b c' d); [|done].
      destruct (lex_chars s) as [[x' r']|] eqn:E; [|done].
      simpl. intros [= <- <-].
      apply (IH (length s)) in E; simpl in *; lia.
    + destruct (simple_escape e); [|done].
      destruct (lex_chars s) as [[x' r']|] eqn:E; [|done].
      simpl. intros [= <- <-].
      apply (IH (length s)) in E; simpl in *; lia.
  - destruct (c <? 32); [done|].
    destruct (lex_chars s) as [[x' r']|] eqn:E; [|done].
    simpl. intros [= <- <-].
    apply (IH (length s)) in E; simpl in *; lia.
Qed.

Lemma lex_digits_length (s : jsstring) :
  (length (lex_digits s).2 <= length s)%nat.
Proof.
  induction s as [|c s IH]; simpl; [done|].
  destruct (is_digit c); simpl; lia.
Qed.

Lemma lex_number_length (s r : jsstring) (n : jsnumber) :
  lex_number s = Some (n, r) -> (length r <= length s)%nat.
Proof.
  unfold lex_number.
  set (p := match s with
            | c :: r0 => if c =? 45 then (true, r0) else (false, s)
            | [] => (false, s)
            end).
  assert ((length p.2 <= length s)%nat) as H1.
  { subst p. destruct s as [|c s]; simpl; [done|].
    destruct (c =? 45); simpl; lia. }
  destruct p as [neg s1]. simpl in H1.
  destruct (lex_int s1) as [[ip s2]|] eqn:E2; [|done].
  assert ((length s2 <= length s1)%nat) as H2.
  { unfold lex_int in E2. destruct s1 as [|c s1]; [done|].
    destruct (c =? 48).
    - injection E2 as <- <-. simpl. lia.
    - pose proof (lex_digits_length (c :: s1)) as Hd.
      destruct (is_digit c); [|done].
      destruct (lex_digits (c :: s1)) as [a b].
      injection E2 as <- <-. exact Hd. }
  destruct (lex_frac s2) as [[fp s3]|] eqn:E3; [|done].
  assert ((length s3 <= length s2)%nat) as H3.
  { unfold lex_frac in E3. destruct s2 as [|c s2].
    - by injection E3 as <- <-.
    - destruct (c =? 46).
      + pose proof (lex_digits_length s2) as Hd.
        destruct (lex_digits s2) as [[|d ds] r']; [done|].
        injection E3 as <- <-. simpl in *. lia.
      + by injection E3 as <- <-. }
  destruct (lex_exp s3) as [[e s4]|] eqn:E4; [|done].
  assert ((length s4 <= length s3)%nat) as H4.
  { unfold lex_exp in E4. destruct s3 as [|c s3].
    - by injection E4 as <- <-.
    - destruct ((c =? 101) || (c =? 69)).
      + set (q := match s3 with
                  | x :: r' =>
                      if x =? 45 then ((-1)%Z, r')
                      else if x =? 43 then (1%Z, r') else (1%Z, s3)
                  | [] => (1%Z, s3)
                  end) in E4.
        assert ((length q.2 <= length s3)%nat) as Hq.
        { subst q. destruct s3 as [|x s3]; simpl; [done|].
          destruct (x =? 45); simpl; [lia|].
          destruct (x =? 43); simpl; lia. }
        destruct q as [sign r1]. simpl in Hq.
        pose proof (lex_digits_length r1) as Hd.
        destruct (lex_digits r1) as [[|d ds] r2]; [done|].
        injection E4 as <- <-. simpl in *. lia.
      + by injection E4 as <- <-. }
  intros [= <- <-]. lia.
Qed.

Lemma lex_keyword_length (kw s r : jsstring) (v w : json) :
  lex_keyword kw v s = Some (w, r) -> (length r <= length s)%nat.
Proof.
  unfold lex_keyword. destruct (startsWith kw s); [|done].
  intros [= <- <-]. rewrite length_drop. lia.
Qed.

Ltac length_facts :=
  repeat match goal with
    | H : skip_ws _ = _ :: _ |- _ => apply skip_ws_cons_length in H
    | H : lex_chars _ = Some _ |- _ => apply lex_chars_length in H
    | H : lex_number _ = Some _ |- _ => apply lex_number_length in H
    | H : lex_keyword _ _ _ = Some _ |- _ => apply lex_keyword_length in H
    end.

Lemma parse_length (f : nat) :
  (forall s v r, parse_value f s = Some (v, r) -> (length r <= length s)%nat)
  /\ (forall s v r, parse_elements f s = Some (v, r) -> (length r <= length s)%nat)
  /\ (forall s v r, parse_members f s = Some (v, r) -> (length r <= length s)%nat).
Proof.
  induction f as [|f (IHv & IHe & IHm)]; [done|].
  split_and!.
  - intros s v r. simpl. intros H.
    repeat case_match; simplify_eq;
      repeat match goal with
        | H : parse_members f _ = Some _ |- _ => apply IHm in H
        | H : parse_elements f _ = Some _ |- _ => apply IHe in H
        end; length_facts; simpl in *; lia.
  - intros s v r. simpl. intros H.
    destruct (parse_value f s) as [[v1 r1]|] eqn:E1; [|done].
    apply IHv in E1.
    destruct (skip_ws r1) as [|c r2] eqn:E2; [done|].
    destruct (c =? 44).
    + destruct (parse_elements f r2) as [[vs r3]|] eqn:E3; [|done].
      apply IHe in E3. cbv [fmap option_fmap option_map cons_fst] in H. simpl in H. simplify_eq. length_facts. lia.
    + destruct (c =? 93); [|done]. simplify_eq. length_facts. lia.
  - intros s v r. simpl. intros H.
    destruct (skip_ws s) as [|c s1] eqn:E0; [done|].
    destruct (c =? 34); [|done].
    destruct (lex_chars s1) as [[k s2]|] eqn:E1; [|done].
    destruct (skip_ws s2) as [|c1 s3] eqn:E2; [done|].
    destruct (c1 =? 58); [|done].
    destruct (parse_value f s3) as [[v1 s4]|] eqn:E3; [|done].
    apply IHv in E3.
    destruct (skip_ws s4) as [|c2 s5] eqn:E4; [done|].
    destruct (c2 =? 44).
    + destruct (parse_members f s5) as [[ms s6]|] eqn:E5; [|done].
      apply IHm in E5. cbv [fmap option_fmap option_map cons_fst] in H. simpl in H. simplify_eq. length_facts. lia.
    + destruct (c2 =? 125); [|done]. simplify_eq. length_facts. lia.
Qed.

Lemma parse_stable (f : nat) :
  (forall s f', (2 * length s + 1 <= f)%nat -> (f <= f')%nat ->
     parse_value f' s = parse_value f s)
  /\ (forall s f', (2 * length s + 2 <= f)%nat -> (f <= f')%nat ->
        parse_elements f' s = parse_elements f s)
  /\ (forall s f', (2 * length s + 2 <= f)%nat -> (f <= f')%nat ->
        parse_members f' s = parse_members f s).
Proof.
  induction f as [|f (IHv & IHe & IHm)]; [split_and!; intros; lia|].
  split_and!; intros s [|f0] Hb Hle; try lia; simpl.
  - destruct (skip_ws s) as [|c s1] eqn:E0; [done|]. length_facts.
    rewrite (IHm s1 f0), (IHe s1 f0) by lia. done.
  - rewrite (IHv s f0) by lia.
    destruct (parse_value f s) as [[v1 r1]|] eqn:E1; [|done].
    apply parse_length in E1.
    destruct (skip_ws r1) as [|c r2] eqn:E2; [done|]. length_facts.
    rewrite (IHe r2 f0) by lia. done.
  - destruct (skip_ws s) as [|c s1] eqn:E0; [done|].
    destruct (c =? 34); [|done].
    destruct (lex_chars s1) as [[k s2]|] eqn:E1; [|done].
    destruct (skip_ws s2) as [|c1 s3] eqn:E2; [done|].
    destruct (c1 =? 58); [|done]. length_facts.
    rewrite (IHv s3 f0) by lia.
    destruct (parse_value f s3) as [[v1 s4]|] eqn:E3; [|done].
    apply parse_length in E3.
    destruct (skip_ws s4) as [|c2 s5] eqn:E4; [done|]. length_facts.
    rewrite (IHm s5 f0) by lia. done.
Qed.

(** More fuel than [JSON_parse] supplies changes nothing: no input is cut
    short by the fuel. *)
Lemma JSON_parse_fuel (s : jsstring) (f : nat) :
  (2 * length s + 2 <= f)%nat ->
  parse_value f s = parse_value (2 * length s + 2) s.
Proof. intros H. apply parse_stable; lia. Qed.

(** ** White space at the ends of a string *)

Lemma trimStart_blank (w s : jsstring) :
  blank w -> trimStart (w ++ s) = trimStart s.
Proof.
  induction 1 as [|c w Hc _ IH]; [done|]. simpl. by rewrite Hc.
Qed.

Lemma trimStart_nil_iff (s : jsstring) : trimStart s = [] <-> blank s.
Proof.
  unfold blank. induction s as [|c s IH]; simpl.
  - split; [constructor | done].
  - destruct (isWhiteSpace c) eqn:E.
    + rewrite IH. split; [by constructor | by inversion 1].
    + split; [done | inversion 1; congruence].
Qed.

Lemma trimStart_app (s r : jsstring) :
  trimStart s <> [] -> trimStart (s ++ r) = trimStart s ++ r.
Proof.
  induction s as [|c s IH]; simpl; [done|].
  destruct (isWhiteSpace c); [done | done].
Qed.

Lemma trimStart_split (s : jsstring) :
  exists w, blank w /\ s = w ++ trimStart s.
Proof.
  induction s as [|c s (w & Hw & IH)]; simpl.
  - exists []. split; [constructor | done].
  - destruct (isWhiteSpace c) eqn:E.
    + exists (c :: w). split; [by constructor|]. simpl. by f_equal.
    + exists []. split; [constructor | done].
Qed.

Lemma trimStart_fixed (s : jsstring) :
  trimStart s = s
  <-> match s with [] => True | c :: _ => isWhiteSpace c = false end.
Proof.
  destruct s as [|c s]; simpl; [done|].
  destruct (isWhiteSpace c) eqn:E; [|done].
  split; [|done]. intros H.
  destruct (trimStart_split s) as (w & _ & Hs).
  apply (f_equal length) in Hs. rewrite H, length_app in Hs.
  simpl in Hs. lia.
Qed.

Lemma trimStart_idem (s : jsstring) : trimStart (trimStart s) = trimStart s.
Proof.
  induction s as [|c s IH]; simpl; [done|].
  destruct (isWhiteSpace c) eqn:E; [done|]. simpl. by rewrite E.
Qed.

Lemma blank_reverse (w : jsstring) :
  blank w -> blank (reverse w).
Proof. unfold blank. rewrite !Forall_forall. intros H c Hc.
  apply H. by apply elem_of_reverse. Qed.

Lemma trimEnd_blank (s w : jsstring) :
  blank w -> trimEnd (s ++ w) = trimEnd s.
Proof.
  intros Hw. unfold trimEnd. rewrite reverse_app.
  by rewrite trimStart_blank by by apply blank_reverse.
Qed.

Lemma trimEnd_nil_iff (s : jsstring) : trimEnd s = [] <-> blank s.
Proof.
  unfold trimEnd. split.
  - intros H. apply (f_equal reverse) in H.
    rewrite reverse_involutive in H. change (reverse []) with (@nil N) in H.
    apply trimStart_nil_iff, blank_reverse in H.
    by rewrite reverse_involutive in H.
  - intros H%blank_reverse%trimStart_nil_iff. by rewrite H.
Qed.

Lemma trimEnd_app (s r : jsstring) :
  trimEnd r <> [] -> trimEnd (s ++ r) = s ++ trimEnd r.
Proof.
  unfold trimEnd. intros H. rewrite reverse_app, trimStart_app.
  - by rewrite reverse_app, reverse_involutive.
  - intros E. apply H. by rewrite E.
Qed.

Lemma trimEnd_split (s : jsstring) :
  exists w, blank w /\ s = trimEnd s ++ w.
Proof.
  destruct (trimStart_split (reverse s)) as (w & Hw & Hs).
  exists (reverse w). split; [by apply blank_reverse|].
  unfold trimEnd. rewrite <- reverse_app, <- Hs.
  by rewrite reverse_involutive.
Qed.

Lemma trimEnd_idem (s : jsstring) : trimEnd (trimEnd s) = trimEnd s.
Proof.
  unfold trimEnd. by rewrite reverse_involutive, trimStart_idem.
Qed.

Lemma trim_tight (s : jsstring) : tight (trim s).
Proof.
  unfold tight, trim. split; [|apply trimEnd_idem].
  apply trimStart_fixed.
  destruct (trimEnd (trimStart s)) as [|c u] eqn:E; [done|].
  destruct (trimEnd_split (trimStart s)) as (w & _ & Hs). rewrite E in Hs.
  pose proof (trimStart_idem s) as Hi. rewrite Hs in Hi.
  by apply trimStart_fixed in Hi.
Qed.

Lemma tight_trim (s : jsstring) : tight s <-> trim s = s.
Proof.
  split.
  - intros [H1 H2]. unfold trim. by rewrite H1.
  - intros <-. apply trim_tight.
Qed.

Lemma trim_idem (s : jsstring) : trim (trim s) = trim s.
Proof. apply tight_trim, trim_tight. Qed.

Lemma trim_pad (w1 s w2 : jsstring) :
  blank w1 -> blank w2 -> trim (w1 ++ s ++ w2) = trim s.
Proof.
  intros H1 H2. unfold trim. rewrite trimStart_blank by done.
  destruct (trimStart s) as [|c u] eqn:E.
  - assert (blank (s ++ w2)) as H.
    { apply Forall_app. split; [by apply trimStart_nil_iff | done]. }
    apply trimStart_nil_iff in H. by rewrite H.
  - rewrite trimStart_app by by rewrite E. rewrite E.
    by apply trimEnd_blank.
Qed.

Lemma trim_nil_iff (s : jsstring) : trim s = [] <-> blank s.
Proof.
  unfold trim. rewrite trimEnd_nil_iff. split.
  - intros H. destruct (trimStart_split s) as (w & Hw & Hs).
    rewrite Hs. by apply Forall_app.
  - intros H. apply trimStart_nil_iff in H. rewrite H. constructor.
Qed.

Lemma tight_app (a b : jsstring) :
  a <> [] -> trimStart a = a -> b <> [] -> trimEnd b = b -> tight (a ++ b).
Proof.
  intros Ha Hsa Hb Hsb. split.
  - rewrite trimStart_app by by rewrite Hsa. by rewrite Hsa.
  - rewrite trimEnd_app by by rewrite Hsb. by rewrite Hsb.
Qed.

(** ** ResponseExtractor *)

Lemma ws_then_sound {A : Type} (k : jsstring -> option A) (s : jsstring)
    (r : A) :
  ws_then k s = Some r ->
  exists w s', s = w ++ s' /\ blank w /\ k s' = Some r.
Proof.
  induction s as [|c s IH]; simpl.
  - intros H. exists [], []. by split_and!; [| constructor |].
  - destruct (isWhiteSpace c) eqn:Hc.
    + destruct (ws_then k s) as [r'|] eqn:Hs.
      * intros [= ->]. destruct IH as (w & s' & -> & Hw & Hk); [done|].
        exists (c :: w), s'. split_and!; [done | by constructor | done].
      * intros H. exists [], (c :: s). by split_and!; [| constructor |].
    + intros H. exists [], (c :: s). by split_and!; [| constructor |].
Qed.

Lemma ws_then_complete {A : Type} (k : jsstring -> option A)
    (w s : jsstring) :
  blank w -> is_Some (k s) -> is_Some (ws_then k (w ++ s)).
Proof.
  intros Hw Hk. induction Hw as [|c w Hc Hw IH]; simpl.
  - destruct s as [|c s]; simpl; [done|].
    destruct (isWhiteSpace c); [|done].
    destruct (ws_then k s); [eauto | done].
  - rewrite Hc. destruct IH as [r ->]. eauto.
Qed.

Lemma match_close_sound (s : jsstring) :
  match_close s = Some () ->
  exists w post, s = w ++ fence ++ post /\ blank w.
Proof.
  intros H. apply ws_then_sound in H as (w & s' & -> & Hw & Hk).
  destruct (startsWith fence s') eqn:Hs; [|done].
  apply startsWith_spec in Hs as [post ->]. eauto.
Qed.

Lemma match_close_fence (post : jsstring) :
  match_close (fence ++ post) = Some ().
Proof. reflexivity. Qed.

Lemma match_group_sound (s g : jsstring) :
  match_group s = Some g ->
  exists w post, s = g ++ w ++ fence ++ post /\ blank w.
Proof.
  revert g. induction s as [|c s IH]; intros g; simpl.
  - done.
  - destruct (match_close (c :: s)) as [[]|] eqn:Hc.
    + intros [= <-]. by apply match_close_sound in Hc.
    + destruct (match_group s) as [g'|]; [|done].
      intros [= <-]. destruct (IH g' eq_refl) as (w & post & -> & Hw).
      exists w, post. done.
Qed.

Lemma match_group_cons (c : N) (s : jsstring) :
  match_group (c :: s) =
  match match_close (c :: s) with
  | Some _ => Some []
  | None => cons c <$> match_group s
  end.
Proof. reflexivity. Qed.

Lemma match_group_complete (body post : jsstring) :
  is_Some (match_group (body ++ fence ++ post)).
Proof.
  induction body as [|c body IH].
  - change ([] ++ fence ++ post) with (96 :: (96 :: 96 :: post)).
    rewrite match_group_cons.
    change (96 :: (96 :: 96 :: post)) with (fence ++ post).
    rewrite match_close_fence. eauto.
  - change ((c :: body) ++ fence ++ post)
      with (c :: (body ++ fence ++ post)).
    rewrite match_group_cons.
    destruct (match_close (c :: (body ++ fence ++ post))) as [[]|];
      [eauto|]. destruct IH as [g ->]. eauto.
Qed.

Lemma match_at_sound (s g : jsstring) :
  match_at s = Some g ->
  exists w1 w2 post,
    s = fence_json ++ w1 ++ g ++ w2 ++ fence ++ post /\ blank w1 /\ blank w2.
Proof.
  unfold match_at. destruct (startsWith fence_json s) eqn:Hs; [|done].
  apply startsWith_spec in Hs as [r ->]. rewrite drop_app_length.
  intros H. apply ws_then_sound in H as (w1 & s' & -> & Hw1 & Hg).
  apply match_group_sound in Hg as (w2 & post & -> & Hw2).
  exists w1, w2, post. done.
Qed.

Lemma match_at_complete (body post : jsstring) :
  is_Some (match_at (fence_json ++ body ++ fence ++ post)).
Proof.
  unfold match_at.
  replace (startsWith fence_json (fence_json ++ body ++ fence ++ post))
    with true by (symmetry; apply startsWith_spec; eauto).
  rewrite drop_app_length.
  assert (exists w rest, body = w ++ rest /\ blank w /\
            is_Some (match_group (rest ++ fence ++ post)))
    as (w & rest & -> & Hw & Hg).
  { exists [], body. split_and!; [done | constructor |].
    apply match_group_complete. }
  rewrite <- app_assoc. by apply ws_then_complete.
Qed.

Lemma match_json_block_cons (c : N) (text : jsstring) :
  match_json_block (c :: text) =
  match match_at (c :: text) with
  | Some g => Some g
  | None => match_json_block text
  end.
Proof. reflexivity. Qed.

(** What the pattern captures lies between a JSON-tagged fence and a fence,
    white space around it left out. *)
Lemma match_json_block_sound (text g : jsstring) :
  match_json_block text = Some g ->
  exists pre w1 w2 post,
    text = pre ++ fence_json ++ w1 ++ g ++ w2 ++ fence ++ post /\
    blank w1 /\ blank w2.
Proof.
  induction text as [|c text IH].
  - done.
  - rewrite match_json_block_cons.
    destruct (match_at (c :: text)) as [g'|] eqn:Hat.
    + intros [= ->].
      apply match_at_sound in Hat as (w1 & w2 & post & -> & H1 & H2).
      exists [], w1, w2, post. done.
    + intros H. destruct (IH H) as (pre & w1 & w2 & post & -> & H1 & H2).
      exists (c :: pre), w1, w2, post. done.
Qed.

Lemma match_json_block_here (s : jsstring) :
  is_Some (match_at s) -> is_Some (match_json_block s).
Proof.
  destruct s as [|c t]; intros [g Hg]; [done|].
  rewrite match_json_block_cons, Hg. eauto.
Qed.

(** The pattern matches exactly the texts that hold such a block. *)
Lemma match_json_block_complete (text : jsstring) :
  has_json_block text <-> is_Some (match_json_block text).
Proof.
  split.
  - intros (pre & body & post & ->). induction pre as [|c pre IH].
    + apply match_json_block_here, match_at_complete.
    + change ((c :: pre) ++ fence_json ++ body ++ fence ++ post)
        with (c :: (pre ++ fence_json ++ body ++ fence ++ post)).
      rewrite match_json_block_cons.
      destruct (match_at _); [eauto | done].
  - intros [g Hg].
    apply match_json_block_sound in Hg as (pre & w1 & w2 & post & -> & _).
    exists pre, (w1 ++ g ++ w2), post. by rewrite <- !app_assoc.
Qed.

(** *** The first block *)

Lemma first_occurrence_exists (s text : jsstring) :
  (exists pre post, text = pre ++ s ++ post) ->
  exists pre, first_occurrence s pre text.
Proof.
  induction text as [|c text IH]; intros (pre & post & E).
  - exists []. split; [|simpl; intros; lia].
    exists post. by destruct pre.
  - destruct (startsWith s (c :: text)) eqn:Hs.
    { apply startsWith_spec in Hs as [r Hr]. exists [].
      split; [by exists r | simpl; intros; lia]. }
    assert (forall post', c :: text <> [] ++ s ++ post') as Hnot.
    { intros post' E'.
      assert (startsWith s (c :: text) = true) as H
        by (apply startsWith_spec; eauto).
      congruence. }
    destruct pre as [|c' pre]; [by apply Hnot in E|].
    injection E as <- E.
    destruct IH as (pre0 & (post0 & E0) & Hmin); [eauto|].
    exists (c :: pre0). split.
    + exists post0. simpl. by rewrite <- E0.
    + intros [|c'' pre'] post' E'; [by apply Hnot in E'|].
      injection E' as _ E'. apply Hmin in E'. simpl. lia.
Qed.

Lemma first_occurrence_tail (s : jsstring) (c : N) (pre rest : jsstring) :
  first_occurrence s (c :: pre) (c :: rest) -> first_occurrence s pre rest.
Proof.
  intros [(post & E) Hmin]. injection E as E. split; [eauto|].
  intros pre' post' E'. specialize (Hmin (c :: pre') post').
  simpl in Hmin. rewrite E' in Hmin. specialize (Hmin eq_refl). lia.
Qed.

Lemma ws_then_trimStart {A : Type} (k : jsstring -> option A)
    (s : jsstring) :
  is_Some (k (trimStart s)) -> ws_then k s = k (trimStart s).
Proof.
  induction s as [|c s IH]; simpl; [done|].
  destruct (isWhiteSpace c); [|done].
  intros H. rewrite IH by done. by destruct H as [r ->].
Qed.

Lemma match_close_blank (w post : jsstring) :
  blank w -> match_close (w ++ fence ++ post) = Some ().
Proof.
  intros Hw.
  destruct (ws_then_complete
              (fun r => if startsWith fence r then Some () else None)
              w (fence ++ post) Hw) as [[] H]; [by eexists|].
  exact H.
Qed.

Lemma trimStart_app_solid (b : jsstring) (c : N) (r : jsstring) :
  isWhiteSpace c = false -> trimStart (b ++ c :: r) = trimStart b ++ c :: r.
Proof.
  intros Hc. induction b as [|x b IH]; simpl; [by rewrite Hc|].
  by destruct (isWhiteSpace x).
Qed.

Lemma trimEnd_cons (c : N) (b : jsstring) :
  ~ blank (c :: b) -> trimEnd (c :: b) = c :: trimEnd b.
Proof.
  intros Hnb. destruct (trimEnd b) as [|x u] eqn:E.
  - apply trimEnd_nil_iff in E.
    assert (isWhiteSpace c = false) as Hc.
    { destruct (isWhiteSpace c) eqn:Hc; [|done].
      exfalso. apply Hnb. by constructor. }
    change (c :: b) with ([c] ++ b). rewrite trimEnd_blank by done.
    unfold trimEnd. simpl. by rewrite Hc.
  - change (c :: b) with ([c] ++ b).
    rewrite trimEnd_app by by rewrite E. by rewrite E.
Qed.

(** The lazy group stops at the first fence it can reach through white
    space: it captures what stands before the first fence, without the
    white space at its end. *)
Lemma match_group_first (b post : jsstring) :
  first_occurrence fence b (b ++ fence ++ post) ->
  match_group (b ++ fence ++ post) = Some (trimEnd b).
Proof.
  induction b as [|c b IH]; intros Hfirst.
  - change ([] ++ fence ++ post) with (96 :: (96 :: 96 :: post)).
    rewrite match_group_cons.
    change (96 :: (96 :: 96 :: post)) with (fence ++ post).
    by rewrite match_close_fence.
  - change ((c :: b) ++ fence ++ post) with (c :: (b ++ fence ++ post)).
    rewrite match_group_cons.
    destruct (match_close (c :: (b ++ fence ++ post))) as [[]|] eqn:Hc.
    + apply match_close_sound in Hc as (w & post' & E & Hw).
      destruct Hfirst as [_ Hmin].
      pose proof (Hmin w post' E) as Hlen.
      assert (exists k, w = (c :: b) ++ k) as (k & ->).
      { change (c :: (b ++ fence ++ post))
          with ((c :: b) ++ fence ++ post) in E.
        apply app_eq_inv in E as [(k & E1 & _) | (k & E1 & _)]; [|eauto].
        rewrite E1, length_app in Hlen.
        destruct k; [|simpl in Hlen; lia].
        exists []. rewrite app_nil_r in E1. by rewrite E1, app_nil_r. }
      apply Forall_app in Hw as [Hw _].
      apply trimEnd_nil_iff in Hw. by rewrite Hw.
    + assert (~ blank (c :: b)) as Hnb.
      { intros Hw. change (c :: (b ++ fence ++ post))
          with ((c :: b) ++ fence ++ post) in Hc.
        by rewrite match_close_blank in Hc. }
      rewrite IH by (by eapply first_occurrence_tail).
      simpl. by rewrite trimEnd_cons.
Qed.

Lemma match_json_block_at (s g : jsstring) :
  match_at s = Some g -> match_json_block s = Some g.
Proof.
  destruct s as [|c s]; [done|]. intros H.
  by rewrite match_json_block_cons, H.
Qed.

Lemma match_at_starts (s g : jsstring) :
  match_at s = Some g -> exists r, s = [] ++ fence_json ++ r.
Proof.
  unfold match_at. destruct (startsWith fence_json s) eqn:Hs; [|done].
  apply startsWith_spec in Hs as [r ->]. eauto.
Qed.

(** The leftmost match starts at the first JSON-tagged fence. *)
Lemma match_json_block_skip (pre rest : jsstring) :
  first_occurrence fence_json pre (pre ++ fence_json ++ rest) ->
  match_json_block (pre ++ fence_json ++ rest)
  = match_json_block (fence_json ++ rest).
Proof.
  induction pre as [|c pre IH]; intros Hfirst; [done|].
  change ((c :: pre) ++ fence_json ++ rest)
    with (c :: (pre ++ fence_json ++ rest)).
  rewrite match_json_block_cons.
  destruct (match_at (c :: (pre ++ fence_json ++ rest))) as [g|] eqn:Hat.
  - apply match_at_starts in Hat as [r Hr].
    destruct Hfirst as [_ Hmin]. apply Hmin in Hr. simpl in Hr. lia.
  - apply IH. by eapply first_occurrence_tail.
Qed.

(** What the pattern captures: the inner content of the first block,
    trimmed. *)
Lemma match_json_block_first (text body : jsstring) :
  json_block text body -> match_json_block text = Some (trim body).
Proof.
  intros (pre & rest & Hpre & -> & [(post & ->) Hmin]).
  rewrite match_json_block_skip by done.
  apply match_json_block_at. unfold match_at.
  replace (startsWith fence_json (fence_json ++ body ++ fence ++ post))
    with true by (symmetry; apply startsWith_spec; eauto).
  rewrite drop_app_length.
  assert (trimStart (body ++ fence ++ post)
          = trimStart body ++ fence ++ post) as Hstart.
  { change (fence ++ post) with (96 :: (96 :: 96 :: post)).
    by apply trimStart_app_solid. }
  assert (match_group (trimStart body ++ fence ++ post)
          = Some (trim body)) as Hgroup.
  { apply match_group_first. split; [eauto|].
    intros pre' post' E.
    destruct (trimStart_split body) as (w & _ & Hw).
    specialize (Hmin (w ++ pre') post').
    rewrite Hw in Hmin at 1. rewrite <- !app_assoc in Hmin.
    rewrite E in Hmin. specialize (Hmin eq_refl).
    rewrite Hw, !length_app in Hmin. lia. }
  rewrite ws_then_trimStart; rewrite Hstart, Hgroup; [done | by eexists].
Qed.

(** Two JSON-tagged fences do not overlap. *)
Lemma fence_json_apart (k post tail : jsstring) :
  fence_json ++ post = k ++ fence_json ++ tail -> k <> [] ->
  exists k', post = k' ++ fence_json ++ tail.
Proof.
  change fence_json with (96 :: 96 :: 96 :: 106 :: 115 :: 111 :: [110]).
  intros E Hk.
  do 7 (destruct k as [|? k]; [by simplify_eq/=|]).
  simplify_eq/=. by exists k.
Qed.

Lemma json_block_exists (text : jsstring) :
  has_json_block text -> exists body, json_block text body.
Proof.
  intros (p0 & b0 & q0 & E).
  destruct (first_occurrence_exists fence_json text) as (pre & Hpre);
    [by eauto|].
  pose proof Hpre as [(post1 & E1) Hmin].
  assert (exists b q, post1 = b ++ fence ++ q) as Hclose.
  { pose proof (Hmin _ _ E) as Hlen. rewrite E in E1.
    apply app_eq_inv in E1 as [(k & E2 & E3) | (k & E2 & E3)].
    - destruct (decide (k = [])) as [-> | Hk].
      + rewrite app_nil_l in E3. apply app_inv_head in E3. rewrite E3. eauto.
      + apply fence_json_apart in E3 as (k' & ->); [|done].
        exists k', (str "json" ++ b0 ++ fence ++ q0). done.
    - rewrite E2, length_app in Hlen.
      destruct k; [|simpl in Hlen; lia].
      rewrite app_nil_l in E3. apply app_inv_head in E3. rewrite <- E3. eauto. }
  destruct Hclose as (b & q & Hbq).
  destruct (first_occurrence_exists fence post1) as (body & Hbody);
    [by eauto|].
  exists body, pre, post1. done.
Qed.

(** The second tier, when it applies. *)
Lemma extract_brace_span (text inner : jsstring) :
  match_json_block text = None ->
  brace_span text inner -> extract text = inner.
Proof.
  intros Hnone (pre & mid & post & -> & -> & Hpre & Hpost).
  assert (indexOf 123 (pre ++ 123 :: mid ++ 125 :: post)
          = Z.of_nat (length pre)) as Hfirst.
  { unfold indexOf. rewrite indexOf_from_first by done. lia. }
  assert (lastIndexOf 125 (pre ++ 123 :: mid ++ 125 :: post)
          = Z.of_nat (length pre + S (length mid))) as Hlast.
  { unfold lastIndexOf.
    replace (pre ++ 123 :: mid ++ 125 :: post)
      with ((pre ++ 123 :: mid) ++ 125 :: post)
      by (by rewrite <- app_assoc).
    rewrite lastIndexOf_from_last by (done || lia).
    rewrite length_app. simpl length. lia. }
  unfold extract. rewrite Hnone, Hfirst, Hlast.
  destruct (Z.eqb_spec (Z.of_nat (length pre)) (-1)); [lia|].
  destruct (Z.eqb_spec (Z.of_nat (length pre + S (length mid))) (-1));
    [lia|].
  destruct (Z.ltb_spec (Z.of_nat (length pre))
              (Z.of_nat (length pre + S (length mid)))); [|lia].
  simpl andb. cbv iota.
  replace (pre ++ 123 :: mid ++ 125 :: post)
    with (pre ++ (123 :: mid ++ [125]) ++ post)
    by (simpl; by rewrite <- app_assoc).
  replace (Z.of_nat (length pre + S (length mid)) + 1)%Z
    with (Z.of_nat (length pre + length (123 :: mid ++ [125])))
    by (simpl; rewrite length_app; simpl; lia).
  apply substring_inner.
Qed.

(** An opening brace followed, somewhere later, by a closing brace gives a
    first opening brace and a last closing brace in this order. *)
Lemma brace_pair_span (text : jsstring) :
  has_brace_pair text <-> exists inner, brace_span text inner.
Proof. clear toLowerCase.
  split.
  - intros (pre & mid & post & ->).
    assert (123 ∈ pre ++ 123 :: mid ++ 125 :: post) as H1 by elem_tac.
    apply list_elem_of_split_l in H1 as (p1 & r1 & E1 & Hp1).
    assert (125 ∈ r1) as H2.
    { symmetry in E1.
      apply app_eq_inv in E1 as [(k & -> & E) | (k & -> & E)];
        destruct k as [|c k]; simplify_eq/=; elem_tac. }
    apply list_elem_of_split_r in H2 as (m1 & q1 & -> & Hq1).
    exists (123 :: m1 ++ [125]), p1, m1, q1. by rewrite E1.
  - intros (inner & pre & mid & post & -> & _). by exists pre, mid, post.
Qed.

Lemma has_brace_pair_dec (text : jsstring) :
  has_brace_pair text \/ ~ has_brace_pair text.
Proof. clear toLowerCase.
  destruct (decide (123 ∈ text)) as [H1 | H1].
  - apply list_elem_of_split_l in H1 as (pre & r & -> & Hpre).
    destruct (decide (125 ∈ r)) as [H2 | H2].
    + apply list_elem_of_split in H2 as (mid & post & ->).
      left. by exists pre, mid, post.
    + right. intros (p & m & q & E).
      apply app_eq_inv in E as [(k & -> & E) | (k & -> & E)];
        destruct k as [|c k]; simplify_eq/=;
        solve [apply H2; elem_tac | apply Hpre; elem_tac].
  - right. intros (p & m & q & ->). apply H1. elem_tac.
Qed.

(** The third tier: no fenced block and no such pair of braces. *)
Lemma extract_no_brace_pair (text : jsstring) :
  match_json_block text = None ->
  ~ has_brace_pair text -> extract text = trim text.
Proof.
  intros Hnone Hno. unfold extract. rewrite Hnone.
  unfold indexOf, lastIndexOf.
  destruct (indexOf_from_cases 123 text 0)
    as [[_ ->] | (pre & r & E & Hpre & ->)]; [done|].
  destruct (lastIndexOf_from_cases 125 text 0 ltac:(lia))
    as [[_ ->] | (p2 & post & E2 & Hpost & ->)].
  { by rewrite andb_false_r. }
  destruct (Z.ltb_spec (0 + Z.of_nat (length pre))
              (0 + Z.of_nat (length p2))) as [Hlt | Hge];
    [|by rewrite andb_false_r].
  exfalso. apply Hno.
  assert (exists mid, p2 = pre ++ 123 :: mid) as [mid ->].
  { rewrite E in E2. apply app_eq_inv in E2 as [(k & E3 & E4) | (k & -> & E4)].
    - rewrite E3, length_app in Hlt. lia.
    - destruct k as [|c k]; simpl in E4.
      + rewrite app_nil_r in Hlt. lia.
      + injection E4 as <- _. eauto. }
  exists pre, mid, post. rewrite E2. by rewrite <- app_assoc.
Qed.

(** ** MetadataValidator *)

Lemma validate_syntax_error (text js : jsstring) :
  JSON_parse js = None ->
  validate text js
  = (Throw msg_parse_failed, parse_failure_log SyntaxError text js).
Proof. intros H. unfold validate, validate_body. by rewrite H. Qed.

Lemma validate_null (text js : jsstring) :
  JSON_parse js = Some JNull ->
  validate text js
  = (Throw msg_parse_failed, parse_failure_log TypeError text js).
Proof. intros H. unfold validate, validate_body. by rewrite H. Qed.

(** A record without a usable title: the dedicated error is raised inside
    the [try] block, so the handler logs it and throws the general one. *)
Lemma validate_no_title (text js : jsstring) (d : json) :
  JSON_parse js = Some d -> d <> JNull ->
  truthy (prop d (str "title")) = false ->
  validate text js
  = (Throw msg_parse_failed,
     console_warn msg_incomplete d
       :: parse_failure_log (Error msg_no_title) text js).
Proof.
  intros Hp Hd Ht. unfold validate, validate_body. rewrite Hp.
  destruct d; try done; rewrite Ht; reflexivity.
Qed.

Lemma validate_title (text js : jsstring) (d : json) :
  JSON_parse js = Some d ->
  truthy (prop d (str "title")) = true ->
  validate text js
  = (Return d,
     if other_fields_ok d then [] else [console_warn msg_incomplete d]).
Proof.
  intros Hp Ht. unfold validate, validate_body, other_fields_ok. rewrite Hp.
  destruct d; try done; rewrite Ht;
    destruct (truthy (prop _ (str "summary")));
    destruct (Array_isArray (prop _ (str "authors")));
    destruct (Array_isArray (prop _ (str "tags")));
    destruct (truthy (prop _ (str "topic"))); reflexivity.
Qed.

Lemma truthy_nonempty_string (s : jsstring) :
  s <> [] -> truthy (Some (JString s)) = true.
Proof. intros H. simpl. by rewrite bool_decide_eq_false_2. Qed.

(** C1 (the code departs from the design).  A response that is valid JSON
    but has no title: the validator raises the error that names the
    missing title inside its own [try] block, so its handler turns it into
    the error of a syntactic parse failure.  The caller receives the very
    same failure as for text that is not JSON at all; the message naming
    the title only reaches the console. *)
Theorem missing_title_reported_as_parse_failure :
  JSON_parse sample_without_title
  = Some (JObject [(str "summary", JString (str "A summary"));
                   (str "topic", JString (str "Biology"))]) /\
  prop (JObject [(str "summary", JString (str "A summary"));
                 (str "topic", JString (str "Biology"))]) (str "title")
  = None /\
  (validate sample_without_title sample_without_title).1
  = Throw msg_parse_failed /\
  (validate (str "not json") (str "not json")).1 = Throw msg_parse_failed /\
  (parseResponse (Some sample_without_title)).1
  = (parseResponse (Some (str "not json"))).1 /\
  msg_parse_failed <> msg_no_title.
Proof. split_and!; by vm_compute. Qed.

(** The same for every parsed value whose title is missing or empty. *)
Lemma missing_title_failure_is_generic (text js : jsstring) (d : json) :
  JSON_parse js = Some d ->
  truthy (prop d (str "title")) = false ->
  (validate text js).1 = Throw msg_parse_failed.
Proof.
  intros Hp Ht. destruct d.
  1: by rewrite validate_null.
  all: by rewrite (validate_no_title _ _ _ Hp).
Qed.

(** C6.  An extracted string that parses and carries a non-empty title is
    accepted by the validator: the parsed record is returned as it is,
    whatever other required fields are missing.  The only trace is a
    console warning, written exactly when another required field is
    missing; nothing is thrown.  The record is returned whole, so every
    optional field (subTopic, journal, publishDate or any other member)
    reads the same in the result as in the parsed value. *)
Theorem validator_returns_titled_record
    (text js : jsstring) (d : json) (t : jsstring) :
  JSON_parse js = Some d ->
  prop d (str "title") = Some (JString t) ->
  t <> [] ->
  (validate text js).1 = Return d /\
  (validate text js).2
  = (if other_fields_ok d then [] else [console_warn msg_incomplete d]) /\
  (forall r, (validate text js).1 = Return r ->
     forall k, prop r k = prop d k) /\
  (forall e, console_error (str "JSON Parse Error:") e
             ∉ (validate text js).2).
Proof.
  intros Hp Ht Hne.
  assert (truthy (prop d (str "title")) = true) as Htrue.
  { rewrite Ht. by apply truthy_nonempty_string. }
  rewrite (validate_title text js d Hp Htrue). simpl.
  split_and!; [done | done | by intros r [= <-] |].
  intros e He. destruct (other_fields_ok d).
  - by apply elem_of_nil in He.
  - apply list_elem_of_singleton in He. discriminate.
Qed.

Lemma validator_returns_titled_record_witness :
  (validate sample_title_only sample_title_only).1
  = Return (JObject [(str "title", JString (str "Attention Is All You Need"));
                     (str "journal", JString (str "NeurIPS"));
                     (str "publishDate", JString (str "2017"))]) /\
  (validate sample_title_only sample_title_only).2
  = [console_warn msg_incomplete
       (JObject [(str "title", JString (str "Attention Is All You Need"));
                 (str "journal", JString (str "NeurIPS"));
                 (str "publishDate", JString (str "2017"))])].
Proof.
  pose proof (validator_returns_titled_record
                sample_title_only sample_title_only
                (JObject [(str "title",
                           JString (str "Attention Is All You Need"));
                          (str "journal", JString (str "NeurIPS"));
                          (str "publishDate", JString (str "2017"))])
                (str "Attention Is All You Need")
                ltac:(vm_compute; reflexivity)
                ltac:(vm_compute; reflexivity)
                ltac:(discriminate)) as (H1 & H2 & _).
  split; [exact H1 | exact H2].
Defined.

(** C5 (as amended).  The extractor always yields a string, by the first
    tier that applies.  A text that holds a block opened by the JSON-tagged
    fence and closed by a fence yields the inner content of its first
    such block, that is what stands between the first JSON-tagged fence
    and the first fence after it, without the white space at its two
    ends.  A text without such a block in which a first opening brace and
    a last closing brace exist, the last after the first, yields the
    inclusive substring between them.  A text with neither such a block
    nor such a pair of braces yields the trimmed text.  When the string
    that comes out is not JSON, validation fails with the parse error.
    [parseResponse] runs the extractor on every text that is not empty. *)
Theorem extractor_tiers (text : jsstring) :
  (has_json_block text -> exists body, json_block text body) /\
  (forall body, json_block text body -> extract text = trim body) /\
  (~ has_json_block text ->
     forall inner, brace_span text inner -> extract text = inner) /\
  (~ has_json_block text -> ~ has_brace_pair text ->
     extract text = trim text) /\
  (has_json_block text \/
   (~ has_json_block text /\ has_brace_pair text) \/
   (~ has_json_block text /\ ~ has_brace_pair text)) /\
  (forall raw, JSON_parse (extract text) = None ->
     (validate raw (extract text)).1 = Throw msg_parse_failed) /\
  (text <> [] -> parseResponse (Some text) = validate text (extract text)).
Proof. clear toLowerCase.
  assert (forall t, ~ has_json_block t -> match_json_block t = None) as Hno.
  { intros t H. destruct (match_json_block t) eqn:E; [|done].
    exfalso. apply H, match_json_block_complete. eauto. }
  split_and!.
  - apply json_block_exists.
  - intros body Hbody. unfold extract.
    by rewrite (match_json_block_first _ _ Hbody).
  - intros H inner Hspan. by apply extract_brace_span; [apply Hno|].
  - intros H Hpair. by apply extract_no_brace_pair; [apply Hno|].
  - destruct (match_json_block text) as [g|] eqn:E.
    + left. apply match_json_block_complete. eauto.
    + assert (~ has_json_block text) as Hnb.
      { intros [g Hg]%match_json_block_complete. congruence. }
      right. destruct (has_brace_pair_dec text); tauto.
  - intros raw H. by rewrite validate_syntax_error.
  - by destruct text.
Qed.

(** C5, as the design states it, does not hold: a text without any brace
    that holds a fenced block tagged as JSON does not come back trimmed;
    the first tier applies and yields the inner content of the block. *)
Lemma fenced_text_without_braces_not_trimmed :
  ~ (forall text, ~ has_brace_pair text -> extract text = trim text).
Proof. clear toLowerCase.
  intros H. specialize (H sample_fenced).
  assert (~ has_brace_pair sample_fenced) as Hno.
  { intros (pre & mid & post & E).
    assert (123 ∈ sample_fenced) as Hin by (rewrite E; elem_tac).
    assert (bool_decide (123 ∈ sample_fenced) = false) as Hb by done.
    by apply bool_decide_eq_false in Hb. }
  specialize (H Hno). vm_compute in H. discriminate.
Qed.

(** ** Sorting *)

Section sorting.
Context {A : Type}.

Lemma sort_insert_perm (cmp : A -> A -> Z) (x : A) (l : list A) :
  sort_insert cmp x l ≡ₚ x :: l.
Proof.
  induction l as [|y l IH]; simpl; [done|].
  destruct (cmp x y <=? 0)%Z; [done|]. rewrite IH. apply Permutation_swap.
Qed.

Lemma Array_sort_perm (cmp : A -> A -> Z) (l : list A) :
  Array_sort cmp l ≡ₚ l.
Proof.
  induction l as [|x l IH]; simpl; [done|].
  unfold Array_sort in *. simpl. by rewrite sort_insert_perm, IH.
Qed.

Lemma Array_sort_cons (cmp : A -> A -> Z) (x : A) (l : list A) :
  Array_sort cmp (x :: l) = sort_insert cmp x (Array_sort cmp l).
Proof. reflexivity. Qed.

Variable key : A -> Z.

Lemma sort_insert_sorted (x : A) (l : list A) :
  StronglySorted (fun a b => (key b <= key a)%Z) l ->
  StronglySorted (fun a b => (key b <= key a)%Z)
    (sort_insert (by_key_desc key) x l).
Proof.
  induction 1 as [|y l Hs IH Hy]; simpl.
  - repeat constructor.
  - unfold by_key_desc at 1.
    destruct (Z.leb_spec (key y - key x) 0) as [Hle | Hgt].
    + constructor; [by constructor|]. constructor; [lia|].
      eapply Forall_impl; [exact Hy|]. simpl. intros z Hz. lia.
    + constructor; [done|].
      rewrite sort_insert_perm. constructor; [lia | done].
Qed.

Lemma Array_sort_sorted (l : list A) :
  StronglySorted (fun a b => (key b <= key a)%Z) (Array_sort (by_key_desc key) l).
Proof.
  induction l as [|x l IH]; [constructor|].
  rewrite Array_sort_cons. by apply sort_insert_sorted.
Qed.



End sorting.

(** ** FilterEngine *)

Lemma existsb_elem_of {A : Type} (f : A -> bool) (l : list A) :
  existsb f l = true <-> exists x, x ∈ l /\ f x = true.
Proof.
  rewrite existsb_exists. split; intros (x & Hx & Hf); exists x;
    (split; [by apply list_elem_of_In | done]).
Qed.

Lemma includes_ci (s q : jsstring) :
  includes (toLowerCase s) (toLowerCase q) = true <-> ci_contains s q.
Proof. apply includes_spec. Qed.

Lemma matchesTopic_spec (sel : Selection) (p : Paper) :
  matchesTopic sel p = true <-> topic_predicate sel p.
Proof.
  unfold matchesTopic, topic_predicate.
  destruct (selectedTopic sel) as [[|c t]|]; simpl.
  - split; [by intros _ ? [= <-] | done].
  - rewrite bool_decide_eq_true. split.
    + by intros [= ->] ? [= <-] _.
    + intros H. by rewrite (H (c :: t)).
  - split; [by intros _ ? [=] | done].
Qed.

Lemma matchesSubTopic_spec (sel : Selection) (p : Paper) :
  matchesSubTopic sel p = true <-> subTopic_predicate sel p.
Proof.
  unfold matchesSubTopic, subTopic_predicate.
  destruct (selectedSubTopic sel) as [[|c t]|]; simpl.
  - split; [by intros _ ? [= <-] | done].
  - rewrite bool_decide_eq_true. split.
    + by intros -> ? [= <-] _.
    + intros H. by rewrite (H (c :: t)).
  - split; [by intros _ ? [=] | done].
Qed.

Lemma matchesTag_spec (sel : Selection) (p : Paper) :
  matchesTag sel p = true <-> tag_predicate sel p.
Proof.
  unfold matchesTag, tag_predicate.
  destruct (selectedTag sel) as [[|c t]|]; simpl.
  - split; [by intros _ ? [= <-] | done].
  - rewrite bool_decide_eq_true. split.
    + by intros H ? [= <-] _.
    + intros H. by apply H.
  - split; [by intros _ ? [=] | done].
Qed.

Lemma matchesSearch_spec (sel : Selection) (p : Paper) :
  matchesSearch sel p = true <-> search_predicate sel p.
Proof.
  unfold matchesSearch, search_predicate.
  destruct (nonempty (searchQuery sel)) eqn:Hq.
  - apply nonempty_true in Hq.
    rewrite !orb_true_iff, !existsb_elem_of, !includes_ci.
    assert ((match subTopic p with
             | Some s => nonempty s
                         && includes (toLowerCase s)
                              (toLowerCase (searchQuery sel))
             | None => false
             end = true)
            <-> exists s, subTopic p = Some s /\ s <> []
                          /\ ci_contains s (searchQuery sel)) as ->.
    { destruct (subTopic p) as [s|].
      - rewrite andb_true_iff, includes_ci, nonempty_true. split.
        + intros [? ?]. eauto.
        + by intros (s' & [= <-] & ? & ?).
      - split; [done | by intros (? & ? & _)]. }
    setoid_rewrite includes_ci. tauto.
  - apply nonempty_false in Hq. split; [by intros _ ? | done].
Qed.

Lemma matches_spec (sel : Selection) (p : Paper) :
  matches sel p = true <-> satisfies sel p.
Proof.
  unfold matches, satisfies.
  rewrite !andb_true_iff, matchesTopic_spec, matchesSubTopic_spec,
    matchesTag_spec, matchesSearch_spec. tauto.
Qed.



(** ** Dictionaries *)

Lemma own_define_eq (k : jsstring) (v : count) (d : dict) :
  own_property k (define_property k v d) = Some v.
Proof.
  induction d as [|[k' v'] d IH]; cbn [own_property define_property].
  - by rewrite decide_True.
  - destruct (decide (k = k')) as [-> | Hne]; cbn [own_property].
    + by rewrite decide_True.
    + by rewrite decide_False.
Qed.

Lemma own_define_ne (k k' : jsstring) (v : count) (d : dict) :
  k <> k' -> own_property k' (define_property k v d) = own_property k' d.
Proof.
  intros Hne. induction d as [|[k1 v1] d IH];
    cbn [own_property define_property].
  - by rewrite decide_False.
  - destruct (decide (k = k1)) as [-> | Hne1]; cbn [own_property].
    + by rewrite !decide_False.
    + destruct (decide (k' = k1)); [done | apply IH].
Qed.

Lemma define_property_keys (k : jsstring) (v : count) (d : dict) :
  (define_property k v d).*1
  = if decide (k ∈ d.*1) then d.*1 else d.*1 ++ [k].
Proof.
  induction d as [|[k' v'] d IH]; cbn [define_property].
  - rewrite decide_False; [done | apply not_elem_of_nil].
  - destruct (decide (k = k')) as [-> | Hne]; rewrite !fmap_cons; cbn [fst].
    + rewrite decide_True; [done | apply list_elem_of_here].
    + rewrite IH. destruct (decide (k ∈ d.*1)) as [Hin | Hnot].
      * rewrite decide_True; [done | by apply list_elem_of_further].
      * rewrite decide_False; [done|]. by apply not_elem_of_cons.
Qed.

Lemma define_property_NoDup (k : jsstring) (v : count) (d : dict) :
  NoDup d.*1 -> NoDup (define_property k v d).*1.
Proof.
  intros H. rewrite define_property_keys.
  destruct (decide (k ∈ d.*1)); [done|].
  apply NoDup_app. split_and!; [done | | apply NoDup_singleton].
  intros x Hx ->%list_elem_of_singleton. done.
Qed.

Lemma dict_set_NoDup (k : jsstring) (v : count) (d : dict) :
  NoDup d.*1 -> NoDup (dict_set k v d).*1.
Proof.
  intros H. unfold dict_set.
  destruct (decide (k = proto)); [destruct (own_property k d)|];
    try done; by apply define_property_NoDup.
Qed.

Lemma own_dict_set_eq (k : jsstring) (v : count) (d : dict) :
  k <> proto -> own_property k (dict_set k v d) = Some v.
Proof.
  intros H. unfold dict_set. rewrite decide_False by done.
  apply own_define_eq.
Qed.

Lemma own_dict_set_ne (k k' : jsstring) (v : count) (d : dict) :
  k <> k' -> own_property k' (dict_set k v d) = own_property k' d.
Proof.
  intros H. unfold dict_set.
  destruct (decide (k = proto)); [destruct (own_property k d)|];
    try done; by apply own_define_ne.
Qed.

Lemma dict_set_proto (v : count) (d : dict) :
  own_property proto d = None -> dict_set proto v d = d.
Proof. intros H. unfold dict_set. by rewrite decide_True, H. Qed.

Lemma own_property_elem_of (k : jsstring) (v : count) (d : dict) :
  NoDup d.*1 -> (k, v) ∈ d <-> own_property k d = Some v.
Proof.
  induction d as [|[k' v'] d IH]; cbn [own_property]; intros Hnd.
  - split; [by intros ?%elem_of_nil | done].
  - rewrite fmap_cons in Hnd. cbn [fst] in Hnd.
    apply NoDup_cons in Hnd as [Hk' Hnd]. rewrite elem_of_cons.
    destruct (decide (k = k')) as [-> | Hne].
    + split.
      * intros [[= ->] | Hin]; [done|]. exfalso. apply Hk'.
        apply list_elem_of_fmap. by exists (k', v).
      * intros [= ->]. by left.
    + rewrite <- IH by done. split; [|by right].
      intros [[= -> _] | Hin]; done.
Qed.



Lemma method_is_key (k : jsstring) :
  k ∈ Object_prototype_methods -> k ∈ Object_prototype_keys.
Proof. intros H. by apply list_elem_of_further. Qed.

Lemma plain_label_spec (k : jsstring) :
  plain_label k <-> k <> proto /\ (k ∉ Object_prototype_methods).
Proof. unfold plain_label, Object_prototype_keys. apply not_elem_of_cons. Qed.

Lemma tally_cons (key : Paper -> option jsstring) (d : dict) (p : Paper)
    (papers : list Paper) :
  tally key d (p :: papers)
  = tally key
      (match key p with
       | Some k => dict_set k (increment (dict_get k d)) d
       | None => d
       end) papers.
Proof. reflexivity. Qed.

Lemma tally_NoDup (key : Paper -> option jsstring) (d : dict)
    (papers : list Paper) :
  NoDup d.*1 -> NoDup (tally key d papers).*1.
Proof.
  revert d. induction papers as [|p papers IH]; intros d Hd; [done|].
  rewrite tally_cons. apply IH. destruct (key p); [|done].
  by apply dict_set_NoDup.
Qed.

(** One more paper under the label. *)
Lemma entry_for_step (k : jsstring) (d : dict) (m : nat) :
  own_property k d = entry_for k (Z.of_nat m) ->
  own_property k (dict_set k (increment (dict_get k d)) d)
  = entry_for k (Z.of_nat (S m)).
Proof.
  intros H. unfold entry_for in *. rewrite !Nat2Z.id in *.
  destruct (Z.eqb_spec (Z.of_nat (S m)) 0) as [|_]; [lia|].
  destruct (decide (k = proto)) as [-> | Hp].
  - assert (own_property proto d = None) as Hnone
      by (rewrite H; by destruct (Z.of_nat m =? 0)%Z).
    by rewrite dict_set_proto.
  - rewrite own_dict_set_eq by done. unfold dict_get. rewrite H.
    destruct (decide (k ∈ Object_prototype_methods)) as [Hm | Hm].
    + destruct (Z.eqb_spec (Z.of_nat m) 0) as [E | E].
      * rewrite decide_True by by apply method_is_key.
        destruct m; [done | lia].
      * done.
    + destruct (Z.eqb_spec (Z.of_nat m) 0) as [E | E].
      * rewrite decide_False by (by apply plain_label_spec).
        destruct m; [done | lia].
      * simpl. do 2 f_equal. lia.
Qed.

(** What a tally holds for a label: the entry for the number of papers
    that contribute to the label, on top of what it started with. *)
Lemma tally_own (key : Paper -> option jsstring) (k : jsstring)
    (papers : list Paper) (d : dict) (m : nat) :
  own_property k d = entry_for k (Z.of_nat m) ->
  own_property k (tally key d papers)
  = entry_for k
      (Z.of_nat (m + length (filter (fun p => key p = Some k) papers))).
Proof.
  revert d m. induction papers as [|p papers IH]; intros d m Hd.
  - simpl. by rewrite Nat.add_0_r.
  - rewrite tally_cons, filter_cons.
    destruct (key p) as [k'|] eqn:Hkey.
    + destruct (decide (Some k' = Some k)) as [[= ->] | Hne].
      * rewrite (IH _ (S m)) by by apply entry_for_step.
        simpl length. do 2 f_equal. lia.
      * apply IH. rewrite own_dict_set_ne by congruence. done.
    + rewrite decide_False by done. by apply IH.
Qed.

Lemma tally_ext (key1 key2 : Paper -> option jsstring) (d : dict)
    (papers : list Paper) :
  (forall p, key1 p = key2 p) -> tally key1 d papers = tally key2 d papers.
Proof.
  intros H. revert d. induction papers as [|p papers IH]; intros d; [done|].
  rewrite !tally_cons, H. apply IH.
Qed.

(** ** TaxonomyIndex *)

Lemma topics_tally (papers : list Paper) :
  topics papers = tally topic_key [] papers.
Proof.
  unfold topics, tally. generalize ([] : list (list N * count)).
  induction papers as [|p papers IH]; intros d; [done|].
  simpl. rewrite IH. unfold topic_key. by destruct (nonempty (topic p)).
Qed.

Lemma subTopics_tally (papers : list Paper) (sel : option jsstring) :
  subTopics papers sel
  = if is_set sel then tally (subTopic_key sel) [] papers else [].
Proof.
  unfold subTopics. destruct (is_set sel); [|done]. simpl.
  unfold tally. generalize ([] : list (list N * count)).
  induction papers as [|p papers IH]; intros d; [done|].
  simpl. rewrite IH. unfold subTopic_key.
  destruct (bool_decide (Some (topic p) = sel) && is_set (subTopic p))
    eqn:E; [|done].
  apply andb_true_iff in E as [_ E].
  by destruct (subTopic p).
Qed.

Lemma filter_none {A : Type} (P : A -> Prop) `{!forall x, Decision (P x)}
    (l : list A) :
  (forall x, ~ P x) -> filter P l = [].
Proof.
  intros Hno. induction l as [|x l IH]; [done|].
  by rewrite filter_cons_False.
Qed.

Lemma topics_own (papers : list Paper) (t : jsstring) :
  own_property t (topics papers)
  = if nonempty t then entry_for t (topic_occurrences t papers) else None.
Proof.
  rewrite topics_tally, (tally_own _ _ _ _ 0) by done.
  unfold topic_occurrences. rewrite Nat.add_0_l.
  destruct (nonempty t) eqn:Ht.
  - do 3 f_equal. apply list_filter_iff. intros p. unfold topic_key.
    destruct (nonempty (topic p)) eqn:Hp.
    + split; [by intros [= ->] | by intros ->].
    + apply nonempty_false in Hp. split; [done|].
      intros <-. by rewrite Hp in Ht.
  - apply nonempty_false in Ht as ->.
    replace (filter (fun p => topic_key p = Some []) papers)
      with ([] : list Paper); [done|].
    symmetry. apply filter_none.
    intros p. unfold topic_key. by destruct (topic p).
Qed.

Lemma subTopics_own (papers : list Paper) (t s : jsstring) :
  t <> [] ->
  own_property s (subTopics papers (Some t))
  = if nonempty s then entry_for s (subTopic_occurrences t s papers)
    else None.
Proof.
  intros Ht. rewrite subTopics_tally.
  replace (is_set (Some t)) with true by (symmetry; by apply nonempty_true).
  rewrite (tally_own _ _ _ _ 0) by done.
  unfold subTopic_occurrences. rewrite Nat.add_0_l.
  destruct (nonempty s) eqn:Hs.
  - do 3 f_equal. apply list_filter_iff. intros p. unfold subTopic_key.
    destruct (bool_decide (Some (topic p) = Some t)) eqn:E1; simpl.
    + apply bool_decide_eq_true in E1 as [= Et].
      destruct (subTopic p) as [s'|]; simpl.
      * destruct (nonempty s') eqn:E2.
        -- split; [by intros [= ->] | by intros [_ [= ->]]].
        -- apply nonempty_false in E2 as ->. split; [done|].
           intros [_ [= <-]]. done.
      * split; [done | by intros [_ ?]].
    + apply bool_decide_eq_false in E1. split; [done|].
      intros [Heq _]. exfalso. apply E1. by rewrite Heq.
  - apply nonempty_false in Hs as ->.
    replace (filter (fun p => subTopic_key (Some t) p = Some []) papers)
      with ([] : list Paper); [done|].
    symmetry. apply filter_none.
    intros p. unfold subTopic_key.
    destruct (bool_decide _); simpl; [|done].
    by destruct (subTopic p) as [[|]|].
Qed.

Lemma subTopics_unset (papers : list Paper) (sel : option jsstring) :
  is_set sel = false -> subTopics papers sel = [].
Proof. intros H. unfold subTopics. by rewrite H. Qed.

Lemma subTopics_own_any (papers : list Paper) (sel : option jsstring)
    (s : jsstring) :
  own_property s (subTopics papers sel)
  = match sel with
    | Some (c :: t) =>
        if nonempty s
        then entry_for s (subTopic_occurrences (c :: t) s papers)
        else None
    | _ => None
    end.
Proof.
  destruct sel as [[|c t]|].
  - by rewrite subTopics_unset.
  - by apply subTopics_own.
  - by rewrite subTopics_unset.
Qed.



Lemma entry_for_proto (n : Z) : entry_for proto n = None.
Proof. unfold entry_for. destruct (n =? 0)%Z; [done|]. by rewrite decide_True. Qed.

Lemma Object_entries_perm (d : dict) : Object_entries d ≡ₚ d.
Proof.
  unfold Object_entries. rewrite Array_sort_perm.
  rewrite <- (filter_app_complement
                (fun e : list N * count => is_Some (array_index e.1)) d)
    at 3.
  f_equiv. erewrite list_filter_iff; [done|].
  intros e. simpl. rewrite eq_None_not_Some. done.
Qed.

Lemma sorted_entries_perm (d : dict) : sorted_entries d ≡ₚ d.
Proof. unfold sorted_entries. by rewrite Array_sort_perm, Object_entries_perm. Qed.

Lemma sorted_entries_elem_of (d : dict) (k : jsstring) (v : count) :
  NoDup d.*1 -> (k, v) ∈ sorted_entries d <-> own_property k d = Some v.
Proof.
  intros H. rewrite sorted_entries_perm. by apply own_property_elem_of.
Qed.

Lemma topics_NoDup (papers : list Paper) : NoDup (topics papers).*1.
Proof. rewrite topics_tally. apply tally_NoDup, NoDup_nil_2. Qed.

Lemma subTopics_NoDup (papers : list Paper) (sel : option jsstring) :
  NoDup (subTopics papers sel).*1.
Proof.
  rewrite subTopics_tally. destruct (is_set sel).
  - apply tally_NoDup, NoDup_nil_2.
  - apply NoDup_nil_2.
Qed.

(** *** The order of the side bar *)





Lemma occurrences_elem_of {A : Type} (P : A -> Prop)
    `{!forall x, Decision (P x)} (l : list A) :
  Z.of_nat (length (filter P l)) <> 0%Z -> exists x, x ∈ l /\ P x.
Proof.
  destruct (filter P l) as [|x l'] eqn:E; [done|]. intros _.
  assert (x ∈ filter P l) as Hx by (rewrite E; apply list_elem_of_here).
  apply list_elem_of_filter in Hx as [? ?]. eauto.
Qed.


Lemma entry_for_Some (k : jsstring) (n : Z) (c : count) :
  entry_for k n = Some c -> n <> 0%Z.
Proof.
  unfold entry_for. destruct (Z.eqb_spec n 0); [done | done].
Qed.





(** Nor is a paper whose topic is the name of a method of
    [Object.prototype]: what is stored under the topic is a string. *)
Example constructor_topic_gets_text :
  topics [sample_constructor_topic; sample_constructor_topic]
  = [(str "constructor", Text (str "constructor") 2)]
  /\ topics [sample_constructor_topic] <> [(str "constructor", Num 1)].
Proof. split; [reflexivity | discriminate]. Qed.

(** ** DeduplicationGuard *)

Lemma isDuplicate_spec (existingPapers : list Paper) (m : PaperMetadata) :
  isDuplicate existingPapers m = true <-> collides_with existingPapers m.
Proof.
  unfold isDuplicate, collides_with, titles_collide.
  rewrite existsb_elem_of.
  split; intros (p & Hp & H); exists p; (split; [done|]).
  - by apply bool_decide_eq_true in H.
  - by apply bool_decide_eq_true.
Qed.

Lemma style_of_amber (e : jsstring) :
  style_of e = amber <-> includes e marker_already_exists = true.
Proof.
  unfold style_of, marker_already_exists.
  destruct (includes e (str "already exists")); split; done.
Qed.

Lemma handleSubmit_duplicate (paperUrl : jsstring) (m : PaperMetadata)
    (existingPapers : list Paper) (uuid : jsstring) (now : Z) :
  collides_with existingPapers m ->
  handleSubmit (Return (paperUrl, Some m)) existingPapers uuid now
  = {| added := None; error := Some msg_duplicate |}.
Proof.
  intros H%isDuplicate_spec. unfold handleSubmit. by rewrite H.
Qed.

Lemma handleSubmit_fresh (paperUrl : jsstring) (m : PaperMetadata)
    (existingPapers : list Paper) (uuid : jsstring) (now : Z) :
  ~ collides_with existingPapers m ->
  handleSubmit (Return (paperUrl, Some m)) existingPapers uuid now
  = {| added :=
         Some {| id := uuid; url := paperUrl; title := m_title m;
                 summary := m_summary m; authors := m_authors m;
                 topic := m_topic m; subTopic := m_subTopic m;
                 tags := m_tags m; journal := m_journal m;
                 publishDate := m_publishDate m; addedAt := now |};
       error := None |}.
Proof.
  intros H. unfold handleSubmit.
  destruct (isDuplicate existingPapers m) eqn:E; [|done].
  by apply isDuplicate_spec in E.
Qed.

(** C4 (as amended).  A candidate is turned down exactly when some paper
    of the collection has the same title after lower-casing and trimming.
    The rejection leaves the collection as it was and shows the message
    "This paper already exists in your bookshelf", which the dialog tells
    apart, in amber, by the words "already exists".  A failed submission
    is shown in amber exactly when it is such a rejection or when the
    message thrown while acquiring the metadata itself contains these
    words; none of the failure messages written out in the ingestion code
    does.  A candidate that is not turned down is put in front of the
    collection, with its title as given. *)
Theorem deduplication_guard
    (existingPapers : list Paper) (uuid : jsstring) (now : Z) :
  (forall paperUrl m,
     collides_with existingPapers m ->
     let r := handleSubmit (Return (paperUrl, Some m)) existingPapers uuid now
     in error r = Some msg_duplicate /\ added r = None
        /\ collection_after existingPapers r = existingPapers)
  /\ (forall paperUrl m,
        ~ collides_with existingPapers m ->
        let r :=
          handleSubmit (Return (paperUrl, Some m)) existingPapers uuid now
        in error r = None
           /\ exists newPaper,
                added r = Some newPaper
                /\ title newPaper = m_title m
                /\ collection_after existingPapers r
                   = newPaper :: existingPapers)
  /\ (forall acquired e,
        error (handleSubmit acquired existingPapers uuid now) = Some e ->
        collection_after existingPapers
          (handleSubmit acquired existingPapers uuid now) = existingPapers)
  /\ style_of msg_duplicate = amber
  /\ (forall acquired e,
        error (handleSubmit acquired existingPapers uuid now) = Some e ->
        (style_of e = amber <->
         rejected_as_duplicate acquired existingPapers
         \/ exists message,
              acquired = Throw message
              /\ includes message marker_already_exists = true))
  /\ (forall message, message ∈ own_failure_messages ->
        style_of message = red).
Proof.
  split_and!.
  - intros paperUrl m H. by rewrite handleSubmit_duplicate.
  - intros paperUrl m H. rewrite handleSubmit_fresh by done. simpl.
    split; [done|]. eexists. split_and!; done.
  - intros acquired e. unfold handleSubmit.
    destruct acquired as [[paperUrl [m|]]|message]; simpl; [|done..].
    by destruct (isDuplicate existingPapers m).
  - by vm_compute.
  - intros acquired e. unfold handleSubmit, rejected_as_duplicate.
    destruct acquired as [[paperUrl [m|]]|message]; simpl.
    + destruct (isDuplicate existingPapers m) eqn:E; simpl; [|done].
      intros [= <-]. split; [|by vm_compute].
      intros _. left. exists paperUrl, m. by rewrite <- isDuplicate_spec.
    + intros [= <-]. split; [by vm_compute|].
      intros [(? & ? & [=] & _) | (? & [=] & _)].
    + intros [= <-]. rewrite style_of_amber. split.
      * intros H. right. exists message. split; [done|].
        destruct message; [by vm_compute in H | done].
      * intros [(? & ? & [=] & _) | (? & [= <-] & H)].
        destruct message; [by vm_compute in H | done].
  - intros message H. unfold own_failure_messages in H.
    repeat (apply elem_of_cons in H as [-> | H]; [by vm_compute|]).
    by apply elem_of_nil in H.
Qed.

(** ** Selection state *)

Lemma sortedTopics_nonempty (papers : list Paper) (t : jsstring)
    (n : count) :
  (t, n) ∈ sortedTopics papers -> t <> [].
Proof.
  intros H. apply sorted_entries_elem_of in H; [|apply topics_NoDup].
  rewrite topics_own in H. destruct t; [done | done].
Qed.

Lemma sortedSubTopics_nonempty (papers : list Paper)
    (sel : option jsstring) (sub : jsstring) (k : count) :
  (sub, k) ∈ sortedSubTopics papers sel -> sub <> [].
Proof.
  intros H. apply sorted_entries_elem_of in H; [|apply subTopics_NoDup].
  rewrite subTopics_own_any in H.
  destruct sel as [[|c t]|]; try done. by destruct sub.
Qed.

Lemma ui_step_consistent (papers : list Paper) (s s' : Selection) :
  consistent s -> ui_step papers s s' -> consistent s'.
Proof.
  intros [Hsub Htag] Hstep.
  destruct Hstep as [|t n Ht|t n sub k Ht Hsel Hk|p tag Hp Hg|Hg|q];
    split; simpl; try done.
  - intros sub'. destruct (decide (Some sub = selectedSubTopic s)); [done|].
    intros [= <-]. split; [by eapply sortedSubTopics_nonempty|].
    exists t. split; [done|]. by eapply sortedTopics_nonempty.
  - intros tag Hg. destruct (Htag tag Hg) as [Hnone _]. congruence.
Qed.

Lemma reachable_consistent (s : Selection) : reachable s -> consistent s.
Proof.
  induction 1 as [|papers s s' _ IH Hstep].
  - by split.
  - by eapply ui_step_consistent.
Qed.

Lemma reachable_in_offered (papers : list Paper) (s : Selection) :
  reachable_in papers s -> offered_under papers s.
Proof.
  induction 1 as [|s s' _ IH Hstep]; [done|].
  destruct Hstep as [|t n Ht|t n sub k Ht Hsel Hk|p tag Hp Hg|Hg|q];
    intros sub'; simpl; try done; try apply IH.
  destruct (decide (Some sub = selectedSubTopic s)); [done|].
  intros [= <-]. exists t, k. split; [done|].
  rewrite Hsel in Hk. apply sorted_entries_elem_of in Hk; [done|].
  apply subTopics_NoDup.
Qed.

(** C7.  Selecting a topic (a new one, the same one or none) clears the
    selected sub-topic and the selected tag; selecting a tag clears the
    selected topic and sub-topic.  Hence a sub-topic selected before
    another topic is chosen is cleared.  In every selection that the
    controls on screen can lead to, a selected sub-topic comes with a
    selected, non-empty topic and a selected tag comes without topic and
    sub-topic; while the collection stays as it is, the selected
    sub-topic is one the collection has under the selected topic. *)
Theorem selection_cascade :
  (forall t s,
     selectedTopic (handleTopicSelection t s) = t
     /\ selectedSubTopic (handleTopicSelection t s) = None
     /\ selectedTag (handleTopicSelection t s) = None
     /\ searchQuery (handleTopicSelection t s) = searchQuery s)
  /\ (forall tag s,
        selectedTag (handleTagClick tag s) = Some tag
        /\ selectedTopic (handleTagClick tag s) = None
        /\ selectedSubTopic (handleTagClick tag s) = None
        /\ searchQuery (handleTagClick tag s) = searchQuery s)
  /\ (forall sub t s,
        selectedSubTopic
          (handleTopicSelection t (setSelectedSubTopic (Some sub) s))
        = None)
  /\ (forall s, reachable s -> consistent s)
  /\ (forall papers s, reachable_in papers s -> offered_under papers s).
Proof.
  split_and!; [done | done | done | |].
  - apply reachable_consistent.
  - apply reachable_in_offered.
Qed.

(** ** Stored records *)

(** C8.  On load, a record whose topic is missing (absent, null or empty)
    gets the first of its tags as topic when it has a tag and the fixed
    label otherwise; a record without tags gets the empty list; a topic
    and tags that are there, and every other field, are kept.  The
    upgrade is idempotent: loading what is stored after a load gives the
    same paper again.  A record that conforms (non-empty topic, tags
    present) is not altered: it is stored back as it was. *)
Theorem load_upgrade (p : StoredPaper) :
  (stored_topic p = None \/ stored_topic p = Some [] ->
     forall t ts, stored_tags p = Some (t :: ts) -> topic (migrate p) = t)
  /\ (stored_topic p = None \/ stored_topic p = Some [] ->
        stored_tags p = None \/ stored_tags p = Some [] ->
        topic (migrate p) = fallback_topic)
  /\ (forall t, stored_topic p = Some t -> t <> [] -> topic (migrate p) = t)
  /\ fallback_topic = str "Biology"
  /\ (stored_tags p = None -> tags (migrate p) = [])
  /\ (forall g, stored_tags p = Some g -> tags (migrate p) = g)
  /\ (id (migrate p) = stored_id p /\ url (migrate p) = stored_url p
      /\ title (migrate p) = stored_title p
      /\ summary (migrate p) = stored_summary p
      /\ authors (migrate p) = stored_authors p
      /\ subTopic (migrate p) = stored_subTopic p
      /\ journal (migrate p) = stored_journal p
      /\ publishDate (migrate p) = stored_publishDate p
      /\ addedAt (migrate p) = stored_addedAt p)
  /\ migrate (store (migrate p)) = migrate p
  /\ (conforms p -> store (migrate p) = p)
  /\ (forall q : Paper, topic q <> [] -> migrate (store q) = q).
Proof.
  split_and!; try done.
  - intros [Ht | Ht] t ts Hg; unfold migrate; simpl; by rewrite Ht, Hg.
  - intros [Ht | Ht] [Hg | Hg]; unfold migrate; simpl; by rewrite Ht, Hg.
  - intros t Ht Hne. unfold migrate. simpl. rewrite Ht. simpl.
    by destruct t.
  - intros Hg. unfold migrate. simpl. by rewrite Hg.
  - intros g Hg. unfold migrate. simpl. by rewrite Hg.
  - destruct p as [i u ti su au [[|c t]|] sb [[|[|c' g] gs]|] j d a];
      reflexivity.
  - intros [(t & Ht & Hne) (g & Hg)]. destruct p; simpl in *. subst.
    destruct t; [done | reflexivity].
  - intros [i u ti su au [|c t] sb g j d a] Hq; [done | reflexivity].
Qed.

(** The examples of the design. *)
Example legacy_records_upgraded :
  topic (migrate sample_legacy_tagged) = str "fMRI"
  /\ topic (migrate sample_legacy_bare) = str "Biology"
  /\ tags (migrate sample_legacy_bare) = [].
Proof. by vm_compute. Qed.

(** ** Operations on the collection *)

Lemma handleDeletePaper_sublist (i : jsstring) (prev : list Paper) :
  handleDeletePaper i prev `sublist_of` prev.
Proof. apply sublist_filter. Qed.

Lemma handleUpdateMetadata_lookup (i newTopic : jsstring)
    (newSubTopic : option jsstring) (newTags : list jsstring)
    (prev : list Paper) (n : nat) (p : Paper) :
  prev !! n = Some p ->
  handleUpdateMetadata i newTopic newSubTopic newTags prev !! n
  = Some (if decide (id p = i)
          then {| id := id p; url := url p; title := title p;
                  summary := summary p; authors := authors p;
                  topic := newTopic; subTopic := newSubTopic;
                  tags := newTags; journal := journal p;
                  publishDate := publishDate p; addedAt := addedAt p |}
          else p).
Proof.
  intros H. unfold handleUpdateMetadata. by rewrite list_lookup_fmap, H.
Qed.

Lemma handleUpdateMetadata_identity (i newTopic : jsstring)
    (newSubTopic : option jsstring) (newTags : list jsstring)
    (prev : list Paper) :
  identity <$> handleUpdateMetadata i newTopic newSubTopic newTags prev
  = identity <$> prev.
Proof.
  unfold handleUpdateMetadata. rewrite <- list_fmap_compose.
  apply list_fmap_ext. intros n p _. simpl. by destruct (decide (id p = i)).
Qed.

(** C9.  An update of the metadata keeps the length and the order of the
    collection.  At every position, the paper whose id is the given one
    gets the new topic, sub-topic and tags and keeps its id, url, title,
    summary, authors, journal, publish date and [addedAt]; any other paper
    stays as it is.  None of the three operations on the collection
    changes the id or the [addedAt] of a paper that is in it: an update
    keeps the list of these pairs, a deletion leaves a sublist of the
    collection, an addition puts the new paper in front of it. *)
Theorem update_frame (i newTopic : jsstring)
    (newSubTopic : option jsstring) (newTags : list jsstring)
    (prev : list Paper) :
  length (handleUpdateMetadata i newTopic newSubTopic newTags prev)
  = length prev
  /\ (forall n p, prev !! n = Some p ->
        exists p',
          handleUpdateMetadata i newTopic newSubTopic newTags prev !! n
          = Some p'
          /\ id p' = id p /\ url p' = url p /\ title p' = title p
          /\ summary p' = summary p /\ authors p' = authors p
          /\ journal p' = journal p /\ publishDate p' = publishDate p
          /\ addedAt p' = addedAt p
          /\ (id p = i ->
                topic p' = newTopic /\ subTopic p' = newSubTopic
                /\ tags p' = newTags)
          /\ (id p <> i -> p' = p))
  /\ (forall op,
        match op with
        | op_add newPaper => apply_op op prev = newPaper :: prev
        | op_delete j => apply_op op prev `sublist_of` prev
        | op_update j t s g =>
            identity <$> apply_op op prev = identity <$> prev
        end).
Proof.
  split_and!.
  - unfold handleUpdateMetadata. apply length_fmap.
  - intros n p H. eexists. split; [by apply handleUpdateMetadata_lookup|].
    destruct (decide (id p = i)); simpl; split_and!; done.
  - intros [newPaper | j | j t s g]; simpl.
    + done.
    + apply handleDeletePaper_sublist.
    + apply handleUpdateMetadata_identity.
Qed.

(** C10.  Deleting by id leaves exactly the papers of the collection whose
    id differs from the given one, as they were and in the order they
    had; what is removed is exactly the papers with that id.  When no
    paper has the id, the collection is left as it is. *)
Theorem delete_frame (i : jsstring) (prev : list Paper) :
  (forall p, p ∈ handleDeletePaper i prev <-> p ∈ prev /\ id p <> i)
  /\ handleDeletePaper i prev `sublist_of` prev
  /\ prev ≡ₚ handleDeletePaper i prev ++ filter (fun p => id p = i) prev
  /\ (forall j, j <> i ->
        filter (fun p => id p = j) (handleDeletePaper i prev)
        = filter (fun p => id p = j) prev)
  /\ ((forall p, p ∈ prev -> id p <> i) -> handleDeletePaper i prev = prev).
Proof. clear toLowerCase.
  unfold handleDeletePaper. split_and!.
  - intros p. rewrite list_elem_of_filter. tauto.
  - apply sublist_filter.
  - rewrite <- (filter_app_complement (fun p => id p <> i) prev) at 1.
    f_equiv. erewrite list_filter_iff; [done|].
    intros p. simpl. split; [apply dec_stable | intros Hp Hne; by apply Hne].
  - intros j Hj. rewrite list_filter_filter. apply list_filter_iff.
    intros p. split; [tauto | intros H; split; [done | congruence]].
  - intros H. induction prev as [|p prev IH]; [done|].
    rewrite filter_cons_True.
    + f_equal. apply IH. intros q Hq. apply H. by right.
    + apply H. by left.
Qed.

(** ** The examples of the design, evaluated *)

Example topic_counts_example :
  sortedTopics sample_collection = [(str "A", Num 2); (str "B", Num 1)].
Proof. reflexivity. Qed.

Example newest_first_example :
  id <$> filteredPapers sample_collection initial_selection
  = [str "p3"; str "p2"; str "p1"].
Proof. reflexivity. Qed.

Example tag_view_example :
  id <$> filteredPapers sample_collection
           (handleTagClick (str "neuroscience") initial_selection)
  = [str "p3"; str "p1"].
Proof. reflexivity. Qed.

(** A sub-topic can be selected: the side bar offers X under topic A. *)
Example subTopic_selection_reachable :
  reachable_in sample_collection sample_selection_sub.
Proof.
  assert (reachable_in sample_collection
            (handleTopicSelection (Some (str "A")) initial_selection))
    as Htopic.
  { eapply reachable_in_step; [apply reachable_in_initial|].
    apply (click_topic sample_collection initial_selection (str "A")
             (Num 2)).
    rewrite topic_counts_example. by left. }
  eapply reachable_in_step; [exact Htopic|].
  refine (click_subTopic sample_collection
            (handleTopicSelection (Some (str "A")) initial_selection)
            (str "A") (Num 2) (str "X") (Num 1) _ _ _).
  - rewrite topic_counts_example. by left.
  - reflexivity.
  - by left.
Qed.

Example fenced_block_example :
  extract (str "Here you go: ```json {} ``` Done.") = str "{}".
Proof. reflexivity. Qed.

(** The first block ends at the first fence after its opening fence. *)
Example first_block_example :
  extract (str "```json a ``` b ```") = str "a"
  /\ json_block (str "```json a ``` b ```") (str " a ").
Proof.
  split; [reflexivity|].
  exists [], (str " a ``` b ```"). split_and!.
  - split; [by eexists | simpl; intros; lia].
  - done.
  - split; [by exists (str " b ```")|].
    intros pre' post' E.
    do 3 (destruct pre' as [|? pre']; [by simplify_eq/=|]).
    simpl. lia.
Qed.

Example brace_span_example :
  extract (str "Sure! {} is the object.") = str "{}".
Proof. reflexivity. Qed.

Example trimmed_example : extract (str "  no object here  ")
                          = str "no object here".
Proof. reflexivity. Qed.

(** * Further properties of the code *)

(** ** The filtered view under the operations on the collection *)

Section sorting_more.
Context {A : Type} (key : A -> Z).

Lemma sort_insert_front (x : A) (l : list A) :
  Forall (fun y => (key y <= key x)%Z) l ->
  sort_insert (by_key_desc key) x l = x :: l.
Proof.
  destruct 1 as [|y l Hy _]; simpl; [done|].
  unfold by_key_desc. destruct (Z.leb_spec (key y - key x) 0); [done | lia].
Qed.

Lemma Array_sort_of_sorted (l : list A) :
  StronglySorted (fun a b => (key b <= key a)%Z) l ->
  Array_sort (by_key_desc key) l = l.
Proof.
  induction 1 as [|x l Hs IH Hx]; [done|].
  rewrite Array_sort_cons, IH. by apply sort_insert_front.
Qed.

Lemma sort_insert_filter (P : A -> Prop) `{!forall a, Decision (P a)}
    (x : A) (l : list A) :
  StronglySorted (fun a b => (key b <= key a)%Z) l ->
  filter P (sort_insert (by_key_desc key) x l)
  = if decide (P x) then sort_insert (by_key_desc key) x (filter P l)
    else filter P l.
Proof.
  induction 1 as [|y l Hs IH Hy]; simpl.
  - rewrite filter_cons. by destruct (decide (P x)).
  - unfold by_key_desc at 1.
    destruct (Z.leb_spec (key y - key x) 0) as [Hle | Hgt].
    + rewrite (filter_cons _ x). destruct (decide (P x)); [|done].
      rewrite sort_insert_front; [done|].
      apply Forall_forall. intros z [_ Hz]%list_elem_of_filter.
      apply elem_of_cons in Hz as [-> | Hz]; [lia|].
      rewrite Forall_forall in Hy. specialize (Hy z Hz). simpl in Hy. lia.
    + rewrite (filter_cons _ y), IH, (filter_cons _ y).
      destruct (decide (P x)), (decide (P y)); try done.
      simpl. unfold by_key_desc at 2.
      destruct (Z.leb_spec (key y - key x) 0); [lia | done].
Qed.

Lemma Array_sort_filter (P : A -> Prop) `{!forall a, Decision (P a)}
    (l : list A) :
  filter P (Array_sort (by_key_desc key) l)
  = Array_sort (by_key_desc key) (filter P l).
Proof.
  induction l as [|x l IH]; [done|].
  rewrite Array_sort_cons, sort_insert_filter by apply Array_sort_sorted.
  rewrite filter_cons, IH. by destruct (decide (P x)).
Qed.

End sorting_more.

Lemma filteredPapers_unfold (papers : list Paper) (sel : Selection) :
  filteredPapers papers sel
  = Array_sort (by_key_desc addedAt) (filter (fun p => matches sel p) papers).
Proof. reflexivity. Qed.

(** X1.  Filtering the view again with the same selection changes
    nothing: the view is a fixed point of the filter engine. *)
Theorem view_fixed_point (papers : list Paper) (sel : Selection) :
  filteredPapers (filteredPapers papers sel) sel = filteredPapers papers sel.
Proof.
  rewrite (filteredPapers_unfold (filteredPapers papers sel)).
  rewrite filteredPapers_unfold, <- Array_sort_filter.
  rewrite Array_sort_of_sorted by apply Array_sort_sorted.
  rewrite Array_sort_filter. f_equal.
  rewrite list_filter_filter. apply list_filter_iff. tauto.
Qed.

(** X2.  Deleting a paper and then viewing is the same as viewing and
    then taking the papers with that id out of the view: order and
    content of the rest of the view are as before. *)
Theorem view_after_delete (i : jsstring) (papers : list Paper)
    (sel : Selection) :
  filteredPapers (handleDeletePaper i papers) sel
  = handleDeletePaper i (filteredPapers papers sel).
Proof.
  unfold handleDeletePaper. rewrite !filteredPapers_unfold.
  rewrite Array_sort_filter. f_equal.
  rewrite !list_filter_filter. apply list_filter_iff. tauto.
Qed.

(** X3.  A paper added with a timestamp that no paper of the collection
    exceeds is shown at the top of the view when it matches the selection,
    the view of the others below it unchanged; when it does not match,
    the view stays as it was. *)
Theorem view_after_add (new : Paper) (papers : list Paper)
    (sel : Selection) :
  newest new papers ->
  filteredPapers (handleAddPaper new papers) sel
  = if matches sel new then new :: filteredPapers papers sel
    else filteredPapers papers sel.
Proof.
  intros Hnew. unfold handleAddPaper. rewrite !filteredPapers_unfold.
  destruct (matches sel new) eqn:E.
  - rewrite filter_cons_True by (by rewrite E). rewrite Array_sort_cons.
    apply sort_insert_front. apply Forall_forall. intros q Hq.
    rewrite Array_sort_perm in Hq. apply list_elem_of_filter in Hq as [_ Hq].
    unfold newest in Hnew. rewrite Forall_forall in Hnew. by apply Hnew.
  - rewrite filter_cons_False; [done|]. rewrite E. by intros [].
Qed.

(** ** Side bar counts and the view *)

Lemma filteredPapers_length (papers : list Paper) (sel : Selection) :
  length (filteredPapers papers sel)
  = length (filter (fun p => matches sel p) papers).
Proof. unfold filteredPapers. by rewrite Array_sort_perm. Qed.

Lemma entry_for_Num (k : jsstring) (occ n : Z) :
  entry_for k occ = Some (Num n) <-> plain_label k /\ n = occ /\ occ <> 0%Z.
Proof.
  unfold entry_for. rewrite plain_label_spec.
  destruct (Z.eqb_spec occ 0) as [-> | Hocc].
  { split; [done | by intros (_ & _ & ?)]. }
  destruct (decide (k = proto)) as [-> | Hp].
  { split; [done | by intros ([? _] & _)]. }
  destruct (decide (k ∈ Object_prototype_methods)) as [Hm | Hm].
  { split; [done | by intros ([_ ?] & _)]. }
  split; [by intros [= <-] | by intros (_ & -> & _)].
Qed.

Lemma sortedTopics_number (papers : list Paper) (t : jsstring) (n : Z) :
  (t, Num n) ∈ sortedTopics papers <->
  t <> [] /\ plain_label t /\ n = topic_occurrences t papers /\ (0 < n)%Z.
Proof.
  unfold sortedTopics.
  rewrite sorted_entries_elem_of by apply topics_NoDup.
  rewrite topics_own. destruct t as [|c t]; simpl.
  - split; [done | by intros [? _]].
  - rewrite entry_for_Num. unfold topic_occurrences. split.
    + intros (? & -> & ?). split_and!; try done. lia.
    + intros (_ & ? & -> & ?). split_and!; try done. lia.
Qed.

Lemma sortedSubTopics_number (papers : list Paper) (sel : option jsstring)
    (sub : jsstring) (k : Z) :
  (sub, Num k) ∈ sortedSubTopics papers sel <->
  exists t, sel = Some t /\ t <> [] /\ sub <> [] /\ plain_label sub
            /\ k = subTopic_occurrences t sub papers /\ (0 < k)%Z.
Proof.
  unfold sortedSubTopics.
  rewrite sorted_entries_elem_of by apply subTopics_NoDup.
  rewrite subTopics_own_any. destruct sel as [[|c t]|].
  - split; [done | by intros (t & [= <-] & ? & _)].
  - destruct sub as [|c' sub]; simpl.
    + split; [done | by intros (? & _ & _ & ? & _)].
    + rewrite entry_for_Num. unfold subTopic_occurrences. split.
      * intros (? & -> & ?). exists (c :: t). split_and!; try done. lia.
      * intros (t' & [= <-] & _ & _ & ? & -> & ?). split_and!; try done.
        lia.
  - split; [done | by intros (t & [=] & _)].
Qed.

(** X4.  A number that the side bar shows next to a topic is the number
    of papers in the view once that topic is selected and the search box
    is empty. *)
Theorem topic_count_is_view_size (papers : list Paper) (s : Selection)
    (t : jsstring) (n : Z) :
  (t, Num n) ∈ sortedTopics papers ->
  searchQuery s = [] ->
  Z.of_nat (length (filteredPapers papers (handleTopicSelection (Some t) s)))
  = n.
Proof.
  intros (Ht & _ & -> & _)%sortedTopics_number Hq.
  rewrite filteredPapers_length. unfold topic_occurrences. do 2 f_equal.
  apply list_filter_iff. intros p.
  rewrite Is_true_true, matches_spec.
  unfold satisfies, topic_predicate, subTopic_predicate, tag_predicate,
    search_predicate. simpl. split.
  - intros (H & _). by apply H.
  - intros <-. split_and!; try done. by intros ? [= <-].
Qed.

(** X5.  A number that the side bar shows next to a sub-topic of the
    selected topic is the number of papers in the view once that
    sub-topic is selected, no tag being selected and the search box being
    empty. *)
Theorem subTopic_count_is_view_size (papers : list Paper) (s : Selection)
    (sub : jsstring) (k : Z) :
  (sub, Num k) ∈ sortedSubTopics papers (selectedTopic s) ->
  is_set (selectedTag s) = false ->
  searchQuery s = [] ->
  Z.of_nat (length (filteredPapers papers (setSelectedSubTopic (Some sub) s)))
  = k.
Proof.
  intros (t & Ht & Hne & Hsub & _ & -> & _)%sortedSubTopics_number Htag Hq.
  rewrite filteredPapers_length. unfold subTopic_occurrences. do 2 f_equal.
  apply list_filter_iff. intros p.
  rewrite Is_true_true, matches_spec.
  unfold satisfies, topic_predicate, subTopic_predicate, tag_predicate,
    search_predicate. simpl. rewrite Ht, Hq. split.
  - intros (H1 & H2 & _). split; [by apply H1 | by apply H2].
  - intros [<- Hs]. split_and!; try done.
    + by intros ? [= <-].
    + by intros ? [= <-].
    + intros g Hg Hgne. destruct (selectedTag s) as [[|]|]; simplify_eq.
Qed.

(** The number a count stands for in a sum. *)
Lemma total_count_cons (e : jsstring * count) (es : list (jsstring * count)) :
  total_count (e :: es)
  = (match e.2 with Num n => n | Text _ _ => 0 end + total_count es)%Z.
Proof. simpl. by destruct (e.2). Qed.

Lemma total_count_perm (es es' : list (jsstring * count)) :
  es ≡ₚ es' -> total_count es = total_count es'.
Proof.
  induction 1 as [|e l l' _ IH|e e' l|l l' l'' _ IH1 _ IH2].
  - done.
  - by rewrite !total_count_cons, IH.
  - rewrite !total_count_cons. lia.
  - congruence.
Qed.

Lemma total_count_define (k : jsstring) (v : count) (d : dict) :
  total_count (define_property k v d)
  = (total_count d
     - match own_property k d with Some (Num n) => n | _ => 0 end
     + match v with Num n => n | Text _ _ => 0 end)%Z.
Proof.
  induction d as [|[k' v'] d IH]; cbn [define_property own_property].
  - rewrite total_count_cons. simpl. lia.
  - destruct (decide (k = k')) as [-> | Hne]; rewrite !total_count_cons;
      simpl; [destruct v'; lia|].
    rewrite IH. lia.
Qed.

(** Plain labels hold numbers and the other labels hold texts. *)
Lemma tally_sorts (key : Paper -> option jsstring) (papers : list Paper)
    (d : dict) :
  (forall k c, own_property k d = Some c ->
     (plain_label k <-> exists n, c = Num n)) ->
  (forall k c, own_property k (tally key d papers) = Some c ->
     (plain_label k <-> exists n, c = Num n))
  /\ total_count (tally key d papers)
     = (total_count d
        + Z.of_nat
            (length
               (filter
                  (fun p => is_Some (key p)
                            /\ (default [] (key p) ∉ Object_prototype_keys))
                  papers)))%Z.
Proof.
  revert d. induction papers as [|p papers IH]; intros d Hd.
  - split; [done | simpl; lia].
  - rewrite tally_cons, filter_cons.
    destruct (key p) as [k|] eqn:E.
    2: { rewrite decide_False by (by intros [[? ?] _]). by apply IH. }
    assert (forall k' c,
              own_property k' (dict_set k (increment (dict_get k d)) d)
              = Some c -> (plain_label k' <-> exists n, c = Num n)) as Hd'.
    { intros k' c. destruct (decide (k = k')) as [<- | Hne].
      2: { rewrite own_dict_set_ne by done. apply Hd. }
      unfold dict_set, dict_get.
      destruct (own_property k d) as [c0|] eqn:E0.
      - assert (own_property k (define_property k (increment (stored c0)) d)
                = Some c -> plain_label k <-> exists n, c = Num n) as H.
        { rewrite own_define_eq. intros [= <-].
          rewrite (Hd k c0 E0). destruct c0; simpl; split;
            intros [? ?]; try done; eauto. }
        by destruct (decide (k = proto)).
      - destruct (decide (k = proto)) as [-> | Hp]; [by rewrite E0|].
        rewrite own_define_eq. intros [= <-]. unfold plain_label.
        destruct (decide (k ∈ Object_prototype_keys)) as [Hk | Hk]; simpl.
        + split; [done | by intros [? ?]].
        + split; [eauto | done]. }
    destruct (IH _ Hd') as [Hwf ->]. split; [done|].
    assert (total_count (dict_set k (increment (dict_get k d)) d)
            = (total_count d
               + if decide (k ∈ Object_prototype_keys) then 0 else 1)%Z)
      as ->.
    { unfold dict_set, dict_get.
      destruct (own_property k d) as [c0|] eqn:E0.
      - assert (total_count (define_property k (increment (stored c0)) d)
                = (total_count d
                   + if decide (k ∈ Object_prototype_keys) then 0 else 1)%Z)
          as H.
        { rewrite total_count_define, E0.
          pose proof (Hd k c0 E0) as Hk. unfold plain_label in Hk.
          destruct c0 as [n|k0 ones]; simpl.
          - rewrite decide_False by (apply Hk; eauto). lia.
          - destruct (decide (k ∈ Object_prototype_keys)) as [|Hn]; [lia|].
            apply Hk in Hn as [? ?]. done. }
        by destruct (decide (k = proto)).
      - destruct (decide (k = proto)) as [-> | Hp].
        + rewrite decide_True; [lia | apply list_elem_of_here].
        + rewrite total_count_define, E0.
          destruct (decide (k ∈ Object_prototype_keys)); simpl; lia. }
    simpl default.
    destruct (decide (k ∈ Object_prototype_keys)) as [Hk | Hk].
    + rewrite decide_False; [lia|]. by intros [_ ?].
    + rewrite decide_True by (split; [by eexists | done]).
      simpl length. lia.
Qed.

(** X6.  The side bar lists exactly the non-empty topics, [__proto__]
    apart, that some paper has.  The count next to a listed topic is a
    number exactly when the topic is not the name of a method of
    [Object.prototype], and the numbers add up to the number of papers
    whose topic is neither empty nor the name of a member of
    [Object.prototype]: no such paper is counted twice and none is left
    out. *)
Theorem sidebar_topics_cover_collection (papers : list Paper) :
  (forall t, (exists c, (t, c) ∈ sortedTopics papers)
             <-> t <> [] /\ t <> proto
                 /\ exists p, p ∈ papers /\ topic p = t)
  /\ (forall t c, (t, c) ∈ sortedTopics papers ->
        ((exists n, c = Num n) <-> (t ∉ Object_prototype_methods)))
  /\ total_count (sortedTopics papers)
     = Z.of_nat
         (length (filter (fun p => topic p <> []
                                   /\ (topic p ∉ Object_prototype_keys))
                    papers))
  /\ (total_count (sortedTopics papers) <= Z.of_nat (length papers))%Z.
Proof.
  assert (total_count (sortedTopics papers)
          = Z.of_nat
              (length (filter (fun p => topic p <> []
                                        /\ (topic p ∉ Object_prototype_keys))
                         papers)))
    as Htotal.
  { unfold sortedTopics.
    rewrite (total_count_perm _ _ (sorted_entries_perm _)).
    rewrite topics_tally.
    destruct (tally_sorts topic_key papers []) as [_ ->]; [done|].
    simpl total_count. rewrite Z.add_0_l. do 2 f_equal.
    apply list_filter_iff. intros p. unfold topic_key.
    destruct (topic p) as [|c t]; simpl.
    - split; [by intros [[? ?] _] | by intros [? _]].
    - split; [by intros [_ ?] | intros [_ ?]; split; [by eexists | done]]. }
  assert (forall t c, (t, c) ∈ sortedTopics papers <->
            t <> [] /\ entry_for t (topic_occurrences t papers) = Some c)
    as Hentry.
  { intros t c. unfold sortedTopics.
    rewrite sorted_entries_elem_of by apply topics_NoDup.
    rewrite topics_own. destruct t; simpl; split; try done.
    - by intros [? _].
    - by intros [_ ?]. }
  split_and!; [| |done|].
  - intros t. split.
    + intros [c [Ht Hc]%Hentry]. split; [done|].
      split; [intros ->; by rewrite entry_for_proto in Hc|].
      apply entry_for_Some, occurrences_elem_of in Hc as (p & ? & ?). eauto.
    + intros (Ht & Hp & p & Hin & Htp).
      assert (topic_occurrences t papers <> 0%Z) as Hocc.
      { unfold topic_occurrences.
        assert (p ∈ filter (fun p => topic p = t) papers) as H
          by (by apply list_elem_of_filter).
        destruct (filter (fun p => topic p = t) papers); [|simpl; lia].
        by apply elem_of_nil in H. }
      assert (is_Some (entry_for t (topic_occurrences t papers))) as [c Hc].
      { unfold entry_for.
        destruct (Z.eqb_spec (topic_occurrences t papers) 0); [done|].
        rewrite decide_False by done.
        by destruct (decide (t ∈ Object_prototype_methods)). }
      exists c. by apply Hentry.
  - intros t c [Ht Hc]%Hentry. unfold entry_for in Hc.
    destruct (topic_occurrences t papers =? 0)%Z; [done|].
    destruct (decide (t = proto)); [done|].
    destruct (decide (t ∈ Object_prototype_methods)); simplify_eq; split;
      try done; eauto. by intros [? ?].
  - rewrite Htotal. apply inj_le, length_filter.
Qed.

(** ** Invariants of the collection *)


Lemma handleUpdateMetadata_fmap {B : Type} (f : Paper -> B)
    (i newTopic : jsstring) (newSubTopic : option jsstring)
    (newTags : list jsstring) (prev : list Paper) :
  (forall p, f (with_metadata p newTopic newSubTopic newTags) = f p) ->
  f <$> handleUpdateMetadata i newTopic newSubTopic newTags prev = f <$> prev.
Proof.
  intros Hf. unfold handleUpdateMetadata. rewrite <- list_fmap_compose.
  apply list_fmap_ext. intros n p _. simpl.
  destruct (decide (id p = i)); [apply Hf | done].
Qed.

Lemma handleDeletePaper_fmap_sublist {B : Type} (f : Paper -> B)
    (i : jsstring) (prev : list Paper) :
  f <$> handleDeletePaper i prev `sublist_of` f <$> prev.
Proof. apply fmap_sublist, handleDeletePaper_sublist. Qed.


(** X8.  Ids stay unique: a submission whose fresh id is not yet in the
    collection, a deletion and an update of metadata all keep a collection
    free of repeated ids. *)
Theorem unique_ids_kept (papers : list Paper) :
  unique_ids papers ->
  (forall acquired uuid now,
     uuid ∉ id <$> papers ->
     unique_ids
       (collection_after papers (handleSubmit acquired papers uuid now)))
  /\ (forall i, unique_ids (handleDeletePaper i papers))
  /\ (forall i newTopic newSubTopic newTags,
        unique_ids
          (handleUpdateMetadata i newTopic newSubTopic newTags papers)).
Proof.
  intros Hu. split_and!.
  - intros acquired uuid now Hfresh. unfold handleSubmit.
    destruct acquired as [[paperUrl [m|]]|message]; try done.
    destruct (isDuplicate papers m); [done|].
    unfold collection_after, handleAddPaper, unique_ids.
    cbn [added]. rewrite fmap_cons. by apply NoDup_cons.
  - intros i. eapply sublist_NoDup; [exact Hu|].
    apply handleDeletePaper_fmap_sublist.
  - intros i newTopic newSubTopic newTags. unfold unique_ids.
    by rewrite handleUpdateMetadata_fmap.
Qed.

Lemma StronglySorted_sublist {A : Type} (R : A -> A -> Prop)
    (l1 l2 : list A) :
  l1 `sublist_of` l2 -> StronglySorted R l2 -> StronglySorted R l1.
Proof.
  induction 1 as [|x l1 l2 Hsub IH|x l1 l2 Hsub IH]; intros Hs.
  - constructor.
  - apply StronglySorted_inv in Hs as [Hs Hx]. constructor; [by apply IH|].
    apply Forall_forall. intros y Hy. rewrite Forall_forall in Hx.
    apply Hx. by eapply elem_of_sublist.
  - apply StronglySorted_inv in Hs as [Hs _]. by apply IH.
Qed.

Lemma newest_first_fmap (l l' : list Paper) :
  addedAt <$> l = addedAt <$> l' -> newest_first l -> newest_first l'.
Proof.
  unfold newest_first. revert l'.
  induction l as [|p l IH]; intros [|p' l'] E Hs; simplify_eq/=;
    [constructor|].
  apply StronglySorted_inv in Hs as [Hs Hp]. constructor; [by apply IH|].
  apply Forall_forall. intros q Hq.
  assert (addedAt q ∈ addedAt <$> l') as Hin by (by apply list_elem_of_fmap_2).
  rewrite <- H0 in Hin. apply list_elem_of_fmap in Hin as (q' & -> & Hq').
  rewrite Forall_forall in Hp. rewrite <- H. by apply Hp.
Qed.

(** X9.  When the clock never runs backwards, the collection itself stays
    ordered newest first: a submission stamped no earlier than every
    paper, a deletion and an update of metadata keep that order, and the
    view of such a collection is the matching papers in collection order,
    the sort moving nothing. *)
Theorem collection_stays_newest_first (papers : list Paper) :
  newest_first papers ->
  (forall acquired uuid now,
     Forall (fun q => (addedAt q <= now)%Z) papers ->
     newest_first
       (collection_after papers (handleSubmit acquired papers uuid now)))
  /\ (forall i, newest_first (handleDeletePaper i papers))
  /\ (forall i newTopic newSubTopic newTags,
        newest_first
          (handleUpdateMetadata i newTopic newSubTopic newTags papers))
  /\ (forall sel,
        filteredPapers papers sel = filter (fun p => matches sel p) papers).
Proof.
  intros Hs. split_and!.
  - intros acquired uuid now Hnow. unfold handleSubmit.
    destruct acquired as [[paperUrl [m|]]|message]; try done.
    destruct (isDuplicate papers m); [done|].
    unfold collection_after, handleAddPaper. cbn [added].
    by constructor.
  - intros i. unfold newest_first.
    eapply StronglySorted_sublist; [|exact Hs].
    apply handleDeletePaper_sublist.
  - intros i newTopic newSubTopic newTags.
    eapply newest_first_fmap; [|exact Hs]. symmetry.
    by apply handleUpdateMetadata_fmap.
  - intros sel. rewrite filteredPapers_unfold.
    apply Array_sort_of_sorted.
    eapply StronglySorted_sublist; [|exact Hs].
    apply sublist_filter.
Qed.

Lemma unique_ids_split (papers : list Paper) (p : Paper) :
  unique_ids papers -> p ∈ papers ->
  exists l1 l2, papers = l1 ++ p :: l2
                /\ (forall q, q ∈ l1 ++ l2 -> id q <> id p).
Proof.
  intros Hu (l1 & l2 & ->)%list_elem_of_split. exists l1, l2.
  split; [done|]. intros q Hq Heq. unfold unique_ids in Hu.
  rewrite fmap_app, fmap_cons in Hu.
  apply NoDup_app in Hu as (_ & H1 & H2).
  apply NoDup_cons in H2 as [H2 _].
  apply elem_of_app in Hq as [Hq | Hq].
  - apply (H1 (id p)).
    + rewrite <- Heq. by apply list_elem_of_fmap_2.
    + by left.
  - apply H2. rewrite <- Heq. by apply list_elem_of_fmap_2.
Qed.

Lemma handleDeletePaper_others (i : jsstring) (l : list Paper) :
  (forall q, q ∈ l -> id q <> i) -> handleDeletePaper i l = l.
Proof.
  intros H. unfold handleDeletePaper. induction l as [|q l IH]; [done|].
  rewrite filter_cons_True by (apply H; by left).
  f_equal. apply IH. intros r Hr. apply H. by right.
Qed.

Lemma handleUpdateMetadata_others (i newTopic : jsstring)
    (newSubTopic : option jsstring) (newTags : list jsstring)
    (l : list Paper) :
  (forall q, q ∈ l -> id q <> i) ->
  handleUpdateMetadata i newTopic newSubTopic newTags l = l.
Proof.
  intros H. unfold handleUpdateMetadata. induction l as [|q l IH]; [done|].
  rewrite fmap_cons, decide_False by (apply H; by left).
  f_equal. apply IH. intros r Hr. apply H. by right.
Qed.

Lemma unique_id_effects (papers : list Paper) (p : Paper) :
  unique_ids papers -> p ∈ papers ->
  exists l1 l2,
    papers = l1 ++ p :: l2
    /\ handleDeletePaper (id p) papers = l1 ++ l2
    /\ forall newTopic newSubTopic newTags,
         handleUpdateMetadata (id p) newTopic newSubTopic newTags papers
         = l1 ++ with_metadata p newTopic newSubTopic newTags :: l2.
Proof.
  intros Hu Hp. destruct (unique_ids_split papers p Hu Hp)
    as (l1 & l2 & -> & Hother).
  exists l1, l2. split_and!; [done | |].
  - unfold handleDeletePaper. rewrite filter_app, filter_cons_False by auto.
    f_equal; apply handleDeletePaper_others; intros q Hq; apply Hother;
      apply elem_of_app; auto.
  - intros newTopic newSubTopic newTags. unfold handleUpdateMetadata.
    rewrite fmap_app, fmap_cons, decide_True by done.
    f_equal; [|f_equal]; apply handleUpdateMetadata_others; intros q Hq;
      apply Hother; apply elem_of_app; auto.
Qed.

(** X10.  In a collection with unique ids, deleting by the id of a paper
    takes out that one paper and nothing else, and updating by its id
    rewrites that one paper in place and nothing else. *)
Theorem one_paper_touched (papers : list Paper) (p : Paper) :
  unique_ids papers -> p ∈ papers ->
  exists l1 l2,
    papers = l1 ++ p :: l2
    /\ handleDeletePaper (id p) papers = l1 ++ l2
    /\ forall newTopic newSubTopic newTags,
         handleUpdateMetadata (id p) newTopic newSubTopic newTags papers
         = l1 ++ with_metadata p newTopic newSubTopic newTags :: l2.
Proof. apply unique_id_effects. Qed.

Lemma one_paper_touched_witness :
  exists l1 l2,
    sample_collection
    = l1 ++ sample_paper "p2" "A" None [] 2%Z :: l2
    /\ handleDeletePaper (str "p2") sample_collection = l1 ++ l2
    /\ forall newTopic newSubTopic newTags,
         handleUpdateMetadata (str "p2") newTopic newSubTopic newTags
           sample_collection
         = l1 ++ with_metadata (sample_paper "p2" "A" None [] 2%Z)
                   newTopic newSubTopic newTags :: l2.
Proof.
  apply (one_paper_touched sample_collection
           (sample_paper "p2" "A" None [] 2%Z)).
  - unfold unique_ids.
    refine (bool_decide_unpack (NoDup (id <$> sample_collection)) _).
    vm_compute. exact I.
  - unfold sample_collection. right. left.
Defined.

Lemma topic_occurrences_app (t : jsstring) (l1 l2 : list Paper) :
  topic_occurrences t (l1 ++ l2)
  = (topic_occurrences t l1 + topic_occurrences t l2)%Z.
Proof.
  unfold topic_occurrences. rewrite filter_app, length_app. lia.
Qed.

Lemma topic_occurrences_cons (t : jsstring) (p : Paper) (l : list Paper) :
  topic_occurrences t (p :: l)
  = (indicator (topic p) t + topic_occurrences t l)%Z.
Proof.
  unfold topic_occurrences, indicator. rewrite filter_cons.
  destruct (decide (topic p = t)); simpl length; lia.
Qed.

(** X11.  The topic counts follow the operations: in a collection with
    unique ids, moving a paper to another topic takes one occurrence from
    its old topic and gives one to the new topic, deleting it takes one
    from its topic, and adding a paper gives one to its topic; every other
    count stays as it was. *)
Theorem topic_counts_follow (papers : list Paper) (p : Paper) :
  unique_ids papers -> p ∈ papers ->
  (forall t newTopic newSubTopic newTags,
     topic_occurrences t
       (handleUpdateMetadata (id p) newTopic newSubTopic newTags papers)
     = (topic_occurrences t papers - indicator (topic p) t
        + indicator newTopic t)%Z)
  /\ (forall t,
        topic_occurrences t (handleDeletePaper (id p) papers)
        = (topic_occurrences t papers - indicator (topic p) t)%Z)
  /\ (forall t new,
        topic_occurrences t (handleAddPaper new papers)
        = (topic_occurrences t papers + indicator (topic new) t)%Z).
Proof.
  intros Hu Hp.
  destruct (unique_id_effects papers p Hu Hp) as (l1 & l2 & E & Hd & Hup).
  split_and!.
  - intros t newTopic newSubTopic newTags. rewrite Hup, E.
    rewrite !topic_occurrences_app, !topic_occurrences_cons. simpl. lia.
  - intros t. rewrite Hd, E.
    rewrite !topic_occurrences_app, !topic_occurrences_cons. lia.
  - intros t new. unfold handleAddPaper.
    rewrite topic_occurrences_cons. lia.
Qed.

Lemma topic_counts_follow_witness :
  topic_occurrences (str "B")
    (handleUpdateMetadata (str "p2") (str "B") None [] sample_collection)
  = (topic_occurrences (str "B") sample_collection
     - indicator (str "A") (str "B") + indicator (str "B") (str "B"))%Z.
Proof.
  apply (topic_counts_follow sample_collection
           (sample_paper "p2" "A" None [] 2%Z)).
  - unfold unique_ids.
    refine (bool_decide_unpack (NoDup (id <$> sample_collection)) _).
    vm_compute. exact I.
  - unfold sample_collection. right. left.
Defined.

(** ** parseResponse and the two analysis functions *)

Lemma validate_result_text (text text' js : jsstring) :
  (validate text js).1 = (validate text' js).1.
Proof. unfold validate. by destruct (validate_body js) as [[e|d] log]. Qed.

Lemma validate_returns (text js : jsstring) (d : json) :
  (validate text js).1 = Return d ->
  JSON_parse js = Some d /\ truthy (prop d (str "title")) = true.
Proof.
  destruct (JSON_parse js) as [d'|] eqn:Hp.
  - destruct (truthy (prop d' (str "title"))) eqn:Ht.
    + rewrite (validate_title text js d' Hp Ht). by intros [= ->].
    + rewrite (missing_title_failure_is_generic text js d' Hp Ht). done.
  - by rewrite validate_syntax_error.
Qed.

Lemma parseResponse_returns (text : option jsstring) (d : json) :
  (parseResponse text).1 = Return d ->
  exists t, text = Some t /\ t <> []
            /\ JSON_parse (extract t) = Some d
            /\ truthy (prop d (str "title")) = true.
Proof.
  destruct text as [[|c t]|]; simpl; try done.
  intros [H1 H2]%validate_returns. exists (c :: t). done.
Qed.

Lemma parseResponse_throws (text : option jsstring) (m : jsstring) :
  (parseResponse text).1 = Throw m ->
  m = msg_no_response \/ m = msg_parse_failed.
Proof.
  destruct text as [[|c t]|]; simpl; try (intros [= <-]; by left).
  unfold validate. destruct (validate_body _) as [[e|d] log]; simpl.
  - intros [= <-]. by right.
  - done.
Qed.

(** X12.  [parseResponse] never hands out a record without a title: what
    it returns is the object parsed from the extracted string of a text
    that is not empty, and the [title] of that object is truthy.  When it
    fails, the error is one of its two fixed messages. *)
Theorem parseResponse_only_titled (text : option jsstring) :
  (forall d, (parseResponse text).1 = Return d ->
     (exists t, text = Some t /\ t <> []
                /\ JSON_parse (extract t) = Some d)
     /\ truthy (prop d (str "title")) = true
     /\ (exists members, d = JObject members))
  /\ (forall m, (parseResponse text).1 = Throw m ->
        m = msg_no_response \/ m = msg_parse_failed).
Proof.
  split; [|apply parseResponse_throws].
  intros d H. destruct (parseResponse_returns text d H)
    as (t & Ht & Hne & Hp & Htitle).
  split_and!; [eauto | done |].
  destruct d; try done. eauto.
Qed.

Lemma parseResponse_only_titled_witness :
  truthy (prop (JObject [(str "title",
                          JString (str "Attention Is All You Need"));
                         (str "journal", JString (str "NeurIPS"));
                         (str "publishDate", JString (str "2017"))])
            (str "title")) = true.
Proof.
  apply (proj1 (parseResponse_only_titled (Some sample_title_only))).
  by vm_compute.
Defined.

Lemma parseResponse_nonempty (text : jsstring) :
  text <> [] -> parseResponse (Some text) = validate text (extract text).
Proof. by destruct text. Qed.

(** X13.  Prose around a brace-delimited object does not change the
    outcome: for a text without a JSON-tagged fenced block, made of an
    object text that begins with an opening brace and ends with a closing
    brace, preceded by text without opening brace and followed by text
    without closing brace, [parseResponse] returns or throws what it
    returns or throws for the object text alone. *)
Theorem prose_around_object_ignored (pre mid post : jsstring) :
  (123 ∉ pre) -> (125 ∉ post) ->
  ~ has_json_block (pre ++ (123 :: mid ++ [125]) ++ post) ->
  (parseResponse (Some (pre ++ (123 :: mid ++ [125]) ++ post))).1
  = (parseResponse (Some (123 :: mid ++ [125]))).1.
Proof.
  intros Hpre Hpost Hblock.
  assert (forall t, ~ has_json_block t -> match_json_block t = None) as Hno.
  { intros t H. destruct (match_json_block t) eqn:E; [|done].
    exfalso. apply H, match_json_block_complete. eauto. }
  assert (extract (pre ++ (123 :: mid ++ [125]) ++ post)
          = 123 :: mid ++ [125]) as E1.
  { apply extract_brace_span; [by apply Hno|].
    exists pre, mid, post. split_and!; try done.
    simpl. by rewrite <- !app_assoc. }
  assert (extract (123 :: mid ++ [125]) = 123 :: mid ++ [125]) as E2.
  { apply extract_brace_span.
    - apply Hno. intros (a & b & c & E). apply Hblock.
      exists (pre ++ a), b, (c ++ post). rewrite E.
      by rewrite <- !app_assoc.
    - exists [], mid, []. split_and!; try done; apply not_elem_of_nil. }
  rewrite !parseResponse_nonempty.
  - rewrite E1, E2. apply validate_result_text.
  - done.
  - by destruct pre.
Qed.

Lemma prose_around_object_ignored_witness :
  (parseResponse (Some (str "Here it is: " ++ sample_title_only
                        ++ str " Hope this helps."))).1
  = (parseResponse (Some sample_title_only)).1.
Proof.
  pose proof (prose_around_object_ignored (str "Here it is: ")
    (quoted (str "title") ++ str ":"
     ++ quoted (str "Attention Is All You Need") ++ str ","
     ++ quoted (str "journal") ++ str ":" ++ quoted (str "NeurIPS")
     ++ str "," ++ quoted (str "publishDate") ++ str ":"
     ++ quoted (str "2017"))
    (str " Hope this helps.")) as H.
  apply H.
  - apply (bool_decide_unpack (123 ∉ str "Here it is: ")). vm_compute.
    exact I.
  - apply (bool_decide_unpack (125 ∉ str " Hope this helps.")). vm_compute.
    exact I.
  - intros Hb%match_json_block_complete. vm_compute in Hb.
    by destruct Hb.
Defined.

Lemma parseResponse_throws_nonempty (t m : jsstring) :
  t <> [] -> (parseResponse (Some t)).1 = Throw m -> m = msg_parse_failed.
Proof.
  intros Hne. rewrite parseResponse_nonempty by done.
  unfold validate. destruct (validate_body _) as [[e|d] log]; simpl;
    [by intros [= <-] | done].
Qed.

Lemma is_set_Some (o : option jsstring) :
  is_set o = true -> exists t, o = Some t /\ t <> [].
Proof. apply is_set_true. Qed.

(** X14.  [analyzePaperUrl] returns a record only when the key is set, the
    service answered with a text that is not empty and [parseResponse]
    accepted it, so the record has a truthy title; and whatever goes
    wrong, the error it throws has a message that is not empty. *)
Theorem analyzePaperUrl_outcomes (apiKey : option jsstring)
    (call : result GenerateContentResponse) :
  (forall d, analyzePaperUrl apiKey call = Return d ->
     is_set apiKey = true
     /\ (exists response t,
           call = Return response /\ response_text response = Some t
           /\ t <> [] /\ (parseResponse (Some t)).1 = Return d)
     /\ truthy (prop d (str "title")) = true)
  /\ (forall m, analyzePaperUrl apiKey call = Throw m -> m <> []).
Proof.
  unfold analyzePaperUrl. destruct (is_set apiKey) eqn:Hkey; simpl.
  2: { split; [done | by intros m [= <-]]. }
  split.
  - intros d. destruct call as [response|message]; [|done].
    unfold analyzePaperUrl_try.
    destruct (is_set (response_text response)) eqn:Ht; simpl.
    + apply is_set_Some in Ht as (t & Ht & Hne). rewrite Ht.
      destruct ((parseResponse (Some t)).1) as [d'|m] eqn:E; [|done].
      intros [= <-]. split_and!; [done | by exists response, t |].
      by apply parseResponse_returns in E as (? & _ & _ & _ & ?).
    + destruct (candidates response) as [[|c cs]|]; try done.
      by repeat case_bool_decide.
  - intros m.
    destruct (match call with
              | Return response => analyzePaperUrl_try response
              | Throw message => Throw message
              end) as [d|message]; [done|].
    intros [= <-]. destruct message; done.
Qed.

Lemma analyzePaperUrl_outcomes_witness :
  truthy (prop (JObject [(str "title",
                          JString (str "Attention Is All You Need"));
                         (str "journal", JString (str "NeurIPS"));
                         (str "publishDate", JString (str "2017"))])
            (str "title")) = true.
Proof.
  apply (proj1 (analyzePaperUrl_outcomes (Some (str "key"))
                  (Return sample_response_titled))).
  by vm_compute.
Defined.

Lemma pdf_error_message_nonempty (message : jsstring) :
  pdf_error_message message <> [].
Proof.
  unfold pdf_error_message.
  destruct (includes message (str "413") || includes message (str "too large"));
    [done|].
  destruct (includes message (str "JSON")); [done|].
  by destruct message.
Qed.

(** X15.  [analyzePaperPdf] returns a record only with a truthy title, and
    with [url] set to what the record has as [foundUrl].  Every failure of
    [parseResponse] on the answer, a missing title included, reaches the
    caller as "AI response parsing failed. Please try again."; and no
    error it throws has an empty message. *)
Theorem analyzePaperPdf_outcomes (apiKey : option jsstring)
    (call : result GenerateContentResponse) :
  (forall a, analyzePaperPdf apiKey call = Return a ->
     truthy (prop (pdf_metadata a) (str "title")) = true
     /\ pdf_url a = prop (pdf_metadata a) (str "foundUrl"))
  /\ (forall response t m,
        is_set apiKey = true ->
        call = Return response -> response_text response = Some t ->
        t <> [] -> (parseResponse (Some t)).1 = Throw m ->
        analyzePaperPdf apiKey call = Throw msg_pdf_parsing)
  /\ (forall m, analyzePaperPdf apiKey call = Throw m -> m <> []).
Proof.
  split_and!.
  - intros a. unfold analyzePaperPdf.
    destruct (is_set apiKey); simpl; [|done].
    destruct call as [response|message]; [|done].
    unfold analyzePaperPdf_try.
    destruct (is_set (response_text response)) eqn:Ht; simpl.
    + destruct ((parseResponse (response_text response)).1) as [d|m] eqn:E;
        [|done].
      intros [= <-]. simpl. split; [|done].
      by apply parseResponse_returns in E as (? & _ & _ & _ & ?).
    + destruct (candidates response) as [[|c cs]|]; try done.
      by case_bool_decide.
  - intros response t m Hkey -> Ht Hne Hm. unfold analyzePaperPdf.
    rewrite Hkey. simpl. unfold analyzePaperPdf_try. rewrite Ht.
    replace (is_set (Some t)) with true
      by (symmetry; by apply nonempty_true).
    cbn [negb]. rewrite Hm.
    by rewrite (parseResponse_throws_nonempty t m Hne Hm).
  - intros m. unfold analyzePaperPdf.
    destruct (is_set apiKey); simpl; [|by intros [= <-]].
    destruct (match call with
              | Return response => analyzePaperPdf_try response
              | Throw message => Throw message
              end) as [d|message]; [done|].
    intros [= <-]. apply pdf_error_message_nonempty.
Qed.

Lemma analyzePaperPdf_outcomes_witness :
  analyzePaperPdf (Some (str "key")) (Return sample_response_untitled)
  = Throw msg_pdf_parsing.
Proof.
  apply (proj1 (proj2 (analyzePaperPdf_outcomes (Some (str "key"))
                         (Return sample_response_untitled)))
           sample_response_untitled sample_without_title msg_parse_failed).
  - reflexivity.
  - reflexivity.
  - reflexivity.
  - discriminate.
  - by vm_compute.
Defined.

(** ** AddPaperModal.tsx: the request *)

Lemma strip_prefix_Some (p s r : jsstring) :
  strip_prefix p s = Some r -> s = p ++ r.
Proof.
  revert s. induction p as [|a p IH]; intros [|b s]; simpl; try done.
  - by intros [= <-].
  - by intros [= <-].
  - destruct (a =? b) eqn:E; [|done]. apply N.eqb_eq in E as ->.
    intros H%IH. by f_equal.
Qed.

Lemma or_else_Some {A : Type} (a b : option A) (x : A) :
  or_else a b = Some x -> a = Some x \/ b = Some x.
Proof. destruct a; simpl; auto. Qed.

Lemma after_doi_host_Some (s r : jsstring) :
  after_doi_host s = Some r -> exists p, s = p ++ r.
Proof.
  unfold after_doi_host. intros [H|H]%or_else_Some.
  - apply bind_Some in H as (x & ->%strip_prefix_Some & ->%strip_prefix_Some).
    eexists. by rewrite app_assoc.
  - apply strip_prefix_Some in H. by eexists.
Qed.

Lemma match_doi_locator_Some (s r : jsstring) :
  match_doi_locator s = Some r -> exists p, s = p ++ r.
Proof.
  unfold match_doi_locator.
  intros [H|[H|H]%or_else_Some]%or_else_Some.
  - apply bind_Some in H as (x & ->%strip_prefix_Some
                               & (p & ->)%after_doi_host_Some).
    eexists. by rewrite app_assoc.
  - apply bind_Some in H as (x & ->%strip_prefix_Some
                               & (p & ->)%after_doi_host_Some).
    eexists. by rewrite app_assoc.
  - by apply after_doi_host_Some.
Qed.

Lemma cleanDoi_suffix (inputValue : jsstring) :
  exists p, trim inputValue = p ++ cleanDoi inputValue.
Proof.
  unfold cleanDoi.
  assert (exists p, trim inputValue
                    = p ++ default (trim inputValue)
                             (match_doi_locator (trim inputValue)))
    as (p & Hp).
  { destruct (match_doi_locator (trim inputValue)) as [r|] eqn:E; simpl.
    - by apply match_doi_locator_Some.
    - by exists []. }
  destruct (strip_prefix (str "doi:") _) as [r|] eqn:E; simpl.
  - apply strip_prefix_Some in E. exists (p ++ str "doi:").
    rewrite <- app_assoc, <- E. done.
  - by exists p.
Qed.

Lemma trimEnd_suffix (p r : jsstring) :
  trimEnd (p ++ r) = p ++ r -> trimEnd r = r.
Proof.
  intros H. destruct (trimEnd r) as [|c u] eqn:E.
  - apply trimEnd_nil_iff in E. rewrite trimEnd_blank in H by done.
    destruct (trimEnd_split p) as (w & _ & Hp).
    apply (f_equal length) in H, Hp. rewrite !length_app in *.
    destruct r; [done|]. simpl in *. lia.
  - rewrite trimEnd_app in H by by rewrite E.
    apply app_inv_head in H. by rewrite <- E.
Qed.

Lemma nonempty_true_iff (s : jsstring) : nonempty s = true <-> s <> [].
Proof. by destruct s. Qed.

Lemma nonempty_false_iff (s : jsstring) : nonempty s = false <-> s = [].
Proof. by destruct s. Qed.

Lemma locator_blank (mode : AddMode) (inputValue : jsstring) :
  blank_input inputValue -> locator mode inputValue = Throw (msg_enter mode).
Proof.
  intros H%trim_nil_iff. unfold locator. rewrite H. by destruct mode.
Qed.

Lemma locator_not_blank (mode : AddMode) (inputValue : jsstring) :
  ~ blank_input inputValue ->
  exists paperUrl,
    locator mode inputValue = Return paperUrl
    /\ paperUrl <> [] /\ tight paperUrl.
Proof.
  intros H. assert (trim inputValue <> []) as Hne.
  { intros E. by apply H, trim_nil_iff. }
  unfold locator.
  replace (nonempty (trim inputValue)) with true
    by (symmetry; by apply nonempty_true_iff).
  destruct mode; cbn [negb].
  - exists (trim inputValue). split_and!; [done | done | apply trim_tight].
  - eexists. split_and!; [done | done |].
    destruct (cleanDoi_suffix inputValue) as (p & Hp).
    destruct (cleanDoi inputValue) as [|c r] eqn:E.
    + by vm_compute.
    + rewrite <- E. apply tight_app; [done | by vm_compute | by rewrite E |].
      apply (trimEnd_suffix p). rewrite E, <- Hp. apply trim_tight.
Qed.

(** X16.  A text field that holds only white space is rejected before the
    service is asked: whatever the service would have answered,
    [handleSubmit] shows "Please enter a URL" (or "... a DOI") and hands
    no paper to [onAdd].  For any other text the service is asked about a
    locator that is not empty and has no white space around it. *)
Theorem blank_input_rejected (mode : AddMode) (inputValue : jsstring) :
  (blank_input inputValue ->
   forall analyze existingPapers uuid now,
     handleSubmit (acquire mode inputValue analyze) existingPapers uuid now
     = {| added := None; error := Some (msg_enter mode) |})
  /\ (~ blank_input inputValue ->
      exists paperUrl,
        locator mode inputValue = Return paperUrl
        /\ paperUrl <> [] /\ tight paperUrl
        /\ forall analyze,
             acquire mode inputValue analyze
             = match analyze paperUrl with
               | Return paperMetadata => Return (paperUrl, Some paperMetadata)
               | Throw message => Throw message
               end).
Proof.
  split.
  - intros H analyze existingPapers uuid now. unfold acquire.
    rewrite locator_blank by done. by destruct mode.
  - intros (paperUrl & Hl & Hne & Ht)%(locator_not_blank mode).
    exists paperUrl. split_and!; try done.
    intros analyze. unfold acquire. by rewrite Hl.
Qed.

Lemma digit_not_blank (c : N) : is_digit c = true -> isWhiteSpace c = false.
Proof.
  unfold is_digit. intros [?%N.leb_le ?%N.leb_le]%andb_true_iff.
  assert (exists k, (k < 10)%nat /\ c = 48 + N.of_nat k) as (k & Hk & ->).
  { exists (N.to_nat (c - 48)). lia. }
  do 10 (destruct k as [|k]; [by vm_compute|]). lia.
Qed.

Lemma digit_neq (a c : N) :
  is_digit c = true -> 57 < a -> (a =? c) = false.
Proof.
  unfold is_digit. intros [?%N.leb_le ?%N.leb_le]%andb_true_iff ?.
  apply N.eqb_neq. lia.
Qed.

Lemma cleanDoi_form (form : jsstring) (c : N) (r : jsstring) :
  is_digit c = true -> form ∈ doi_forms ->
  default (default (form ++ c :: r) (match_doi_locator (form ++ c :: r)))
    (strip_prefix (str "doi:")
       (default (form ++ c :: r) (match_doi_locator (form ++ c :: r))))
  = c :: r.
Proof.
  unfold is_digit. intros [?%N.leb_le ?%N.leb_le]%andb_true_iff Hform.
  assert (exists k, (k < 10)%nat /\ c = 48 + N.of_nat k) as (k & Hk & ->).
  { exists (N.to_nat (c - 48)). lia. }
  unfold doi_forms in Hform.
  repeat (apply elem_of_cons in Hform as [->|Hform]);
    [..|by apply elem_of_nil in Hform];
    (do 10 (destruct k as [|k]; [by vm_compute|])); lia.
Qed.

(** X17.  A DOI pasted in any of its usual forms gives one and the same
    locator: bare, with [doi:], or behind [doi.org/] or [dx.doi.org/] with
    or without [http://] or [https://], and with any white space around
    it, a DOI that begins with a digit and does not end in white space is
    looked up as [https://doi.org/] followed by the DOI. *)
Theorem doi_forms_agree (c : N) (r form w1 w2 : jsstring) :
  is_digit c = true -> trimEnd (c :: r) = c :: r ->
  form ∈ doi_forms -> blank_input w1 -> blank_input w2 ->
  locator mode_doi (w1 ++ (form ++ c :: r) ++ w2)
  = Return (str "https://doi.org/" ++ c :: r).
Proof.
  intros Hc Hr Hform H1 H2.
  assert (trim (w1 ++ (form ++ c :: r) ++ w2) = form ++ c :: r) as Htrim.
  { rewrite trim_pad by done. apply tight_trim.
    assert (trimStart (c :: r) = c :: r) as Hs.
    { apply trimStart_fixed. by apply digit_not_blank. }
    destruct (decide (form = [])) as [->|Hne]; [by split|].
    apply tight_app; try done.
    apply trimStart_fixed. unfold doi_forms in Hform.
    repeat (apply elem_of_cons in Hform as [->|Hform]);
      [done | by vm_compute..|by apply elem_of_nil in Hform]. }
  unfold locator, cleanDoi. rewrite Htrim.
  replace (nonempty (form ++ c :: r)) with true
    by (symmetry; apply nonempty_true_iff; by destruct form).
  cbn [negb]. by rewrite cleanDoi_form.
Qed.

Lemma doi_forms_agree_witness :
  locator mode_doi
    (str " " ++ (str "https://dx.doi.org/" ++ str "10.1000/182") ++ str "  ")
  = Return (str "https://doi.org/" ++ str "10.1000/182").
Proof.
  apply (doi_forms_agree 49 (str "0.1000/182") (str "https://dx.doi.org/")).
  - reflexivity.
  - reflexivity.
  - unfold doi_forms. do 7 apply list_elem_of_further. apply list_elem_of_here.
  - unfold blank_input. by repeat constructor.
  - unfold blank_input. by repeat constructor.
Defined.

(** X18.  The duplicate check looks through letter case and through white
    space around the title.  Lower-casing being what leaves white space
    around a string where it is, as the built-in does, metadata whose
    title lower-cases to what the title of a paper of the collection
    lower-cases to, with any white space before and after it, is rejected
    as a duplicate and no paper is added. *)
Theorem duplicate_check_ignores_case_and_padding (p : Paper)
    (existingPapers : list Paper) (m : PaperMetadata) (t w1 w2 : jsstring)
    (paperUrl uuid : jsstring) (now : Z) :
  (forall w s w', blank_input w -> blank_input w' ->
     toLowerCase (w ++ s ++ w') = w ++ toLowerCase s ++ w') ->
  p ∈ existingPapers ->
  toLowerCase t = toLowerCase (title p) ->
  blank_input w1 -> blank_input w2 ->
  m_title m = w1 ++ t ++ w2 ->
  handleSubmit (Return (paperUrl, Some m)) existingPapers uuid now
  = {| added := None; error := Some msg_duplicate |}.
Proof.
  intros Hpad Hp Ht H1 H2 Hm. apply handleSubmit_duplicate.
  exists p. split; [done|]. unfold titles_collide.
  rewrite Hm, Hpad by done. rewrite trim_pad by done. by rewrite Ht.
Qed.

(** ** The view under a change of the selection *)

Lemma elem_of_filteredPapers (papers : list Paper) (sel : Selection)
    (p : Paper) :
  p ∈ filteredPapers papers sel <-> p ∈ papers /\ matches sel p = true.
Proof.
  unfold filteredPapers. rewrite Array_sort_perm, list_elem_of_filter.
  rewrite Is_true_true. tauto.
Qed.

(** X19.  A click on a tag of a card never loses that card: a paper that
    is in the view and has the tag is in the view that the click leads
    to. *)
Theorem clicked_tag_keeps_card (papers : list Paper) (s : Selection)
    (p : Paper) (tag : jsstring) :
  p ∈ filteredPapers papers s -> tag ∈ tags p ->
  p ∈ filteredPapers papers (handleTagClick tag s).
Proof.
  rewrite !elem_of_filteredPapers. intros [Hp Hm] Htag. split; [done|].
  unfold matches in *.
  apply andb_true_iff in Hm as [_ Hsearch].
  unfold matchesTopic, matchesSubTopic, matchesTag. simpl.
  destruct (nonempty tag); simpl; [|done].
  by rewrite bool_decide_eq_true_2.
Qed.

Lemma filteredPapers_narrower (papers : list Paper) (s s' : Selection) :
  (forall p, matches s' p = true -> matches s p = true) ->
  filteredPapers papers s' `sublist_of` filteredPapers papers s.
Proof.
  intros H. rewrite !filteredPapers_unfold, <- !Array_sort_filter.
  set (l := Array_sort _ papers).
  replace (filter (fun p => matches s' p) l)
    with (filter (fun p => matches s' p) (filter (fun p => matches s p) l)).
  { apply sublist_filter. }
  rewrite list_filter_filter. apply list_filter_iff. intros p.
  rewrite !Is_true_true. split; [tauto|]. intros Hm. split; [done|].
  by apply H.
Qed.

(** X20.  Choosing narrows, clearing widens, and nothing is reordered: the
    view under a sub-topic is a sublist of the view with the sub-topic
    cleared, the view under a tag is a sublist of the view with the tag
    cleared, and the view under a search text is a sublist of the view
    with the search box empty. *)
Theorem narrowing_keeps_order (papers : list Paper) (s : Selection) :
  (forall sub,
     filteredPapers papers (setSelectedSubTopic sub s)
     `sublist_of` filteredPapers papers (setSelectedSubTopic None s))
  /\ (forall tag,
        filteredPapers papers (setSelectedTag tag s)
        `sublist_of` filteredPapers papers (setSelectedTag None s))
  /\ (forall q,
        filteredPapers papers (setSearchQuery q s)
        `sublist_of` filteredPapers papers (setSearchQuery [] s)).
Proof.
  split_and!; intros x; apply filteredPapers_narrower; intros p;
    unfold matches; rewrite !andb_true_iff; intros [[[H1 H2] H3] H4];
    split_and!; done.
Qed.

(** ** PaperCard.tsx: the metadata editor *)

Lemma addTag_tags (st : Editor) :
  let trimmed := trim (newTagInput st) in
  (trimmed <> [] /\ (trimmed ∉ editedTags st)
   /\ editedTags (addTag st) = editedTags st ++ [trimmed]
   /\ newTagInput (addTag st) = [])
  \/ ((trimmed = [] \/ trimmed ∈ editedTags st) /\ addTag st = st).
Proof.
  simpl. unfold addTag.
  destruct (nonempty (trim (newTagInput st))) eqn:E; simpl.
  - apply nonempty_true_iff in E. case_bool_decide; simpl.
    + right. by split; [right|].
    + left. by split_and!.
  - apply nonempty_false_iff in E. right. by split; [left|].
Qed.

Lemma clean_tags_snoc (ts : list jsstring) (t : jsstring) :
  clean_tags ts -> t <> [] -> trim t = t -> (t ∉ ts) -> clean_tags (ts ++ [t]).
Proof.
  intros [Hnd Hall] Hne Ht Hnew. split.
  - apply NoDup_app. split_and!; [done | | apply NoDup_singleton].
    intros x Hx ->%list_elem_of_singleton. done.
  - apply Forall_app. split; [done|]. by repeat constructor.
Qed.

Lemma clean_tags_filter (P : jsstring -> Prop) `{!forall t, Decision (P t)}
    (ts : list jsstring) :
  clean_tags ts -> clean_tags (filter P ts).
Proof.
  intros [Hnd Hall]. split; [by apply NoDup_filter|].
  rewrite Forall_forall in *. intros t [_ Ht]%list_elem_of_filter.
  by apply Hall.
Qed.

Lemma edit_clean (st : Editor) (a : edit_action) :
  clean_tags (editedTags st) -> clean_tags (editedTags (edit st a)).
Proof.
  intros H. destruct a; simpl; try done.
  - destruct (addTag_tags st) as [(Hne & Hnew & -> & _)|[_ ->]]; [|done].
    apply clean_tags_snoc; [done | done | apply trim_idem | done].
  - by apply clean_tags_filter.
Qed.

Lemma edits_clean (st : Editor) (actions : list edit_action) :
  clean_tags (editedTags st) -> clean_tags (editedTags (edits st actions)).
Proof.
  unfold edits. revert st.
  induction actions as [|a actions IH]; intros st H; simpl; [done|].
  by apply IH, edit_clean.
Qed.

(** X21.  The editor keeps tags clean.  When the tags of every paper are
    free of repetitions, of empty tags and of white space around a tag,
    they still are after the card's editor was opened, any controls of
    the edit form were used in any order, and the changes were saved. *)
Theorem edited_tags_stay_clean (paper : Paper) (st : Editor)
    (actions : list edit_action) (papers : list Paper) :
  clean_tags (tags paper) ->
  Forall (fun q => clean_tags (tags q)) papers ->
  Forall (fun q => clean_tags (tags q))
    (saveChanges paper (edits (startEditing paper st) actions) papers).2.
Proof.
  intros Hpaper Hall. unfold saveChanges, handleUpdateMetadata. simpl.
  apply Forall_fmap. eapply Forall_impl; [exact Hall|].
  intros q Hq. simpl. destruct (decide (id q = id paper)); [|done].
  simpl. by apply edits_clean.
Qed.

Lemma edited_tags_stay_clean_witness :
  Forall (fun q => clean_tags (tags q))
    (saveChanges
       (sample_paper "p3" "B" None [str "neuroscience"; str "fMRI"] 3%Z)
       (edits
          (startEditing
             (sample_paper "p3" "B" None [str "neuroscience"; str "fMRI"] 3%Z)
             sample_editor)
          [type_new_tag (str " fMRI "); submit_new_tag;
           type_new_tag (str " PET "); submit_new_tag;
           click_remove_tag (str "neuroscience")])
       sample_collection).2.
Proof.
  assert (forall ts : list jsstring,
            bool_decide (NoDup ts)
            && forallb (fun t => nonempty t && bool_decide (trim t = t)) ts
            = true -> clean_tags ts) as Hclean.
  { intros ts [Hnd Hall]%andb_true_iff. split.
    - by apply bool_decide_eq_true in Hnd.
    - apply Forall_forall. intros t Ht.
      rewrite forallb_forall in Hall.
      assert (In t ts) as Hin by (by apply list_elem_of_In).
      apply Hall in Hin. apply andb_true_iff in Hin as [H1 H2].
      split; [by apply nonempty_true_iff | by apply bool_decide_eq_true in H2]. }
  apply edited_tags_stay_clean.
  - apply Hclean. by vm_compute.
  - unfold sample_collection.
    repeat (apply List.Forall_cons; [apply Hclean; by vm_compute|]).
    apply List.Forall_nil.
Defined.

(** X22.  Opening the editor and saving at once changes nothing: in a
    collection with unique ids the paper and all others are as they were,
    unless the paper had the empty string as sub-topic, which is the one
    thing a save mends.  And whatever was edited, the saved paper never
    has the empty string as sub-topic. *)
Theorem save_without_edits (paper : Paper) (papers : list Paper) :
  unique_ids papers -> paper ∈ papers ->
  (forall st,
     subTopic paper <> Some [] ->
     (saveChanges paper (startEditing paper st) papers).2 = papers)
  /\ (forall st q,
        q ∈ (saveChanges paper st papers).2 -> id q = id paper ->
        subTopic q <> Some []).
Proof.
  intros Hu Hp. split.
  - intros st Hsub. unfold saveChanges, startEditing. simpl.
    destruct (unique_id_effects papers paper Hu Hp) as (l1 & l2 & E & _ & H).
    rewrite H. rewrite E. do 2 f_equal.
    destruct paper as [i u t s a tp sub g j d at_]. unfold with_metadata.
    simpl in *. f_equal.
    destruct sub as [[|c sub]|]; done.
  - intros st q Hq Hid. unfold saveChanges, handleUpdateMetadata in Hq.
    simpl in Hq. apply list_elem_of_fmap in Hq as (q0 & -> & Hq0).
    destruct (decide (id q0 = id paper)) as [_|Hne]; simpl.
    + unfold or_undefined. by destruct (editedSubTopic st).
    + destruct (decide (id q0 = id paper)); done.
Qed.

Lemma save_without_edits_witness :
  (saveChanges
     (sample_paper "p1" "A" (Some (str "X")) [str "neuroscience"] 1%Z)
     (startEditing
        (sample_paper "p1" "A" (Some (str "X")) [str "neuroscience"] 1%Z)
        sample_editor)
     sample_collection).2
  = sample_collection.
Proof.
  apply (proj1 (save_without_edits
                  (sample_paper "p1" "A" (Some (str "X"))
                     [str "neuroscience"] 1%Z)
                  sample_collection
                  ltac:(refine (bool_decide_unpack
                                  (NoDup (id <$> sample_collection)) _);
                        vm_compute; exact I)
                  ltac:(apply list_elem_of_here))).
  discriminate.
Defined.

(** X23.  [addTag] either appends the trimmed text of the field, which is
    then neither empty nor among the tags, and clears the field, or it
    leaves the whole editor as it is; and a tag just added is taken out
    again by [removeTag], the other tags staying as they were. *)
Theorem removeTag_undoes_addTag (st : Editor) :
  (addTag st = st
   \/ (trim (newTagInput st) <> [] /\ (trim (newTagInput st) ∉ editedTags st)
       /\ editedTags (addTag st) = editedTags st ++ [trim (newTagInput st)]
       /\ newTagInput (addTag st) = []))
  /\ (addTag st <> st ->
      editedTags (removeTag (trim (newTagInput st)) (addTag st))
      = editedTags st).
Proof.
  destruct (addTag_tags st) as [(Hne & Hnew & Ht & Hi)|[_ Hst]].
  - split; [by right|]. intros _. unfold removeTag. simpl. rewrite Ht.
    rewrite filter_app, filter_cons_False, filter_nil, app_nil_r
      by (intros H; by apply H).
    clear Ht. induction (editedTags st) as [|t ts IH]; [done|].
    apply not_elem_of_cons in Hnew as [Hne' Hnew].
    rewrite filter_cons_True by done. f_equal. by apply IH.
  - split; [by left | done].
Qed.

Lemma removeTag_undoes_addTag_witness :
  editedTags (removeTag (trim (newTagInput sample_editor))
                (addTag sample_editor))
  = editedTags sample_editor.
Proof.
  apply (proj2 (removeTag_undoes_addTag sample_editor)).
  by vm_compute.
Defined.

(** ** PaperCard.tsx: getCardDesign *)

Lemma ToInt32_range (x : Z) : (- 2 ^ 31 <= ToInt32 x < 2 ^ 31)%Z.
Proof.
  unfold ToInt32.
  pose proof (Z.mod_pos_bound (x + 2 ^ 31) (2 ^ 32) ltac:(lia)). lia.
Qed.

Lemma card_hash_step_bound (hash : Z) (c : N) :
  c < 65536 ->
  (Z.abs (Z.of_N c + (shift_left hash 5 - hash)) <= Z.abs hash + 2 ^ 32)%Z.
Proof.
  intros Hc. unfold shift_left.
  pose proof (ToInt32_range (Z.shiftl (ToInt32 hash) 5)). lia.
Qed.

Lemma foldl_hash_bound (i : jsstring) (h0 : Z) :
  code_units i ->
  (Z.abs (foldl (fun hash c => Z.of_N c + (shift_left hash 5 - hash)) h0 i)
   <= Z.abs h0 + Z.of_nat (length i) * 2 ^ 32)%Z.
Proof.
  intros Hi. revert h0.
  induction Hi as [|c i Hc _ IH]; intros h0; simpl; [lia|].
  specialize (IH (Z.of_N c + (shift_left h0 5 - h0))%Z).
  pose proof (card_hash_step_bound h0 c Hc). lia.
Qed.

(** X24.  [getCardDesign] never comes back undefined: for every id the
    index is one of the nine designs.  And for an id of at most 2^21 code
    units, the hash after any number of rounds of the loop stays within
    2^53 in magnitude, the range in which a JavaScript number is an exact
    integer. *)
Theorem getCardDesign_defined (i : jsstring) :
  (exists d, getCardDesign i = Some d /\ d ∈ designs)
  /\ (code_units i -> (Z.of_nat (length i) <= 2 ^ 21)%Z ->
      forall n, (Z.abs (card_hash (take n i)) <= 2 ^ 53)%Z).
Proof.
  split.
  - unfold getCardDesign.
    destruct (lookup_lt_is_Some_2 designs
                (Z.to_nat (Z.abs (card_hash i) mod Z.of_nat (length designs))))
      as [d Hd].
    { change (length designs) with 9%nat.
      pose proof (Z.mod_pos_bound (Z.abs (card_hash i)) (Z.of_nat 9)). lia. }
    exists d. split; [done|]. by apply list_elem_of_lookup_2 in Hd.
  - intros Hi Hlen n. unfold card_hash.
    assert (code_units (take n i)) as Hn.
    { unfold code_units in *. by apply Forall_take. }
    pose proof (foldl_hash_bound (take n i) 0 Hn) as H.
    pose proof (length_take i n) as Hle.
    assert ((Z.of_nat (length (take n i)) <= 2 ^ 21)%Z) as Hz by lia.
    change (2 ^ 53)%Z with (2 ^ 21 * 2 ^ 32)%Z. nia.
Qed.

Lemma getCardDesign_defined_witness :
  (Z.abs (card_hash (take 1 (str "p1"))) <= 2 ^ 53)%Z.
Proof.
  apply (proj2 (getCardDesign_defined (str "p1"))).
  - unfold code_units. by repeat constructor.
  - by vm_compute.
Defined.

(** ** CitationModal.tsx: the key of the BibTeX entry *)

Lemma split_pieces (sep : N) (s piece : jsstring) :
  piece ∈ split sep s -> sep ∉ piece.
Proof.
  revert piece. induction s as [|c s IH]; intros piece; simpl.
  - intros ->%list_elem_of_singleton. apply not_elem_of_nil.
  - destruct (c =? sep) eqn:E.
    + intros [->|H]%elem_of_cons; [apply not_elem_of_nil | by apply IH].
    + apply N.eqb_neq in E.
      destruct (split sep s) as [|first rest].
      * intros ->%list_elem_of_singleton.
        apply not_elem_of_cons. split; [done | apply not_elem_of_nil].
      * intros [->|H]%elem_of_cons.
        -- apply not_elem_of_cons. split; [done|].
           apply IH, list_elem_of_here.
        -- by apply IH, list_elem_of_further.
Qed.

Lemma unknown_shape : str "unknown" <> [] /\ (32 ∉ str "unknown").
Proof.
  split; [done|].
  refine (bool_decide_unpack (32 ∉ str "unknown") _). vm_compute. exact I.
Qed.

(** X25.  The key of the BibTeX entry is well formed as far as the code
    takes care of it: the part taken from the first author is never empty,
    the part taken from the title holds only the letters a to z and
    digits, and so the key is not empty.  Lower-casing being what turns
    no string without a space into one with a space, as the built-in
    does, the part taken from the first author holds no space and, the
    year being free of spaces, neither does the key. *)
Theorem citation_key_shape (paper : Paper) (year : jsstring) :
  firstAuthorLast paper <> []
  /\ Forall (fun c => is_slug_unit c = true) (titleSlug paper)
  /\ citation_key paper year <> []
  /\ ((forall s, (32 ∉ s) -> 32 ∉ toLowerCase s) ->
      (32 ∉ firstAuthorLast paper)
      /\ ((32 ∉ year) -> 32 ∉ citation_key paper year)).
Proof.
  destruct unknown_shape as [Hu1 Hu2].
  assert (firstAuthorLast paper <> []) as Ha1.
  { unfold firstAuthorLast. destruct (authors paper) as [|first rest]; [done|].
    destruct (last (split 32 first)) as [piece|] eqn:E; [|done].
    destruct (nonempty (toLowerCase piece)) eqn:En; [|done].
    by apply nonempty_true_iff. }
  assert (Forall (fun c => is_slug_unit c = true) (titleSlug paper)) as Hs.
  { unfold titleSlug. apply Forall_forall.
    by intros c [Hc _]%list_elem_of_filter. }
  split_and!; try done.
  - unfold citation_key. by destruct (firstAuthorLast paper).
  - intros Hspace.
    assert (32 ∉ firstAuthorLast paper) as Ha2.
    { unfold firstAuthorLast.
      destruct (authors paper) as [|first rest]; [done|].
      destruct (last (split 32 first)) as [piece|] eqn:E; [|done].
      destruct (nonempty (toLowerCase piece)) eqn:En; [|done].
      apply Hspace, (split_pieces 32 first).
      apply last_Some in E as (l' & ->). apply elem_of_app. right.
      apply list_elem_of_here. }
    split; [done|].
    intros Hy. unfold citation_key. rewrite !not_elem_of_app.
    split_and!; try done.
    intros Hin. rewrite Forall_forall in Hs. by apply Hs in Hin.
Qed.
End builtins.

Arguments sample_paper (i t)%_string sub g a.

(** * The properties at sample inputs *)

(** Where a statement needs the lower-casing of the engine to be given,
    [lower_ascii] is given: it is what the built-in does to the strings
    of the samples. *)

Lemma lower_ascii_blank (w : jsstring) : blank_input w -> lower_ascii w = w.
Proof.
  unfold lower_ascii. induction 1 as [|c w Hc _ IH]; [done|].
  rewrite fmap_cons, IH. f_equal.
  destruct ((65 <=? c) && (c <=? 90)) eqn:E; [|done].
  apply andb_true_iff in E as [?%N.leb_le ?%N.leb_le].
  assert (exists k, (k < 26)%nat /\ c = 65 + N.of_nat k) as (k & Hk & ->).
  { exists (N.to_nat (c - 65)). lia. }
  do 26 (destruct k as [|k]; [by vm_compute in Hc|]). lia.
Qed.

Lemma lower_ascii_pad (w s w' : jsstring) :
  blank_input w -> blank_input w' ->
  lower_ascii (w ++ s ++ w') = w ++ lower_ascii s ++ w'.
Proof.
  intros H H'. unfold lower_ascii. rewrite !fmap_app.
  fold (lower_ascii w) (lower_ascii s) (lower_ascii w').
  by rewrite (lower_ascii_blank w), (lower_ascii_blank w').
Qed.

Lemma view_after_add_witness :
  filteredPapers lower_ascii
    (handleAddPaper (sample_paper "p4" "B" None [] 9%Z) sample_collection)
    initial_selection
  = sample_paper "p4" "B" None [] 9%Z
      :: filteredPapers lower_ascii sample_collection initial_selection.
Proof.
  apply (view_after_add lower_ascii (sample_paper "p4" "B" None [] 9%Z)
           sample_collection initial_selection).
  unfold newest, sample_collection. repeat constructor; simpl; lia.
Defined.

Lemma topic_count_is_view_size_witness :
  Z.of_nat (length (filteredPapers lower_ascii sample_collection
                      (handleTopicSelection (Some (str "A"))
                         initial_selection))) = 2%Z.
Proof.
  apply (topic_count_is_view_size lower_ascii sample_collection
           initial_selection (str "A") 2%Z).
  - rewrite topic_counts_example. by left.
  - reflexivity.
Defined.

Lemma subTopic_count_is_view_size_witness :
  Z.of_nat (length (filteredPapers lower_ascii sample_collection
                      (setSelectedSubTopic (Some (str "X"))
                         (handleTopicSelection (Some (str "A"))
                            initial_selection)))) = 1%Z.
Proof.
  apply (subTopic_count_is_view_size lower_ascii sample_collection
           (handleTopicSelection (Some (str "A")) initial_selection)
           (str "X") 1%Z).
  - by left.
  - reflexivity.
  - reflexivity.
Defined.


Lemma unique_ids_kept_witness :
  unique_ids (handleDeletePaper (str "p2") sample_collection).
Proof.
  apply (unique_ids_kept lower_ascii sample_collection).
  unfold unique_ids.
  refine (bool_decide_unpack (NoDup (id <$> sample_collection)) _).
  vm_compute. exact I.
Defined.

Lemma collection_stays_newest_first_witness :
  filteredPapers lower_ascii (reverse sample_collection) initial_selection
  = filter (fun p => matches lower_ascii initial_selection p)
      (reverse sample_collection).
Proof.
  apply (collection_stays_newest_first lower_ascii
           (reverse sample_collection)).
  unfold newest_first, sample_collection. simpl.
  repeat constructor; simpl; lia.
Defined.

Lemma blank_input_rejected_witness :
  handleSubmit lower_ascii
    (acquire mode_doi (str "   ") (fun _ => Throw []))
    sample_collection (str "p4") 4%Z
  = {| added := None; error := Some msg_enter_doi |}.
Proof.
  apply (proj1 (blank_input_rejected lower_ascii mode_doi (str "   "))).
  unfold blank_input. by repeat constructor.
Defined.

Lemma duplicate_check_ignores_case_and_padding_witness :
  handleSubmit lower_ascii
    (Return (str "https://example.org/again",
             Some {| m_title := str "  P1 "; m_summary := str "S";
                     m_authors := []; m_topic := str "A";
                     m_subTopic := None; m_tags := [];
                     m_journal := None; m_publishDate := None |}))
    sample_collection (str "p4") 4%Z
  = {| added := None; error := Some msg_duplicate |}.
Proof.
  apply (duplicate_check_ignores_case_and_padding lower_ascii
           (sample_paper "p1" "A" (Some (str "X")) [str "neuroscience"] 1%Z)
           sample_collection _ (str "P1") (str "  ") (str " ")).
  - apply lower_ascii_pad.
  - apply list_elem_of_here.
  - reflexivity.
  - unfold blank_input. by repeat constructor.
  - unfold blank_input. by repeat constructor.
  - reflexivity.
Defined.

Lemma clicked_tag_keeps_card_witness :
  sample_paper "p3" "B" None [str "neuroscience"; str "fMRI"] 3%Z
  ∈ filteredPapers lower_ascii sample_collection
      (handleTagClick (str "fMRI") initial_selection).
Proof.
  apply clicked_tag_keeps_card.
  - apply elem_of_filteredPapers. split; [|reflexivity].
    do 2 apply list_elem_of_further. apply list_elem_of_here.
  - apply list_elem_of_further, list_elem_of_here.
Defined.

(** C4, as the design states it, does not hold, whatever the lower-casing
    is: a failure of the analysis service whose message happens to
    contain "already exists" is shown with the very signal of a
    duplicate, although nothing collides. *)
Lemma service_failure_shown_as_duplicate :
  ~ (exists toLowerCase,
       forall acquired existingPapers uuid now e,
         error (handleSubmit toLowerCase acquired existingPapers uuid now)
         = Some e ->
         style_of e = amber ->
         rejected_as_duplicate toLowerCase acquired existingPapers).
Proof.
  intros [toLowerCase H].
  destruct (H (Throw (str "Resource already exists")) [] [] 0%Z
              (str "Resource already exists") eq_refl eq_refl)
    as (? & ? & [=] & _).
Qed.

(** The example of the design: the titles differ in case and in
    surrounding white space only, and the candidate is turned down. *)
Example attention_is_rejected :
  handleSubmit lower_ascii
    (Return (str "https://arxiv.org/abs/1706.03762", Some sample_attention))
    [sample_stored_attention] (str "uuid") 5%Z
  = {| added := None; error := Some msg_duplicate |}.
Proof. by vm_compute. Qed.

Example search_is_case_insensitive :
  id <$> filteredPapers lower_ascii sample_collection
           (setSearchQuery (str "FMRI") initial_selection)
  = [str "p3"].
Proof. reflexivity. Qed.

Lemma lower_ascii_space (s : jsstring) : (32 ∉ s) -> 32 ∉ lower_ascii s.
Proof.
  unfold lower_ascii. intros H (c & Hc & Hin)%list_elem_of_fmap.
  destruct ((65 <=? c) && (c <=? 90)) eqn:E.
  - apply andb_true_iff in E as [?%N.leb_le ?%N.leb_le]. lia.
  - by subst c.
Qed.

Lemma citation_key_shape_witness :
  (32 ∉ firstAuthorLast lower_ascii (sample_paper "p1" "A" None [] 1%Z))
  /\ ((32 ∉ str "2026") ->
      32 ∉ citation_key lower_ascii (sample_paper "p1" "A" None [] 1%Z)
             (str "2026")).
Proof.
  apply (citation_key_shape lower_ascii (sample_paper "p1" "A" None [] 1%Z)
           (str "2026")).
  apply lower_ascii_space.
Defined.
